(** * oci-tools: lazy image mutation and SIF synchronisation

    A shallow embedding of [pkg/mutate/image.go] (the lazily computed image
    produced by layer overrides) and of [pkg/sif/update.go] (reconciling the
    OCI blobs of a SIF with a target image index), together with the
    properties of both that the design document states.

    Go's [(value, error)] returns are values of [result]; a run-time panic
    (nil dereference, index out of range) is the third outcome [Panic].
    Code that updates the receiver or the file system is written in a
    state-and-error monad over the relevant world. *)

From Stdlib.Strings Require Import Byte.
From stdpp Require Import gmap strings list fin_maps.

(** ** Errors, results and the state-and-error monad *)

(** [errLayerNotFound] is the one error value [image.go] declares; every
    other error is produced by a collaborator and is opaque to the code. *)
Inductive error : Type :=
| errLayerNotFound
| errExternal (msg : string).

Inductive result (A : Type) : Type :=
| Ok (a : A)
| Err (e : error)
| Panic.
Arguments Ok {A} a.
Arguments Err {A} e.
Arguments Panic {A}.

Definition is_Ok {A} (r : result A) : Prop :=
  match r with Ok _ => True | _ => False end.

Definition result_bind {A B} (r : result A) (k : A → result B) : result B :=
  match r with
  | Ok a => k a
  | Err e => Err e
  | Panic => Panic
  end.

Definition M (S A : Type) : Type := S → result A * S.

Definition ret {S A} (a : A) : M S A := λ s, (Ok a, s).
Definition lift {S A} (r : result A) : M S A := λ s, (r, s).
Definition bind {S A B} (c : M S A) (k : A → M S B) : M S B :=
  λ s, match c s with
       | (Ok a, s') => k a s'
       | (Err e, s') => (Err e, s')
       | (Panic, s') => (Panic, s')
       end.

Declare Scope go_scope.
Delimit Scope go_scope with go.
Notation "x <- c ;; k" := (bind c (λ x, k))
  (at level 90, c at next level, right associativity) : go_scope.
Notation "c ;;; k" := (bind c (λ _, k))
  (at level 90, right associativity) : go_scope.
Notation "x <=- r ;; k" := (result_bind r (λ x, k))
  (at level 90, r at next level, right associativity) : go_scope.

(** ** The image model of go-containerregistry ([v1]) *)

Definition bytes : Type := list byte.

(** [v1.Hash]: algorithm name and hexadecimal digest. *)
Record Hash : Type := mkHash { Algorithm : string; Hex : string }.

#[global] Instance Hash_eq_dec : EqDecision Hash.
Proof. solve_decision. Defined.

#[global] Instance Hash_countable : Countable Hash.
Proof.
  refine (inj_countable' (λ h, (Algorithm h, Hex h)) (λ p, mkHash p.1 p.2) _).
  by intros [].
Defined.

(** [types.MediaType] is a string; these are the four values [update.go]
    switches on. *)
Definition MediaType : Type := string.
Definition DockerManifestList : MediaType :=
  "application/vnd.docker.distribution.manifest.list.v2+json".
Definition OCIImageIndex : MediaType :=
  "application/vnd.oci.image.index.v1+json".
Definition DockerManifestSchema2 : MediaType :=
  "application/vnd.docker.distribution.manifest.v2+json".
Definition OCIManifestSchema1 : MediaType :=
  "application/vnd.oci.image.manifest.v1+json".

(** [v1.Descriptor].  [Data] is a byte slice: [None] is the nil slice. *)
Record Descriptor : Type := mkDescriptor {
  d_MediaType : MediaType;
  d_Size : Z;
  d_Digest : Hash;
  d_Data : option bytes
}.

(** [v1.Manifest]. *)
Record Manifest : Type := mkManifest {
  m_SchemaVersion : Z;
  m_MediaType : MediaType;
  m_Config : Descriptor;
  m_Layers : list Descriptor
}.

(** [v1.History] and [v1.ConfigFile]; the fields the code never touches are
    gathered in [c_Other]. *)
Record History : Type := mkHistory { h_CreatedBy : string; h_Comment : string }.

Record ConfigFile : Type := mkConfigFile {
  c_RootFS_DiffIDs : list Hash;
  c_History : list History;
  c_Other : string
}.

(** [v1.Layer] is an interface; a layer is the record of what its methods
    return.  [l_name] stands for the identity of the Go value, so that two
    layers may agree on a hash and still be different layers. *)
Record Layer : Type := mkLayer {
  l_name : string;
  l_Digest : result Hash;
  l_DiffID : result Hash;
  l_Size : result Z;
  l_MediaType : result MediaType;
  l_Compressed : result bytes
}.

(** [partial.Descriptor] of go-containerregistry, for a layer that does not
    carry a descriptor of its own: size, digest and media type, asked in
    that order. *)
Definition partial_Descriptor (l : Layer) : result Descriptor :=
  (size <=- l_Size l ;;
   digest <=- l_Digest l ;;
   mt <=- l_MediaType l ;;
   Ok (mkDescriptor mt size digest None))%go.

(** ** [pkg/mutate/image.go] *)

Module Mutate.

(** Pointers are heap locations; [None] is [nil]. *)
Definition ptr : Type := option nat.

(** The base [v1.Image], as the results of the methods [populate] and
    [MediaType] call.  [ConfigFile] and [Manifest] return pointers into the
    heap: the objects they point to belong to the base. *)
Record Image : Type := mkImage {
  Image_MediaType : result MediaType;
  Image_ConfigFile : result ptr;
  Image_Manifest : result ptr;
  Image_Layers : result (list Layer)
}.

(** The [image] struct.  A nil slice is [[]], a nil map is [∅], a nil
    pointer is [None]; the embedded mutex is not modelled (every method
    runs to completion before the next starts). *)
Record image : Type := mkimage {
  base : Image;
  overrides : list (option Layer);
  history : option History;
  computed : bool;
  diffIDs : list Hash;
  byDiffID : gmap Hash Layer;
  byDigest : gmap Hash Layer;
  manifest : ptr;
  configFile : ptr
}.

(** The world of a method call: the receiver and the two typed heaps in
    which [*v1.ConfigFile] and [*v1.Manifest] values live.  A location is an
    index into the heap; allocation appends. *)
Record world : Type := mkworld {
  img : image;
  configs : list ConfigFile;
  manifests : list Manifest
}.

Definition set_img (i : image) (w : world) : world :=
  mkworld i (configs w) (manifests w).
Definition set_configs (h : list ConfigFile) (w : world) : world :=
  mkworld (img w) h (manifests w).
Definition set_manifests (h : list Manifest) (w : world) : world :=
  mkworld (img w) (configs w) h.

(** Dereferencing [nil] panics. *)
Definition load_config (p : ptr) : M world ConfigFile := λ w,
  match p with
  | Some l => match configs w !! l with
              | Some c => (Ok c, w)
              | None => (Panic, w)
              end
  | None => (Panic, w)
  end.

Definition load_manifest (p : ptr) : M world Manifest := λ w,
  match p with
  | Some l => match manifests w !! l with
              | Some m => (Ok m, w)
              | None => (Panic, w)
              end
  | None => (Panic, w)
  end.

(** A field assignment through a pointer: [p.f = v]. *)
Definition update_config (p : ptr) (f : ConfigFile → ConfigFile) : M world unit :=
  (c <- load_config p ;;
   λ w, match p with
        | Some l => (Ok (), set_configs (<[l := f c]> (configs w)) w)
        | None => (Panic, w)
        end)%go.

Definition update_manifest (p : ptr) (f : Manifest → Manifest) : M world unit :=
  (m <- load_manifest p ;;
   λ w, match p with
        | Some l => (Ok (), set_manifests (<[l := f m]> (manifests w)) w)
        | None => (Panic, w)
        end)%go.

(** [DeepCopy] on a [ConfigFile] pointer and on a [Manifest] pointer: [nil]
    for [nil], otherwise a pointer to a newly allocated copy. *)
Definition ConfigFile_DeepCopy (p : ptr) : M world ptr := λ w,
  match p with
  | None => (Ok None, w)
  | Some l => match configs w !! l with
              | Some c => (Ok (Some (length (configs w))),
                           set_configs (configs w ++ [c]) w)
              | None => (Panic, w)
              end
  end.

Definition Manifest_DeepCopy (p : ptr) : M world ptr := λ w,
  match p with
  | None => (Ok None, w)
  | Some l => match manifests w !! l with
              | Some m => (Ok (Some (length (manifests w))),
                           set_manifests (manifests w ++ [m]) w)
              | None => (Panic, w)
              end
  end.

(** The four accumulators of the loop of [populate]. *)
Record acc : Type := mkacc {
  a_layers : list Descriptor;
  a_diffIDs : list Hash;
  a_byDiffID : gmap Hash Layer;
  a_byDigest : gmap Hash Layer
}.

Definition acc_empty : acc := mkacc [] [] ∅ ∅.

(** [ls[i]]: out of range panics. *)
Definition index_layers (ls : list Layer) (i : nat) : result Layer :=
  match ls !! i with
  | Some l => Ok l
  | None => Panic
  end.

(** One iteration of [for i, l := range img.overrides]. *)
Definition populate_step (ls : list Layer) (i : nat) (o : option Layer)
    (a : acc) : result acc :=
  (l <=- match o with Some l => Ok l | None => index_layers ls i end ;;
   d <=- partial_Descriptor l ;;
   diffID <=- l_DiffID l ;;
   Ok (mkacc (a_layers a ++ [d])
             (a_diffIDs a ++ [diffID])
             (<[diffID := l]> (a_byDiffID a))
             (<[d_Digest d := l]> (a_byDigest a))))%go.

Fixpoint populate_loop (ls : list Layer) (i : nat) (os : list (option Layer))
    (a : acc) : result acc :=
  match os with
  | [] => Ok a
  | o :: os' =>
      (a' <=- populate_step ls i o a ;; populate_loop ls (S i) os' a')%go
  end.

Definition set_m_Layers (v : list Descriptor) (m : Manifest) : Manifest :=
  mkManifest (m_SchemaVersion m) (m_MediaType m) (m_Config m) v.
Definition set_m_Config (v : Descriptor) (m : Manifest) : Manifest :=
  mkManifest (m_SchemaVersion m) (m_MediaType m) v (m_Layers m).
Definition set_d_Digest (v : Hash) (d : Descriptor) : Descriptor :=
  mkDescriptor (d_MediaType d) (d_Size d) v (d_Data d).
Definition set_d_Size (v : Z) (d : Descriptor) : Descriptor :=
  mkDescriptor (d_MediaType d) v (d_Digest d) (d_Data d).
Definition set_d_Data (v : option bytes) (d : Descriptor) : Descriptor :=
  mkDescriptor (d_MediaType d) (d_Size d) (d_Digest d) v.
Definition set_c_DiffIDs (v : list Hash) (c : ConfigFile) : ConfigFile :=
  mkConfigFile v (c_History c) (c_Other c).
Definition set_c_History (v : list History) (c : ConfigFile) : ConfigFile :=
  mkConfigFile (c_RootFS_DiffIDs c) v (c_Other c).

Section WithCodecs.

(** [json.Marshal] on a config file and on a manifest, and [v1.SHA256] on a
    byte buffer (digest and length), are collaborators. *)
Variable json_Marshal_ConfigFile : ConfigFile → result bytes.
Variable json_Marshal_Manifest : Manifest → result bytes.
Variable SHA256 : bytes → result (Hash * Z).

(** The body of [populate] once [img.computed] is known to be false. *)
Definition populate_pass : M world unit :=
  (i <- (λ w, (Ok (img w), w)) ;;
   configFile <- lift (Image_ConfigFile (base i)) ;;
   configFile <- ConfigFile_DeepCopy configFile ;;
   manifest <- lift (Image_Manifest (base i)) ;;
   manifest <- Manifest_DeepCopy manifest ;;
   ls <- lift (Image_Layers (base i)) ;;
   a <- lift (populate_loop ls 0 (overrides i) acc_empty) ;;
   update_manifest manifest (set_m_Layers (a_layers a)) ;;;
   update_config configFile (set_c_DiffIDs (a_diffIDs a)) ;;;
   match history i with
   | Some h => update_config configFile (set_c_History [h])
   | None => ret ()
   end ;;;
   cf <- load_config configFile ;;
   config <- lift (json_Marshal_ConfigFile cf) ;;
   ds <- lift (SHA256 config) ;;
   update_manifest manifest (λ m, set_m_Config (set_d_Digest ds.1 (m_Config m)) m) ;;;
   update_manifest manifest (λ m, set_m_Config (set_d_Size ds.2 (m_Config m)) m) ;;;
   m <- load_manifest manifest ;;
   match d_Data (m_Config m) with
   | Some _ =>
       update_manifest manifest
         (λ m, set_m_Config (set_d_Data (Some config) (m_Config m)) m)
   | None => ret ()
   end ;;;
   λ w, (Ok (),
         set_img (mkimage (base i) (overrides i) (history i)
                    true (a_diffIDs a) (a_byDiffID a) (a_byDigest a)
                    manifest configFile) w))%go.

Definition populate : M world unit := λ w,
  if computed (img w) then (Ok (), w) else populate_pass w.

Definition MediaType_ : M world MediaType := λ w,
  (Image_MediaType (base (img w)), w).

Definition Manifest_ : M world ptr :=
  (populate ;;; λ w, (Ok (manifest (img w)), w))%go.

(** [json.Marshal] is given the manifest the pointer leads to; after a
    successful [populate] the pointer is never [nil]. *)
Definition RawManifest : M world bytes :=
  (populate ;;;
   p <- (λ w, (Ok (manifest (img w)), w)) ;;
   m <- load_manifest p ;;
   lift (json_Marshal_Manifest m))%go.

Definition ConfigFile_ : M world ptr :=
  (populate ;;; λ w, (Ok (configFile (img w)), w))%go.

Definition RawConfigFile : M world bytes :=
  (populate ;;;
   p <- (λ w, (Ok (configFile (img w)), w)) ;;
   c <- load_config p ;;
   lift (json_Marshal_ConfigFile c))%go.

(** [partial.Size], [partial.Digest] and [partial.ConfigName] of
    go-containerregistry: the length and the SHA-256 of the raw manifest,
    and the SHA-256 of the raw config file. *)
Definition Size : M world Z :=
  (populate ;;; b <- RawManifest ;; ret (Z.of_nat (length b)))%go.

Definition Digest : M world Hash :=
  (populate ;;; b <- RawManifest ;; ds <- lift (SHA256 b) ;; ret ds.1)%go.

Definition ConfigName : M world Hash :=
  (populate ;;; b <- RawConfigFile ;; ds <- lift (SHA256 b) ;; ret ds.1)%go.

Definition LayerByDigest (h : Hash) : M world Layer :=
  (populate ;;;
   λ w, match byDigest (img w) !! h with
        | Some l => (Ok l, w)
        | None => (Err errLayerNotFound, w)
        end)%go.

Definition LayerByDiffID (h : Hash) : M world Layer :=
  (populate ;;;
   λ w, match byDiffID (img w) !! h with
        | Some l => (Ok l, w)
        | None => (Err errLayerNotFound, w)
        end)%go.

(** The loop of [Layers] over [img.diffIDs]. *)
Fixpoint Layers_loop (hs : list Hash) (ls : list Layer) : M world (list Layer) :=
  match hs with
  | [] => ret ls
  | h :: hs' => (l <- LayerByDiffID h ;; Layers_loop hs' (ls ++ [l]))%go
  end.

Definition Layers : M world (list Layer) :=
  (populate ;;;
   hs <- (λ w, (Ok (diffIDs (img w)), w)) ;;
   Layers_loop hs [])%go.

End WithCodecs.

(** What a successful pass leaves in the two copies: the config file and
    the manifest it has built from the base's [c] and [m]. *)
Definition new_config (i : image) (a : acc) (c : ConfigFile) : ConfigFile :=
  let c1 := set_c_DiffIDs (a_diffIDs a) c in
  match history i with
  | Some h => set_c_History [h] c1
  | None => c1
  end.

Definition new_manifest (a : acc) (config : bytes) (ds : Hash * Z)
    (m : Manifest) : Manifest :=
  let m1 := set_m_Layers (a_layers a) m in
  let m2 := set_m_Config (set_d_Digest ds.1 (m_Config m1)) m1 in
  let m3 := set_m_Config (set_d_Size ds.2 (m_Config m2)) m2 in
  match d_Data (m_Config m3) with
  | Some _ => set_m_Config (set_d_Data (Some config) (m_Config m3)) m3
  | None => m3
  end.

(** The public methods, as calls a client can make one after the other. *)
Inductive call : Type :=
| CallMediaType
| CallSize
| CallDigest
| CallManifest
| CallRawManifest
| CallConfigName
| CallConfigFile
| CallRawConfigFile
| CallLayers
| CallLayerByDigest (h : Hash)
| CallLayerByDiffID (h : Hash).

Section Calls.

Variable json_Marshal_ConfigFile : ConfigFile → result bytes.
Variable json_Marshal_Manifest : Manifest → result bytes.
Variable SHA256 : bytes → result (Hash * Z).

(** The world a call leaves behind, whatever it returns. *)
Definition after_call (c : call) (w : world) : world :=
  match c with
  | CallMediaType => (MediaType_ w).2
  | CallSize => (Size json_Marshal_ConfigFile json_Marshal_Manifest SHA256 w).2
  | CallDigest => (Digest json_Marshal_ConfigFile json_Marshal_Manifest SHA256 w).2
  | CallManifest => (Manifest_ json_Marshal_ConfigFile SHA256 w).2
  | CallRawManifest =>
      (RawManifest json_Marshal_ConfigFile json_Marshal_Manifest SHA256 w).2
  | CallConfigName => (ConfigName json_Marshal_ConfigFile SHA256 w).2
  | CallConfigFile => (ConfigFile_ json_Marshal_ConfigFile SHA256 w).2
  | CallRawConfigFile => (RawConfigFile json_Marshal_ConfigFile SHA256 w).2
  | CallLayers => (Layers json_Marshal_ConfigFile SHA256 w).2
  | CallLayerByDigest h => (LayerByDigest json_Marshal_ConfigFile SHA256 h w).2
  | CallLayerByDiffID h => (LayerByDiffID json_Marshal_ConfigFile SHA256 h w).2
  end.

Definition after_calls (cs : list call) (w : world) : world :=
  foldl (λ w c, after_call c w) w cs.

End Calls.

(** [w'] is [w] with the same base and with every object of the two heaps
    still in its place and unchanged; new objects may have been allocated
    after them. *)
Definition frame (w w' : world) : Prop :=
  base (img w') = base (img w) ∧
  configs w `prefix_of` configs w' ∧
  manifests w `prefix_of` manifests w'.

Definition framed {A} (c : M world A) : Prop := ∀ w, frame w (c w).2.

(** *** Concrete inputs *)

Definition sha (hex : string) : Hash := mkHash "sha256" hex.

Definition tar_layer (name digest diffID : string) : Layer :=
  mkLayer name (Ok (sha digest)) (Ok (sha diffID)) (Ok 4%Z)
    (Ok "application/vnd.oci.image.layer.v1.tar+gzip") (Ok []).

Definition layerA : Layer := tar_layer "A" "a-gz" "a".
Definition layerB : Layer := tar_layer "B" "b-gz" "b".
Definition layerN : Layer := tar_layer "N" "n-gz" "n".
(** [layerB'] is the content of [layerB] compressed differently: the same
    diff-ID under another digest. *)
Definition layerB' : Layer := tar_layer "B'" "b-zst" "b".

Definition config0 : ConfigFile :=
  mkConfigFile [sha "a"; sha "b"] [mkHistory "ADD a" "base"; mkHistory "ADD b" "app"] "amd64".

Definition manifest0 : Manifest :=
  mkManifest 2 OCIManifestSchema1
    (mkDescriptor "application/vnd.oci.image.config.v1+json" 9 (sha "cfg") None)
    [mkDescriptor "application/vnd.oci.image.layer.v1.tar+gzip" 4 (sha "a-gz") None;
     mkDescriptor "application/vnd.oci.image.layer.v1.tar+gzip" 4 (sha "b-gz") None].

Definition base0 : Image :=
  mkImage (Ok OCIManifestSchema1) (Ok (Some 0)) (Ok (Some 0)) (Ok [layerA; layerB]).

(** A base whose [Layers] fails. *)
Definition base_broken : Image :=
  mkImage (Ok OCIManifestSchema1) (Ok (Some 0)) (Ok (Some 0))
    (Err (errExternal "layers unavailable")).

Definition lazy_image (b : Image) (os : list (option Layer)) : image :=
  mkimage b os None false [] ∅ ∅ None None.

Definition world_of (i : image) : world := mkworld i [config0] [manifest0].

Definition w_short : world := world_of (lazy_image base0 [Some layerN]).
Definition w_sub : world := world_of (lazy_image base0 [Some layerN; None]).
Definition w_clash : world := world_of (lazy_image base0 [Some layerB'; None]).
Definition w_broken : world := world_of (lazy_image base_broken [None; None]).

Definition toy_marshal_config (c : ConfigFile) : result bytes :=
  Ok (mjoin ((λ h, String.list_byte_of_string (Hex h)) <$> c_RootFS_DiffIDs c)).
Definition toy_marshal_manifest (m : Manifest) : result bytes :=
  Ok (mjoin ((λ d, String.list_byte_of_string (Hex (d_Digest d))) <$> m_Layers m)).
Definition toy_SHA256 (b : bytes) : result (Hash * Z) :=
  Ok (sha (String.string_of_list_byte b), Z.of_nat (length b)).

End Mutate.

(** ** [pkg/sif/update.go] *)

Module Sif.

(** [sif.DataType]: the two kinds of data object [update.go] selects, and
    all the others. *)
Inductive DataType : Type := DataOCIRootIndex | DataOCIBlob | DataOther.

#[global] Instance DataType_eq_dec : EqDecision DataType.
Proof. solve_decision. Defined.

(** A data object of the SIF with its descriptor.  [o_OCIBlobDigest] is what
    [d.OCIBlobDigest()] returns: the digest recorded in the descriptor when
    the object was written, or an error. *)
Record object : Type := mkobject {
  o_ID : nat;
  o_DataType : DataType;
  o_OCIBlobDigest : result Hash;
  o_Data : bytes
}.

(** A [v1.Image] of the target index, as the results of the methods
    [cacheImageBlobs] and [cacheIndexBlobs] call. *)
Record Image : Type := mkImage {
  im_Layers : result (list Layer);
  im_Manifest : result Manifest;
  im_RawConfigFile : result bytes;
  im_RawManifest : result bytes
}.

(** A [v1.ImageIndex]: a tree, whose children are reached by digest.
    [ix_Blob] is the content the index holds under a digest that is neither
    an index nor an image. *)
#[warnings="-register-all"]
Inductive ImageIndex : Type := mkImageIndex {
  ix_Digest : result Hash;
  ix_IndexManifest : result (list Descriptor);
  ix_RawManifest : result bytes;
  ix_ImageIndex : Hash → result ImageIndex;
  ix_Image : Hash → result Image;
  ix_Blob : Hash → result bytes
}.

(** The three arms of the switch on [desc.MediaType]. *)
Inductive kind : Type := KIndex | KImage | KOther.

Definition classify (mt : MediaType) : kind :=
  if bool_decide (mt = DockerManifestList ∨ mt = OCIImageIndex) then KIndex
  else if bool_decide (mt = DockerManifestSchema2 ∨ mt = OCIManifestSchema1)
  then KImage
  else KOther.

(** Every operation on the file system or on the SIF that can fail for a
    reason outside the program is recorded, when attempted, as an event. *)
Inductive event : Type :=
| EvMkdirTemp (dir : string)
| EvWriteCache (d : Hash)
| EvDeleteBlob (id : nat)
| EvDeleteRootIndex (id : nat)
| EvReadCache (d : Hash)
| EvAddObject (t : DataType) (data : bytes)
| EvCloseCache (d : Hash)
| EvRemoveAll.

(** The world of [Update]: the data objects of the SIF, the staging
    directory ([None] while it does not exist; one file per digest), and the
    operations attempted so far. *)
Record world : Type := mkworld {
  store : list object;
  cache : option (gmap Hash bytes);
  trace : list event
}.

Definition set_store (s : list object) (w : world) : world :=
  mkworld s (cache w) (trace w).
Definition set_cache (c : option (gmap Hash bytes)) (w : world) : world :=
  mkworld (store w) c (trace w).

Definition ErrObjectNotFound : error := errExternal "object not found".
Definition ErrMultipleObjectsFound : error := errExternal "multiple objects found".
Definition ErrNotExist : error := errExternal "no such file or directory".

(** [fi.GetDescriptors(sif.WithDataType(t))]. *)
Definition GetDescriptors (t : DataType) (fi : list object) : list object :=
  filter (λ o, o_DataType o = t) fi.

(** [fi.GetDescriptor(sif.WithDataType(t))]: exactly one match, or an error. *)
Definition GetDescriptor (t : DataType) (fi : list object) : result object :=
  match GetDescriptors t fi with
  | [o] => Ok o
  | [] => Err ErrObjectNotFound
  | _ => Err ErrMultipleObjectsFound
  end.

(** A new object takes an identifier no object of the SIF has. *)
Definition fresh_ID (fi : list object) : nat := S (foldr max 0 (o_ID <$> fi)).

(** [updateOpts] and [UpdateOpt]; an option returns the updated struct or
    an error. *)
Record updateOpts : Type := mkupdateOpts { tempDir : string }.

Definition UpdateOpt : Type := updateOpts → result updateOpts.

Definition OptTarTempDir (d : string) : UpdateOpt := λ c, Ok (mkupdateOpts d).

Fixpoint apply_opts (opts : list UpdateOpt) (uo : updateOpts) : result updateOpts :=
  match opts with
  | [] => Ok uo
  | opt :: opts' => (uo' <=- opt uo ;; apply_opts opts' uo')%go
  end.

(** The order in which [Update] goes through its operations. *)
Definition phase (e : event) : nat :=
  match e with
  | EvMkdirTemp _ | EvWriteCache _ => 0
  | EvDeleteBlob _ => 1
  | EvDeleteRootIndex _ => 2
  | EvReadCache _ | EvCloseCache _ => 3
  | EvAddObject DataOCIRootIndex _ => 4
  | EvAddObject _ _ => 3
  | EvRemoveAll => 5
  end.

Section WithEnvironment.

(** [H] is the SHA-256 digest of a byte sequence.  [fault] decides, from
    the operations attempted so far (the last one being the current one),
    whether the current one fails and with which error. *)
Variable H : bytes → Hash.
Variable fault : list event → option error.

(** An operation is attempted: it is recorded, and the environment says
    whether it fails.  A failed operation leaves the SIF and the staging
    directory as they were. *)
Definition attempt (ev : event) : M world unit := λ w,
  let w1 := mkworld (store w) (cache w) (trace w ++ [ev]) in
  match fault (trace w1) with
  | Some e => (Err e, w1)
  | None => (Ok (), w1)
  end.

(** [fi.DeleteObject(id)]: the object is looked up by identifier, which must
    select exactly one, and removed. *)
Definition DeleteObject (ev : event) (id : nat) : M world unit := λ w,
  match filter (λ o, o_ID o = id) (store w) with
  | [_] =>
      (attempt ev ;;;
       λ w, (Ok (), set_store (filter (λ o, o_ID o ≠ id) (store w)) w))%go w
  | [] => (Err ErrObjectNotFound, w)
  | _ => (Err ErrMultipleObjectsFound, w)
  end.

(** Modelled from the spec: [ImageIndexFromFileImage], which is not among
    the sources.  It yields the store's current root index, whose digest is
    the digest of the bytes of the root-index object. *)
Definition ImageIndexFromFileImage : M world bytes := λ w,
  ((d <=- GetDescriptor DataOCIRootIndex (store w) ;; Ok (o_Data d))%go, w).

Definition rootIndex_Digest (rawManifest : bytes) : result Hash :=
  Ok (H rawManifest).

(** Modelled from the spec: [writeBlobToFileImage], which is not among the
    sources.  It creates a new object from a byte stream, a content blob or,
    when [root] is set, the root index; the digest recorded in its
    descriptor is the digest of the bytes. *)
Definition writeBlobToFileImage (r : bytes) (root : bool) : M world unit :=
  let t := if root then DataOCIRootIndex else DataOCIBlob in
  (attempt (EvAddObject t r) ;;;
   λ w, (Ok (),
         set_store (store w ++ [mkobject (fresh_ID (store w)) t (Ok (H r)) r]) w))%go.

Fixpoint blobDigests (descrs : list object) : result (list Hash) :=
  match descrs with
  | [] => Ok []
  | d :: descrs' =>
      (dDigest <=- o_OCIBlobDigest d ;;
       rest <=- blobDigests descrs' ;;
       Ok (dDigest :: rest))%go
  end.

Definition sifBlobs : M world (list Hash) := λ w,
  (blobDigests (GetDescriptors DataOCIBlob (store w)), w).

(** [os.MkdirTemp] in [dir], with an empty name pattern. *)
Definition MkdirTemp (dir : string) : M world unit :=
  (attempt (EvMkdirTemp dir) ;;; λ w, (Ok (), set_cache (Some ∅) w))%go.

(** [os.RemoveAll(blobCache)], deferred: its result is dropped. *)
Definition RemoveAll (w : world) : world :=
  mkworld (store w) None (trace w ++ [EvRemoveAll]).

Definition defer {A} (cleanup : world → world) (c : M world A) : M world A :=
  λ w, let (r, w') := c w in (r, cleanup w').

Definition writeCacheBlob (rc : bytes) (digest : Hash) : M world unit :=
  (attempt (EvWriteCache digest) ;;;
   λ w, match cache w with
        | Some files => (Ok (), set_cache (Some (<[digest := rc]> files)) w)
        | None => (Err ErrNotExist, w)
        end)%go.

Definition readCacheBlob (digest : Hash) : M world bytes :=
  (attempt (EvReadCache digest) ;;;
   λ w, match cache w with
        | Some files => match files !! digest with
                        | Some rc => (Ok rc, w)
                        | None => (Err ErrNotExist, w)
                        end
        | None => (Err ErrNotExist, w)
        end)%go.

(** The loop of [cacheImageBlobs] over the layers. *)
Fixpoint cacheLayers (layers : list Layer) (skipDigests : list Hash)
    (cached skipped : list Hash) : M world (list Hash * list Hash) :=
  match layers with
  | [] => ret (cached, skipped)
  | l :: layers' =>
      (ld <- lift (l_Digest l) ;;
       if bool_decide (ld ∈ skipDigests)
       then cacheLayers layers' skipDigests cached (skipped ++ [ld])
       else
         rc <- lift (l_Compressed l) ;;
         writeCacheBlob rc ld ;;;
         cacheLayers layers' skipDigests (cached ++ [ld]) skipped)%go
  end.

Definition cacheImageBlobs (im : Image) (skipDigests : list Hash)
  : M world (list Hash * list Hash) :=
  (layers <- lift (im_Layers im) ;;
   cs <- cacheLayers layers skipDigests [] [] ;;
   mf <- lift (im_Manifest im) ;;
   if bool_decide (d_Digest (m_Config mf) ∈ skipDigests)
   then ret (cs.1, cs.2 ++ [d_Digest (m_Config mf)])
   else
     c <- lift (im_RawConfigFile im) ;;
     writeCacheBlob c (d_Digest (m_Config mf)) ;;;
     ret (cs.1 ++ [d_Digest (m_Config mf)], cs.2))%go.

(** Modelled from the spec: [blobFromIndex], which is not among the
    sources.  It gives the content of any other kind that an index holds
    under a digest, to be staged directly. *)
Definition blobFromIndex (ii : ImageIndex) (digest : Hash) : result bytes :=
  ix_Blob ii digest.

(** The loop [for _, desc := range index.Manifests] of [cacheIndexBlobs],
    with the two lists built so far.  [cacheChild] is [cacheIndexBlobs]
    itself, called on a child index; the three functions are the methods of
    the index being walked. *)
Section IndexLoop.

Variable cacheChild : ImageIndex → M world (list Hash * list Hash).
Variable childIndexOf : Hash → result ImageIndex.
Variable childImageOf : Hash → result Image.
Variable blobOf : Hash → result bytes.
Variable skipDigests : list Hash.

Fixpoint cacheIndex_loop (descs : list Descriptor) (cached skipped : list Hash)
  : M world (list Hash * list Hash) :=
  match descs with
  | [] => ret (cached, skipped)
  | desc :: descs' =>
      match classify (d_MediaType desc) with
      | KIndex =>
          (childIndex <- lift (childIndexOf (d_Digest desc)) ;;
           cs <- cacheChild childIndex ;;
           if bool_decide (d_Digest desc ∈ skipDigests)
           then cacheIndex_loop descs' (cached ++ cs.1)
                  ((skipped ++ cs.2) ++ [d_Digest desc])
           else
             rm <- lift (ix_RawManifest childIndex) ;;
             writeCacheBlob rm (d_Digest desc) ;;;
             cacheIndex_loop descs' ((cached ++ cs.1) ++ [d_Digest desc])
               (skipped ++ cs.2))%go
      | KImage =>
          (childImage <- lift (childImageOf (d_Digest desc)) ;;
           cs <- cacheImageBlobs childImage skipDigests ;;
           if bool_decide (d_Digest desc ∈ skipDigests)
           then cacheIndex_loop descs' (cached ++ cs.1)
                  ((skipped ++ cs.2) ++ [d_Digest desc])
           else
             rm <- lift (im_RawManifest childImage) ;;
             writeCacheBlob rm (d_Digest desc) ;;;
             cacheIndex_loop descs' ((cached ++ cs.1) ++ [d_Digest desc])
               (skipped ++ cs.2))%go
      | KOther =>
          if bool_decide (d_Digest desc ∈ skipDigests)
          then cacheIndex_loop descs' cached (skipped ++ [d_Digest desc])
          else
            (rc <- lift (blobOf (d_Digest desc)) ;;
             writeCacheBlob rc (d_Digest desc) ;;;
             cacheIndex_loop descs' (cached ++ [d_Digest desc]) skipped)%go
      end
  end.

End IndexLoop.

Fixpoint cacheIndexBlobs (ii : ImageIndex) (skipDigests : list Hash)
  : M world (list Hash * list Hash) :=
  match ii with
  | mkImageIndex _ indexManifest _ childIndexOf childImageOf _ =>
      (index <- lift indexManifest ;;
       cacheIndex_loop (λ childIndex, cacheIndexBlobs childIndex skipDigests)
         childIndexOf childImageOf (blobFromIndex ii) skipDigests index [] [])%go
  end.

(** The loop of [deleteBlobsExcept] over the descriptors it has listed. *)
Fixpoint deleteBlobs_loop (descs : list object) (keepDigests : list Hash)
  : M world unit :=
  match descs with
  | [] => ret ()
  | d :: descs' =>
      (dd <- lift (o_OCIBlobDigest d) ;;
       if bool_decide (dd ∈ keepDigests)
       then deleteBlobs_loop descs' keepDigests
       else
         DeleteObject (EvDeleteBlob (o_ID d)) (o_ID d) ;;;
         deleteBlobs_loop descs' keepDigests)%go
  end.

Definition deleteBlobsExcept (keepDigests : list Hash) : M world unit := λ w,
  deleteBlobs_loop (GetDescriptors DataOCIBlob (store w)) keepDigests w.

Definition deleteRootIndex : M world unit :=
  (desc <- (λ w, (GetDescriptor DataOCIRootIndex (store w), w)) ;;
   DeleteObject (EvDeleteRootIndex (o_ID desc)) (o_ID desc))%go.

(** The loop of [Update] over [cachedBlobs]. *)
Fixpoint writeCached (cachedBlobs : list Hash) : M world unit :=
  match cachedBlobs with
  | [] => ret ()
  | b :: cachedBlobs' =>
      (rc <- readCacheBlob b ;;
       writeBlobToFileImage rc false ;;;
       attempt (EvCloseCache b) ;;;
       writeCached cachedBlobs')%go
  end.

(** Lines 83-92 of [Update]: what is staged and computed before the SIF is
    touched. *)
Definition Update_stage (ii : ImageIndex) (sifBlobs : list Hash)
  : M world (list Hash * list Hash * bytes) :=
  (cs <- cacheIndexBlobs ii sifBlobs ;;
   ri <- lift (ix_RawManifest ii) ;;
   ret (cs, ri))%go.

(** Lines 94-119 of [Update]: deletions, then additions, then the new root
    index. *)
Definition Update_commit (cachedBlobs keepBlobs : list Hash) (ri : bytes)
  : M world unit :=
  (deleteBlobsExcept keepBlobs ;;;
   deleteRootIndex ;;;
   writeCached cachedBlobs ;;;
   writeBlobToFileImage ri true)%go.

Definition Update (ii : ImageIndex) (opts : list UpdateOpt) : M world unit :=
  (uo <- lift (apply_opts opts (mkupdateOpts EmptyString)) ;;
   sifRootIndex <- ImageIndexFromFileImage ;;
   sifRootDigest <- lift (rootIndex_Digest sifRootIndex) ;;
   newRootDigest <- lift (ix_Digest ii) ;;
   if bool_decide (sifRootDigest = newRootDigest) then ret ()
   else
     sifBlobs <- sifBlobs ;;
     MkdirTemp (tempDir uo) ;;;
     defer RemoveAll
       (p <- Update_stage ii sifBlobs ;;
        Update_commit p.1.1 p.1.2 p.2))%go.

(** Lines 45-92 of [Update] on their own: everything the call does before
    it deletes anything.  [None] is the return at line 66. *)
Definition Update_prepare (ii : ImageIndex) (opts : list UpdateOpt)
  : M world (option (list Hash * list Hash * bytes)) :=
  (uo <- lift (apply_opts opts (mkupdateOpts EmptyString)) ;;
   sifRootIndex <- ImageIndexFromFileImage ;;
   sifRootDigest <- lift (rootIndex_Digest sifRootIndex) ;;
   newRootDigest <- lift (ix_Digest ii) ;;
   if bool_decide (sifRootDigest = newRootDigest) then ret None
   else
     sifBlobs <- sifBlobs ;;
     MkdirTemp (tempDir uo) ;;;
     p <- Update_stage ii sifBlobs ;;
     ret (Some p))%go.

End WithEnvironment.

(** *** The digests a target index refers to *)

(** The digests of an image, in the order [cacheImageBlobs] meets them:
    layers, then config. *)
Definition layer_refs (layers : list Layer) : list Hash :=
  omap (λ l, match l_Digest l with Ok d => Some d | _ => None end) layers.

Definition image_refs (im : Image) : list Hash :=
  match im_Layers im with Ok layers => layer_refs layers | _ => [] end ++
  match im_Manifest im with Ok mf => [d_Digest (m_Config mf)] | _ => [] end.

(** The digests one descriptor of an index leads to, its own last.
    [refsChild] is [refs] itself, on a child index. *)
Definition desc_refs (refsChild : ImageIndex → list Hash)
    (childIndexOf : Hash → result ImageIndex)
    (childImageOf : Hash → result Image) (desc : Descriptor) : list Hash :=
  match classify (d_MediaType desc) with
  | KIndex =>
      match childIndexOf (d_Digest desc) with
      | Ok childIndex => refsChild childIndex
      | _ => []
      end ++ [d_Digest desc]
  | KImage =>
      match childImageOf (d_Digest desc) with
      | Ok childImage => image_refs childImage
      | _ => []
      end ++ [d_Digest desc]
  | KOther => [d_Digest desc]
  end.

(** Every digest reachable from an index, children before parents, with
    repetitions: nested indices, image manifests, configs, layers, and
    content of any other kind. *)
Fixpoint refs (ii : ImageIndex) : list Hash :=
  match ii with
  | mkImageIndex _ indexManifest _ childIndexOf childImageOf _ =>
      match indexManifest with
      | Ok index => mjoin (desc_refs refs childIndexOf childImageOf <$> index)
      | _ => []
      end
  end.

Section Addressed.

Variable H : bytes → Hash.

(** A content-addressed image: the bytes of each layer and of the config
    have the digest under which they are referred to. *)
Definition image_addressed (im : Image) : Prop :=
  match im_Layers im with
  | Ok layers =>
      Forall (λ l, match l_Digest l, l_Compressed l with
                   | Ok d, Ok c => H c = d
                   | _, _ => True
                   end) layers
  | _ => True
  end ∧
  match im_Manifest im, im_RawConfigFile im with
  | Ok mf, Ok c => H c = d_Digest (m_Config mf)
  | _, _ => True
  end.

(** The same for one descriptor of an index and what is under it. *)
Definition desc_addressed (addressedChild : ImageIndex → Prop)
    (childIndexOf : Hash → result ImageIndex)
    (childImageOf : Hash → result Image) (blobOf : Hash → result bytes)
    (desc : Descriptor) : Prop :=
  match classify (d_MediaType desc) with
  | KIndex =>
      match childIndexOf (d_Digest desc) with
      | Ok childIndex =>
          addressedChild childIndex ∧
          match ix_RawManifest childIndex with
          | Ok rm => H rm = d_Digest desc
          | _ => True
          end
      | _ => True
      end
  | KImage =>
      match childImageOf (d_Digest desc) with
      | Ok childImage =>
          image_addressed childImage ∧
          match im_RawManifest childImage with
          | Ok rm => H rm = d_Digest desc
          | _ => True
          end
      | _ => True
      end
  | KOther =>
      match blobOf (d_Digest desc) with
      | Ok rc => H rc = d_Digest desc
      | _ => True
      end
  end.

(** A content-addressed index: every descriptor at every depth is. *)
Fixpoint addressed (ii : ImageIndex) : Prop :=
  match ii with
  | mkImageIndex _ indexManifest _ childIndexOf childImageOf blobOf =>
      match indexManifest with
      | Ok index =>
          Forall (desc_addressed addressed childIndexOf childImageOf blobOf)
            index
      | _ => True
      end
  end.

End Addressed.

(** The digests of the content blobs of a SIF, and the bytes of its
    root-index objects. *)
Definition blob_digests (fi : list object) : list Hash :=
  omap (λ o, match o_OCIBlobDigest o with Ok d => Some d | _ => None end)
    (GetDescriptors DataOCIBlob fi).

Definition root_indexes (fi : list object) : list bytes :=
  o_Data <$> GetDescriptors DataOCIRootIndex fi.

(** The operations of a call are in order when none comes before an
    operation of an earlier phase. *)
Definition in_order (evs : list event) : Prop :=
  ∀ i j a b, i < j → evs !! i = Some a → evs !! j = Some b → phase a ≤ phase b.

(** The operations of a call that gets as far as writing the new root
    index: staging [cached], deleting the blobs [dels] and the root index
    [rid], adding every staged blob, writing [ri], removing the staging
    directory. *)
Definition commit_sequence (dir : string) (cached : list Hash)
    (content : Hash → bytes) (dels : list nat) (rid : nat) (ri : bytes)
  : list event :=
  EvMkdirTemp dir :: (EvWriteCache <$> cached) ++
  (EvDeleteBlob <$> dels) ++ [EvDeleteRootIndex rid] ++
  mjoin ((λ d, [EvReadCache d; EvAddObject DataOCIBlob (content d);
                EvCloseCache d]) <$> cached) ++
  [EvAddObject DataOCIRootIndex ri; EvRemoveAll].

(** The digest of the root index of a SIF, as [Update] computes it. *)
Definition root_digest (H : bytes → Hash) (fi : list object) : result Hash :=
  (d <=- GetDescriptor DataOCIRootIndex fi ;; Ok (H (o_Data d)))%go.

(** No root-index object of [w'] is new. *)
Definition no_new_root (w w' : world) : Prop :=
  ∀ o, o ∈ store w' → o_DataType o = DataOCIRootIndex → o ∈ store w.

(** An action confined to the phases [lo..hi]: the operations it attempts
    are of these phases and in order; before phase 1 the SIF is not
    touched, and before phase 4 it gets no new root index. *)
Definition phased (lo hi : nat) {A} (c : M world A) : Prop :=
  ∀ w r w', c w = (r, w') →
    (∃ evs, trace w' = trace w ++ evs ∧ in_order evs ∧
            Forall (λ e, lo ≤ phase e ≤ hi) evs) ∧
    (hi < 1 → store w' = store w) ∧
    (hi < 4 → no_new_root w w').

(** The operations that add the staged blobs [cached], given the files of
    the staging directory. *)
Definition add_events (files : gmap Hash bytes) (cached : list Hash) : list event :=
  mjoin ((λ d, [EvReadCache d;
                EvAddObject DataOCIBlob (default ([] : bytes) (files !! d));
                EvCloseCache d]) <$> cached).

Section Staged.

Variable H : bytes → Hash.
Variable skip : list Hash.
(** [G] stands for whatever makes the content met hash to its digest. *)
Variable G : Prop.

(** Every staged file has the digest it is named after. *)
Definition cache_ok (files : gmap Hash bytes) : Prop :=
  ∀ d c, files !! d = Some c → H c = d.

(** From [w] to [w'] the digests [rs] have been gone through: those not in
    [skip] staged, one write each, in that order. *)
Definition staged (rs : list Hash) (w w' : world) : Prop :=
  trace w' = trace w ++ (EvWriteCache <$> filter (.∉ skip) rs) ∧
  ∃ files files', cache w = Some files ∧ cache w' = Some files' ∧
    (∀ d, d ∉ filter (.∉ skip) rs → files' !! d = files !! d) ∧
    (∀ d, d ∈ filter (.∉ skip) rs → is_Some (files' !! d)) ∧
    (G → cache_ok files → cache_ok files').

(** The same, with the two lists returned: [c0] and [s0] extended by the
    digests of [rs] outside and inside [skip]. *)
Definition cached_as (rs c0 s0 : list Hash) (cs : list Hash * list Hash)
    (w w' : world) : Prop :=
  cs.1 = c0 ++ filter (.∉ skip) rs ∧ cs.2 = s0 ++ filter (.∈ skip) rs ∧
  staged rs w w'.

End Staged.

(** *** Concrete inputs *)

Definition data (s : string) : bytes := String.list_byte_of_string s.

(** A stand-in for SHA-256 that can be computed with: the bytes themselves,
    read as the hexadecimal part. *)
Definition toy_H (b : bytes) : Hash := mkHash "sha256" (String.string_of_list_byte b).

Definition digest_of (s : string) : Hash := toy_H (data s).

Definition no_fault : list event → option error := λ _, None.

(** The [n]-th operation of a call fails. *)
Definition fault_at (n : nat) : list event → option error :=
  λ evs, if bool_decide (length evs = n) then Some (errExternal "i/o error")
         else None.

Definition blob (id : nat) (s : string) : object :=
  mkobject id DataOCIBlob (Ok (digest_of s)) (data s).
Definition rootIndex (id : nat) (s : string) : object :=
  mkobject id DataOCIRootIndex (Ok (digest_of s)) (data s).

Definition descriptor (mt : MediaType) (s : string) : Descriptor :=
  mkDescriptor mt (Z.of_nat (length (data s))) (digest_of s) None.

(** Children by digest: the digest of the name leads to the value. *)
Fixpoint children {A} (kvs : list (string * A)) (d : Hash) : result A :=
  match kvs with
  | [] => Err ErrNotExist
  | (k, v) :: kvs' =>
      if bool_decide (d = digest_of k) then Ok v else children kvs' d
  end.

Definition octets : MediaType := "application/octet-stream".

(** The design document's example: a SIF holding [A], [B], [C] under the
    root [R1], and a target [R2] whose one entry is a nested index [E] with
    the entries [B] and [D]. *)
Definition store0 : list object :=
  [rootIndex 1 "R1"; blob 2 "A"; blob 3 "B"; blob 4 "C"].

Definition world0 : world := mkworld store0 None [].

Definition indexE : ImageIndex :=
  mkImageIndex (Ok (digest_of "E"))
    (Ok [descriptor octets "B"; descriptor octets "D"]) (Ok (data "E"))
    (children []) (children [])
    (children [("B", data "B"); ("D", data "D")]).

Definition indexR2 : ImageIndex :=
  mkImageIndex (Ok (digest_of "R2"))
    (Ok [descriptor OCIImageIndex "E"]) (Ok (data "R2"))
    (children [("E", indexE)]) (children []) (children []).

(** A SIF whose root index is [R2] already, but whose only blob is [A]. *)
Definition world_stale : world :=
  mkworld [rootIndex 1 "R2"; blob 2 "A"] None [].

(** Two images that share the layer [L]. *)
Definition layerL : Layer :=
  mkLayer "L" (Ok (digest_of "L")) (Ok (digest_of "l")) (Ok 1%Z)
    (Ok "application/vnd.oci.image.layer.v1.tar+gzip") (Ok (data "L")).

Definition image_with (config manifest : string) : Image :=
  mkImage (Ok [layerL])
    (Ok (mkManifest 2 OCIManifestSchema1
           (descriptor "application/vnd.oci.image.config.v1+json" config)
           [descriptor "application/vnd.oci.image.layer.v1.tar+gzip" "L"]))
    (Ok (data config)) (Ok (data manifest)).

Definition indexR3 : ImageIndex :=
  mkImageIndex (Ok (digest_of "R3"))
    (Ok [descriptor OCIManifestSchema1 "I1"; descriptor OCIManifestSchema1 "I2"])
    (Ok (data "R3"))
    (children [])
    (children [("I1", image_with "C1" "I1"); ("I2", image_with "C2" "I2")])
    (children []).

(** The example SIF once [Update] has brought it to [R2], and a world with
    an empty staging directory. *)
Definition world_synced : world := (Update toy_H no_fault indexR2 [] world0).2.
Definition world_staging : world := mkworld [] (Some ∅) [].

End Sif.

(** * Proofs *)

(** ** Sequencing *)

Lemma bind_Ok {S A B} (c : M S A) (k : A → M S B) s a s' :
  c s = (Ok a, s') → bind c k s = k a s'.
Proof. unfold bind. by intros ->. Qed.

(** Inversion of a successful sequencing. *)
Lemma bind_Ok_inv {S A B} (c : M S A) (k : A → M S B) s b s2 :
  bind c k s = (Ok b, s2) → ∃ a s1, c s = (Ok a, s1) ∧ k a s1 = (Ok b, s2).
Proof.
  unfold bind. destruct (c s) as [[a|e|] s1]; intros E; try discriminate.
  by exists a, s1.
Qed.

Lemma lift_Ok_inv {S A} (r : result A) (s s' : S) a :
  lift r s = (Ok a, s') → r = Ok a ∧ s' = s.
Proof. unfold lift. by intros [= -> ->]. Qed.

Lemma ret_Ok_inv {S A} (x a : A) (s s' : S) :
  ret x s = (Ok a, s') → a = x ∧ s' = s.
Proof. unfold ret. by intros [= -> ->]. Qed.

(** ** Lists *)

Lemma snoc_lookup {A} (l : list A) x : (l ++ [x]) !! length l = Some x.
Proof. by apply list_lookup_middle. Qed.

Lemma snoc_insert {A} (l : list A) x y : <[length l := y]> (l ++ [x]) = l ++ [y].
Proof. rewrite insert_app_r_alt by lia. by rewrite Nat.sub_diag. Qed.

Lemma Forall2_functional {A B} (P : A → B → Prop) l k1 k2 :
  (∀ x y1 y2, P x y1 → P x y2 → y1 = y2) →
  Forall2 P l k1 → Forall2 P l k2 → k1 = k2.
Proof.
  intros HP F1. revert k2. induction F1; intros k2 F2; inversion F2; subst; [done|].
  f_equal; eauto.
Qed.

Lemma filter_none {A} (P : A → Prop) `{∀ x, Decision (P x)} (l : list A) :
  Forall (λ x, ¬ P x) l → filter P l = [].
Proof.
  induction 1 as [|x l Hx _ IH]; [done|]. by rewrite filter_cons_False.
Qed.

(** The one element a predicate selects. *)
Lemma filter_singleton_unique {A} (P : A → Prop) `{∀ x, Decision (P x)}
    (l : list A) x y :
  filter P l = [x] → y ∈ l → P y → y = x.
Proof.
  intros Hf Hy HP. assert (y ∈ filter P l) as Hin by by apply list_elem_of_filter.
  rewrite Hf in Hin. by apply list_elem_of_singleton in Hin.
Qed.

(** Case analysis on the first test a term makes, outermost first. *)
Ltac destruct_head_match :=
  match goal with
  | |- context [match ?x with _ => _ end] =>
      lazymatch x with
      | context [match _ with _ => _ end] => fail
      | _ => destruct x eqn:?
      end
  end.

Ltac elem_cases :=
  repeat match goal with
         | H : _ ∈ _ :: _ |- _ => apply elem_of_cons in H as [H|H]; [simplify_eq|]
         | H : _ ∈ [] |- _ => by apply elem_of_nil in H
         end.

(** ** The lazy image *)

Module MutateProofs.
Import Mutate.

Section Proofs.
Variable jc : ConfigFile → result bytes.
Variable jm : Manifest → result bytes.
Variable sha : bytes → result (Hash * Z).

Ltac unfold_pass :=
  unfold populate_pass, bind, lift, ret, update_manifest, update_config,
    load_manifest, load_config, ConfigFile_DeepCopy, Manifest_DeepCopy, bind,
    set_configs, set_manifests, set_img.

Lemma populate_pass_Ok w lc c lm m ls a config ds :
  Image_ConfigFile (base (img w)) = Ok (Some lc) → configs w !! lc = Some c →
  Image_Manifest (base (img w)) = Ok (Some lm) → manifests w !! lm = Some m →
  Image_Layers (base (img w)) = Ok ls →
  populate_loop ls 0 (overrides (img w)) acc_empty = Ok a →
  jc (new_config (img w) a c) = Ok config →
  sha config = Ok ds →
  populate_pass jc sha w =
    (Ok (), mkworld
           (mkimage (base (img w)) (overrides (img w)) (history (img w)) true
              (a_diffIDs a) (a_byDiffID a) (a_byDigest a)
              (Some (length (manifests w))) (Some (length (configs w))))
           (configs w ++ [new_config (img w) a c])
           (manifests w ++ [new_manifest a config ds m])).
Proof.
  intros H1 H2 H3 H4 H5 H6 H7 H8. unfold new_config in H7.
  unfold_pass. rewrite H1. simpl. rewrite H2, H3. simpl. rewrite H4, H5. simpl.
  rewrite H6. simpl. rewrite !snoc_lookup. simpl. rewrite !snoc_insert.
  unfold new_config, new_manifest.
  repeat (simpl; rewrite ?snoc_lookup, ?snoc_insert).
  destruct (history (img w)), (d_Data (m_Config m)) eqn:Edata;
    repeat (simpl; rewrite ?snoc_lookup, ?snoc_insert);
    rewrite H7; simpl; rewrite H8;
    repeat (simpl; rewrite ?snoc_lookup, ?snoc_insert, ?Edata); done.
Qed.

(** Walk through a pass: simplify, and split on each test in turn. *)
Ltac walk :=
  repeat first
    [ progress (rewrite ?snoc_lookup, ?snoc_insert)
    | progress simpl
    | destruct_head_match ].

Lemma populate_pass_frame w :
  base (img (populate_pass jc sha w).2) = base (img w) ∧
  configs w `prefix_of` configs (populate_pass jc sha w).2 ∧
  manifests w `prefix_of` manifests (populate_pass jc sha w).2 ∧
  ((populate_pass jc sha w).1 ≠ Ok () → img (populate_pass jc sha w).2 = img w).
Proof.
  unfold_pass. walk.
  all: split_and!; try done; try apply prefix_app_r; try done.
Qed.

Lemma populate_pass_Ok_inv w w' :
  populate_pass jc sha w = (Ok (), w') →
  ∃ lc c lm m ls a config ds,
    Image_ConfigFile (base (img w)) = Ok (Some lc) ∧ configs w !! lc = Some c ∧
    Image_Manifest (base (img w)) = Ok (Some lm) ∧ manifests w !! lm = Some m ∧
    Image_Layers (base (img w)) = Ok ls ∧
    populate_loop ls 0 (overrides (img w)) acc_empty = Ok a ∧
    jc (new_config (img w) a c) = Ok config ∧
    sha config = Ok ds ∧
    w' = mkworld
           (mkimage (base (img w)) (overrides (img w)) (history (img w)) true
              (a_diffIDs a) (a_byDiffID a) (a_byDigest a)
              (Some (length (manifests w))) (Some (length (configs w))))
           (configs w ++ [new_config (img w) a c])
           (manifests w ++ [new_manifest a config ds m]).
Proof.
  unfold_pass. walk; intros E; try discriminate.
  all: eexists _, _, _, _, _, _, _, _; split_and!; try done.
  all: unfold new_config, new_manifest; walk; simplify_eq/=; try done.
Qed.

Lemma populate_computed w :
  computed (img w) = true → populate jc sha w = (Ok (), w).
Proof. unfold populate. by intros ->. Qed.

Lemma populate_uncomputed w :
  computed (img w) = false → populate jc sha w = populate_pass jc sha w.
Proof. unfold populate. by intros ->. Qed.

Lemma populate_Ok_computed w w' :
  populate jc sha w = (Ok (), w') → computed (img w') = true.
Proof.
  unfold populate. destruct (computed (img w)) eqn:E.
  - by intros [= <-].
  - intros (?&?&?&?&?&?&?&?&?&?&?&?&?&?&?&?& ->)%populate_pass_Ok_inv. done.
Qed.

(** *** The loop of [populate] *)

Lemma partial_Descriptor_Digest l d :
  partial_Descriptor l = Ok d → l_Digest l = Ok (d_Digest d).
Proof.
  unfold partial_Descriptor, result_bind. intros E.
  repeat case_match; by simplify_eq/=.
Qed.

Lemma populate_step_inv ls i o a a' :
  populate_step ls i o a = Ok a' →
  ∃ l d h,
    match o with Some l' => l' = l | None => ls !! i = Some l end ∧
    partial_Descriptor l = Ok d ∧ l_DiffID l = Ok h ∧
    a' = mkacc (a_layers a ++ [d]) (a_diffIDs a ++ [h])
               (<[h := l]> (a_byDiffID a)) (<[d_Digest d := l]> (a_byDigest a)).
Proof.
  unfold populate_step, result_bind, index_layers. intros E.
  repeat case_match; simplify_eq/=; by eexists _, _, _.
Qed.

(** What a successful run of the loop has built, in terms of the layers
    [es] it has settled on, one per slot. *)
Lemma populate_loop_inv ls os : ∀ i a a',
  populate_loop ls i os a = Ok a' →
  ∃ es : list Layer,
    length es = length os ∧
    (∀ k l, es !! k = Some l →
       os !! k = Some (Some l) ∨ (os !! k = Some None ∧ ls !! (i + k) = Some l)) ∧
    (∃ ds, a_diffIDs a' = a_diffIDs a ++ ds ∧
           Forall2 (λ l d, l_DiffID l = Ok d) es ds) ∧
    (∀ h, is_Some (a_byDiffID a !! h) → is_Some (a_byDiffID a' !! h)) ∧
    (∀ h, is_Some (a_byDigest a !! h) → is_Some (a_byDigest a' !! h)) ∧
    (∀ l h, l ∈ es → l_DiffID l = Ok h → is_Some (a_byDiffID a' !! h)) ∧
    (∀ l h, l ∈ es → l_Digest l = Ok h → is_Some (a_byDigest a' !! h)) ∧
    (∀ h l, a_byDiffID a' !! h = Some l →
       a_byDiffID a !! h = Some l ∨ (l ∈ es ∧ l_DiffID l = Ok h)) ∧
    (∀ h l, a_byDigest a' !! h = Some l →
       a_byDigest a !! h = Some l ∨ (l ∈ es ∧ l_Digest l = Ok h)).
Proof.
  induction os as [|o os IH]; intros i a a' E; simpl in E.
  - simplify_eq. exists []. split_and!; try done; auto.
    + exists []. by rewrite app_nil_r.
    + intros l h Hl. by apply elem_of_nil in Hl.
    + intros l h Hl. by apply elem_of_nil in Hl.
  - unfold result_bind in E.
    destruct (populate_step ls i o a) as [a1| |] eqn:E1; try discriminate.
    apply populate_step_inv in E1 as (l & d & h & Ho & Hd & Hh & ->).
    apply IH in E as (es & Hlen & Hes & (ds & Hds & Fds)
                        & Hm1 & Hm2 & Hk1 & Hk2 & Hv1 & Hv2).
    simpl in *.
    pose proof (partial_Descriptor_Digest _ _ Hd) as Hg.
    exists (l :: es). split_and!.
    + simpl. by rewrite Hlen.
    + intros [|k] l' Hl'; simpl in *.
      * simplify_eq. rewrite Nat.add_0_r. destruct o; simplify_eq; auto.
      * apply Hes in Hl' as [?|[? ?]]; [by left|right].
        split; [done|]. by replace (i + S k) with (S i + k) by lia.
    + exists (h :: ds). split; [by rewrite Hds, <-app_assoc|]. by constructor.
    + intros h' Hh'. apply Hm1. rewrite lookup_insert. case_decide; [by eexists|done].
    + intros h' Hh'. apply Hm2. rewrite lookup_insert. case_decide; [by eexists|done].
    + intros l' h' Hl' Hh'. apply elem_of_cons in Hl' as [->|Hl']; [|by eauto].
      rewrite Hh in Hh'. injection Hh' as <-.
      apply Hm1. rewrite lookup_insert_eq. by eexists.
    + intros l' h' Hl' Hh'. apply elem_of_cons in Hl' as [->|Hl']; [|by eauto].
      rewrite Hg in Hh'. injection Hh' as <-.
      apply Hm2. rewrite lookup_insert_eq. by eexists.
    + intros h' l' Hl'. apply Hv1 in Hl' as [Hl'|[? ?]].
      * destruct (decide (h = h')) as [->|Hne].
        -- rewrite lookup_insert_eq in Hl'. simplify_eq. right. split; [left|done].
        -- rewrite lookup_insert_ne in Hl' by done. by left.
      * right. split; [by right|done].
    + intros h' l' Hl'. apply Hv2 in Hl' as [Hl'|[? ?]].
      * destruct (decide (d_Digest d = h')) as [<-|Hne].
        -- rewrite lookup_insert_eq in Hl'. simplify_eq. right. split; [left|done].
        -- rewrite lookup_insert_ne in Hl' by done. by left.
      * right. split; [by right|done].
Qed.

(** The loop succeeds when every empty slot has a base layer under it and
    every layer it meets answers. *)
Lemma populate_loop_total ls os : ∀ i a,
  (∀ k, os !! k = Some None → i + k < length ls) →
  (∀ l, l ∈ ls ∨ Some l ∈ os →
     is_Ok (partial_Descriptor l) ∧ is_Ok (l_DiffID l)) →
  ∃ a', populate_loop ls i os a = Ok a' ∧
        length (a_diffIDs a') = length (a_diffIDs a) + length os.
Proof.
  induction os as [|o os IH]; intros i a Hidx Hok; simpl.
  - exists a. split; [done|lia].
  - assert (∃ l, match o with Some l => Ok l | None => index_layers ls i end = Ok l
                 ∧ (l ∈ ls ∨ Some l ∈ o :: os)) as (l & El & Hl).
    { destruct o as [l|].
      - exists l. split; [done|]. right. left.
      - specialize (Hidx 0 eq_refl). rewrite Nat.add_0_r in Hidx.
        destruct (lookup_lt_is_Some_2 ls i Hidx) as [l Hl].
        exists l. unfold index_layers. rewrite Hl. split; [done|].
        left. by eapply list_elem_of_lookup_2. }
    destruct (Hok l Hl) as [Hd Hh].
    destruct (partial_Descriptor l) as [d| |] eqn:Ed; try done.
    destruct (l_DiffID l) as [h| |] eqn:Eh; try done.
    unfold populate_step. rewrite El. simpl. rewrite Ed. simpl. rewrite Eh. simpl.
    edestruct (IH (S i)) as (a' & -> & Hlen).
    + intros k Hk. specialize (Hidx (S k) Hk). lia.
    + intros l' [?|?]; apply Hok; [by left|by right; right].
    + eexists. split; [done|]. rewrite Hlen. simpl. rewrite length_app. simpl. lia.
Qed.

(** An empty slot with no base layer under it makes the loop panic, if the
    loop gets that far. *)
Lemma populate_loop_panic ls os : ∀ i a k,
  os !! k = Some None → length ls ≤ i + k →
  (∀ j, j < k → os !! j = Some None → i + j < length ls) →
  (∀ l, l ∈ ls ∨ Some l ∈ os →
     is_Ok (partial_Descriptor l) ∧ is_Ok (l_DiffID l)) →
  populate_loop ls i os a = Panic.
Proof.
  induction os as [|o os IH]; intros i a k Hk Hge Hbefore Hok; [done|].
  destruct k as [|k]; simpl in *.
  - simplify_eq. unfold populate_step, index_layers.
    rewrite Nat.add_0_r in Hge. by rewrite (lookup_ge_None_2 ls i Hge).
  - assert (∃ l, match o with Some l => Ok l | None => index_layers ls i end = Ok l
                 ∧ (l ∈ ls ∨ Some l ∈ o :: os)) as (l & El & Hl).
    { destruct o as [l|].
      - exists l. split; [done|]. right. left.
      - assert (i + 0 < length ls) as Hi by (apply Hbefore; [lia|done]).
        rewrite Nat.add_0_r in Hi.
        destruct (lookup_lt_is_Some_2 ls i Hi) as [l Hl].
        exists l. unfold index_layers. rewrite Hl. split; [done|].
        left. by eapply list_elem_of_lookup_2. }
    destruct (Hok l Hl) as [Hd Hh].
    destruct (partial_Descriptor l) as [d| |] eqn:Ed; try done.
    destruct (l_DiffID l) as [h| |] eqn:Eh; try done.
    unfold populate_step. rewrite El. simpl. rewrite Ed. simpl. rewrite Eh. simpl.
    apply (IH (S i) _ k); [done|lia| |].
    + intros j Hj Hoj. specialize (Hbefore (S j)). simpl in Hbefore.
      specialize (Hbefore ltac:(lia) Hoj). lia.
    + intros l' [?|?]; apply Hok; [by left|by right; right].
Qed.


(** *** The accessors once the pass has run *)

Lemma after_populate {A} (k : M world A) w w' :
  populate jc sha w = (Ok (), w') → bind (populate jc sha) (λ _, k) w = k w'.
Proof. intros E. by rewrite (bind_Ok _ _ _ _ _ E). Qed.

Lemma Layers_loop_computed w :
  computed (img w) = true → ∀ hs ls ls0,
  Forall2 (λ h l, byDiffID (img w) !! h = Some l) hs ls →
  Layers_loop jc sha hs ls0 w = (Ok (ls0 ++ ls), w).
Proof.
  intros Hc hs ls ls0 F. revert ls0.
  induction F as [|h l hs ls Hh F IH]; intros ls0; simpl.
  - unfold ret. by rewrite app_nil_r.
  - unfold LayerByDiffID.
    rewrite (bind_Ok _ _ w l w).
    + rewrite IH. by rewrite <-app_assoc.
    + rewrite (after_populate _ w w) by by apply populate_computed.
      by rewrite Hh.
Qed.

Lemma new_config_DiffIDs i a c :
  c_RootFS_DiffIDs (new_config i a c) = a_diffIDs a.
Proof. unfold new_config. by destruct (history i). Qed.



(** *** Calls leave the objects of the heap alone *)


Lemma frame_refl w : frame w w.
Proof. by split_and!. Qed.

Lemma frame_trans w1 w2 w3 : frame w1 w2 → frame w2 w3 → frame w1 w3.
Proof.
  intros (?&?&?) (?&?&?). split_and!; [congruence| |]; by etrans.
Qed.


Lemma framed_bind {A B} (c : M world A) (k : A → M world B) :
  framed c → (∀ a, framed (k a)) → framed (bind c k).
Proof.
  intros Hc Hk w. unfold bind. specialize (Hc w).
  destruct (c w) as [[a|e|] w1]; simpl in *; try done.
  eapply frame_trans; [done|]. apply Hk.
Qed.

Lemma framed_pure {A} (f : world → result A) : framed (λ w, (f w, w)).
Proof. intros w. apply frame_refl. Qed.

Lemma framed_load_manifest p : framed (load_manifest p).
Proof.
  intros w. unfold load_manifest. repeat case_match; apply frame_refl.
Qed.

Lemma framed_load_config p : framed (load_config p).
Proof.
  intros w. unfold load_config. repeat case_match; apply frame_refl.
Qed.

Lemma framed_populate : framed (populate jc sha).
Proof.
  intros w. unfold populate. destruct (computed (img w)); [apply frame_refl|].
  destruct (populate_pass_frame w) as (?&?&?&?). by split_and!.
Qed.

Create HintDb framed.
Local Hint Resolve framed_populate framed_load_manifest framed_load_config : framed.
Local Hint Extern 1 (framed (bind _ _)) => apply framed_bind; [|intros ?] : framed.
Local Hint Extern 1 (framed (lift _)) => apply (framed_pure (λ _, _)) : framed.
Local Hint Extern 1 (framed (ret _)) => apply (framed_pure (λ _, Ok _)) : framed.
Local Hint Extern 2 (framed (λ w, (_, w))) => apply framed_pure : framed.

Lemma framed_RawManifest : framed (RawManifest jc jm sha).
Proof. unfold RawManifest. auto 10 with framed. Qed.

Lemma framed_RawConfigFile : framed (RawConfigFile jc sha).
Proof. unfold RawConfigFile. auto 10 with framed. Qed.

Lemma framed_LayerByDiffID h : framed (LayerByDiffID jc sha h).
Proof.
  unfold LayerByDiffID. apply framed_bind; [auto with framed|].
  intros _ w. case_match; apply frame_refl.
Qed.

Lemma framed_LayerByDigest h : framed (LayerByDigest jc sha h).
Proof.
  unfold LayerByDigest. apply framed_bind; [auto with framed|].
  intros _ w. case_match; apply frame_refl.
Qed.

Lemma framed_Layers_loop hs : ∀ ls, framed (Layers_loop jc sha hs ls).
Proof.
  induction hs as [|h hs IH]; intros ls; simpl.
  - apply (framed_pure (λ _, Ok _)).
  - apply framed_bind; [apply framed_LayerByDiffID|]. intros l. apply IH.
Qed.

Lemma frame_after_call c w : frame w (after_call jc jm sha c w).
Proof.
  destruct c; simpl.
  - apply frame_refl.
  - apply framed_bind; [auto with framed|]. intros _.
    apply framed_bind; [apply framed_RawManifest|]. auto with framed.
  - apply framed_bind; [auto with framed|]. intros _.
    apply framed_bind; [apply framed_RawManifest|]. auto 10 with framed.
  - unfold Manifest_. apply framed_bind; [auto with framed|].
    intros _. apply framed_pure.
  - apply framed_RawManifest.
  - apply framed_bind; [auto with framed|]. intros _.
    apply framed_bind; [apply framed_RawConfigFile|]. auto 10 with framed.
  - unfold ConfigFile_. apply framed_bind; [auto with framed|].
    intros _. apply framed_pure.
  - apply framed_RawConfigFile.
  - unfold Layers. apply framed_bind; [auto with framed|]. intros _.
    apply framed_bind; [apply framed_pure|]. intros hs. apply framed_Layers_loop.
  - apply framed_LayerByDigest.
  - apply framed_LayerByDiffID.
Qed.

Lemma frame_after_calls cs : ∀ w, frame w (after_calls jc jm sha cs w).
Proof.
  induction cs as [|c cs IH]; intros w; simpl; [apply frame_refl|].
  eapply frame_trans; [apply (frame_after_call c)|apply IH].
Qed.

(** *** The claims about the lazy image *)

(** C5.  If the compute-once pass does not succeed (it returns an error or
    panics), the receiver is exactly what it was: neither the computed flag
    nor the diff-ID list, the two lookup maps, the manifest or the config
    file has been assigned.  The flag is therefore still unset, and the next
    call of [populate] runs the whole pass again. *)
Theorem populate_failure_commits_nothing w r w' :
  populate jc sha w = (r, w') → r ≠ Ok () →
  img w' = img w ∧ computed (img w') = false ∧
  populate jc sha w' = populate_pass jc sha w'.
Proof.
  unfold populate at 1. destruct (computed (img w)) eqn:Ec.
  - intros [= <- <-]. done.
  - intros E Hr. destruct (populate_pass_frame w) as (_&_&_&Himg).
    rewrite E in Himg. simpl in Himg. specialize (Himg Hr).
    split_and!; [done|congruence|].
    apply populate_uncomputed. congruence.
Qed.

(** C4.  Once the compute-once pass has succeeded, [LayerByDigest] and
    [LayerByDiffID] answer from the memoized maps: a hash that is not a key
    gives [errLayerNotFound], which is no error of a collaborator, and a
    hash that is a key gives the layer stored under it, without error. *)
Theorem layer_lookup_found_or_not_found w w' h :
  populate jc sha w = (Ok (), w') →
  (byDigest (img w') !! h = None →
     LayerByDigest jc sha h w = (Err errLayerNotFound, w')) ∧
  (∀ l, byDigest (img w') !! h = Some l →
     LayerByDigest jc sha h w = (Ok l, w')) ∧
  (byDiffID (img w') !! h = None →
     LayerByDiffID jc sha h w = (Err errLayerNotFound, w')) ∧
  (∀ l, byDiffID (img w') !! h = Some l →
     LayerByDiffID jc sha h w = (Ok l, w')) ∧
  (∀ msg, errLayerNotFound ≠ errExternal msg).
Proof.
  intros E. unfold LayerByDigest, LayerByDiffID.
  rewrite !(after_populate _ w w' E).
  split_and!; [by intros ->|by intros l ->|by intros ->|by intros l ->|done].
Qed.

(** C3, as the code has it.  The pass does not compare the length of the
    override list with the number of base layers.  When the override list
    is not the longer one and every collaborator answers, the pass
    succeeds, and it has derived one diff-ID per override slot. *)
Theorem populate_accepts_short_overrides w ls p c q m :
  computed (img w) = false →
  Image_ConfigFile (base (img w)) = Ok (Some p) → configs w !! p = Some c →
  Image_Manifest (base (img w)) = Ok (Some q) → manifests w !! q = Some m →
  Image_Layers (base (img w)) = Ok ls →
  length (overrides (img w)) ≤ length ls →
  (∀ l, l ∈ ls ∨ Some l ∈ overrides (img w) →
     is_Ok (partial_Descriptor l) ∧ is_Ok (l_DiffID l)) →
  (∀ cf, is_Ok (jc cf)) → (∀ b, is_Ok (sha b)) →
  ∃ w', populate jc sha w = (Ok (), w') ∧
        length (diffIDs (img w')) = length (overrides (img w)).
Proof.
  intros Hc Hp Hpc Hq Hqm Hls Hlen Hok Hjc Hsha.
  destruct (populate_loop_total ls (overrides (img w)) 0 acc_empty)
    as (a & Ea & Hla); [|done|].
  { intros k Hk. apply lookup_lt_Some in Hk. lia. }
  specialize (Hjc (new_config (img w) a c)).
  destruct (jc (new_config (img w) a c)) as [config| |] eqn:Ejc; try done.
  specialize (Hsha config). destruct (sha config) as [ds| |] eqn:Esha; try done.
  eexists. split.
  - rewrite populate_uncomputed by done. by eapply populate_pass_Ok.
  - simpl. by rewrite Hla.
Qed.

(** An empty slot beyond the base's layers is not reported as an error
    either: indexing the base's layers panics. *)
Lemma populate_panics_on_long_overrides w ls p c q m k :
  computed (img w) = false →
  Image_ConfigFile (base (img w)) = Ok (Some p) → configs w !! p = Some c →
  Image_Manifest (base (img w)) = Ok (Some q) → manifests w !! q = Some m →
  Image_Layers (base (img w)) = Ok ls →
  overrides (img w) !! k = Some None → length ls ≤ k →
  (∀ j, j < k → overrides (img w) !! j = Some None → j < length ls) →
  (∀ l, l ∈ ls ∨ Some l ∈ overrides (img w) →
     is_Ok (partial_Descriptor l) ∧ is_Ok (l_DiffID l)) →
  (populate jc sha w).1 = Panic.
Proof.
  intros Hc Hp Hpc Hq Hqm Hls Hk Hge Hbefore Hok.
  rewrite populate_uncomputed by done.
  pose proof (populate_loop_panic ls (overrides (img w)) 0 acc_empty k Hk Hge
                Hbefore Hok) as Ep.
  unfold_pass. rewrite Hp. simpl. rewrite Hpc, Hq. simpl. rewrite Hqm, Hls. simpl.
  by rewrite Ep.
Qed.

(** C9.  Whatever methods are called on the lazy image, in whatever order,
    the config file and the manifest the base hands out are afterwards what
    they were before, and the base is the same: the pass writes only to the
    copies it has allocated. *)
Theorem base_never_mutated cs w p q c m :
  Image_ConfigFile (base (img w)) = Ok (Some p) → configs w !! p = Some c →
  Image_Manifest (base (img w)) = Ok (Some q) → manifests w !! q = Some m →
  base (img (after_calls jc jm sha cs w)) = base (img w) ∧
  configs (after_calls jc jm sha cs w) !! p = Some c ∧
  manifests (after_calls jc jm sha cs w) !! q = Some m.
Proof.
  intros _ Hc _ Hm. destruct (frame_after_calls cs w) as (Hb & Hcs & Hms).
  split_and!; [done| |].
  - by eapply prefix_lookup_Some.
  - by eapply prefix_lookup_Some.
Qed.


(** The layers the loop settles on when slot [i] alone is overridden. *)
Lemma effective_layers_single ls i L es :
  i < length ls →
  length es = length (<[i := Some L]> (replicate (length ls) (@None Layer))) →
  (∀ k l, es !! k = Some l →
     <[i := Some L]> (replicate (length ls) None) !! k = Some (Some l) ∨
     (<[i := Some L]> (replicate (length ls) None) !! k = Some None ∧
      ls !! (0 + k) = Some l)) →
  es = <[i := L]> ls.
Proof.
  intros Hi Hlen Hes. rewrite length_insert, length_replicate in Hlen.
  apply list_eq_same_length with (length ls);
    [by rewrite length_insert|done|].
  intros k l1 l2 Hk H1 H2.
  destruct (Hes k l1 H1) as [Ho|[Ho Hl]].
  - destruct (decide (i = k)) as [->|Hne].
    + rewrite list_lookup_insert_eq in Ho by by rewrite length_replicate.
      rewrite list_lookup_insert_eq in H2 by done. congruence.
    + rewrite list_lookup_insert_ne in Ho by done.
      apply lookup_replicate in Ho as [? _]. done.
  - destruct (decide (i = k)) as [->|Hne].
    + rewrite list_lookup_insert_eq in Ho by by rewrite length_replicate. done.
    + rewrite list_lookup_insert_ne in H2 by done. simpl in Hl. congruence.
Qed.

(** C6, as the code has it.  On a base whose config lists the diff-IDs of
    its layers, override slot [i] alone with [L], and let the pass succeed.
    Provided no two different layers among the resulting ones share a
    diff-ID, and none but [L] has [L]'s digest: [Layers] is the base's list
    with [L] at [i]; the diff-IDs of the config file are the base's with
    [L]'s diff-ID at [i]; and [L]'s diff-ID and digest both resolve to
    [L]. *)
Theorem layer_substitution w w' ls i L dL gL p c :
  computed (img w) = false →
  Image_Layers (base (img w)) = Ok ls →
  i < length ls →
  overrides (img w) = <[i := Some L]> (replicate (length ls) None) →
  Image_ConfigFile (base (img w)) = Ok (Some p) → configs w !! p = Some c →
  Forall2 (λ l d, l_DiffID l = Ok d) ls (c_RootFS_DiffIDs c) →
  l_DiffID L = Ok dL → l_Digest L = Ok gL →
  (∀ l1 l2, l1 ∈ <[i := L]> ls → l2 ∈ <[i := L]> ls →
     l_DiffID l1 = l_DiffID l2 → l1 = l2) →
  (∀ l, l ∈ <[i := L]> ls → l_Digest l = l_Digest L → l = L) →
  populate jc sha w = (Ok (), w') →
  Layers jc sha w = (Ok (<[i := L]> ls), w') ∧
  (∃ p' c', ConfigFile_ jc sha w = (Ok (Some p'), w') ∧
            configs w' !! p' = Some c' ∧
            c_RootFS_DiffIDs c' = <[i := dL]> (c_RootFS_DiffIDs c)) ∧
  LayerByDiffID jc sha dL w = (Ok L, w') ∧
  LayerByDigest jc sha gL w = (Ok L, w').
Proof.
  intros Hc Hls Hi Hos Hp Hpc Hbase HdL HgL Hdiff Hdig E.
  pose proof (populate_Ok_computed _ _ E) as Hc'.
  unfold Layers, ConfigFile_, LayerByDiffID, LayerByDigest.
  rewrite !(after_populate _ w w' E).
  rewrite populate_uncomputed in E by done.
  apply populate_pass_Ok_inv in E
    as (lc & c0 & lm & m & ls0 & a & config & ds & E1 & E2 & E3 & E4 & E5 & E6
        & E7 & E8 & Hw').
  assert (ls0 = ls) as -> by congruence.
  assert (lc = p) as -> by congruence.
  assert (c0 = c) as -> by congruence.
  apply populate_loop_inv in E6
    as (es & Hlen & Hes & (dids & Hdids & Fd) & _ & _ & Hk1 & Hk2 & Hv1 & Hv2).
  rewrite Hos in Hlen, Hes.
  pose proof (effective_layers_single ls i L es Hi Hlen Hes) as ->.
  simpl in Hdids.
  assert (L ∈ <[i := L]> ls) as HL.
  { apply list_elem_of_lookup. exists i. by apply list_lookup_insert_eq. }
  (* every diff-ID of the list resolves to the layer at its position *)
  assert (∀ l h, l ∈ <[i := L]> ls → l_DiffID l = Ok h →
            a_byDiffID a !! h = Some l) as Hres.
  { intros l h Hl Hh. destruct (Hk1 l h Hl Hh) as [l' Hl'].
    destruct (Hv1 h l' Hl') as [He|[Hin Hh']]; [done|].
    rewrite Hl'. f_equal. apply Hdiff; [done|done|congruence]. }
  assert (a_byDigest a !! gL = Some L) as HresL.
  { destruct (Hk2 L gL HL HgL) as [l' Hl'].
    destruct (Hv2 gL l' Hl') as [He|[Hin Hh']]; [done|].
    rewrite Hl'. f_equal. apply Hdig; [done|congruence]. }
  assert (diffIDs (img w') = dids) as Hw1 by by subst w'.
  assert (byDiffID (img w') = a_byDiffID a) as Hw2 by by subst w'.
  assert (byDigest (img w') = a_byDigest a) as Hw3 by by subst w'.
  assert (configFile (img w') = Some (length (configs w))) as Hw4 by by subst w'.
  assert (configs w' = configs w ++ [new_config (img w) a c]) as Hw5
    by by subst w'.
  clear Hw'. split_and!.
  - unfold bind. rewrite Hw1.
    rewrite (Layers_loop_computed w' Hc' dids (<[i := L]> ls) []); [done|].
    rewrite Hw2. apply Forall2_same_length_lookup. split.
    + symmetry. by eapply Forall2_length.
    + intros k h l Hh Hl. apply Hres.
      * by eapply list_elem_of_lookup_2.
      * by eapply Forall2_lookup_lr in Fd.
  - eexists _, _. rewrite Hw4, Hw5. split_and!; [done|apply snoc_lookup|].
    rewrite new_config_DiffIDs, Hdids.
    apply (Forall2_functional (λ l d, l_DiffID l = Ok d) (<[i := L]> ls)).
    + intros; congruence.
    + done.
    + by apply Forall2_insert.
  - by rewrite Hw2, (Hres L dL HL HdL).
  - by rewrite Hw3, HresL.
Qed.

End Proofs.


Local Abbreviation tc := toy_marshal_config.
Local Abbreviation tm := toy_marshal_manifest.
Local Abbreviation ts := toy_SHA256.


Lemma populate_failure_commits_nothing_witness :
  populate tc ts w_broken =
    (Err (errExternal "layers unavailable"), (populate tc ts w_broken).2) ∧
  img (populate tc ts w_broken).2 = img w_broken ∧
  computed (img (populate tc ts w_broken).2) = false ∧
  populate tc ts (populate tc ts w_broken).2 =
    populate_pass tc ts (populate tc ts w_broken).2.
Proof.
  split; [reflexivity|].
  apply (populate_failure_commits_nothing tc ts w_broken
           (Err (errExternal "layers unavailable"))); [reflexivity|discriminate].
Defined.

Lemma layer_lookup_found_or_not_found_witness :
  LayerByDigest tc ts (sha "nowhere") w_sub =
    (Err errLayerNotFound, (populate tc ts w_sub).2) ∧
  LayerByDiffID tc ts (sha "n") w_sub = (Ok layerN, (populate tc ts w_sub).2).
Proof.
  destruct (layer_lookup_found_or_not_found tc ts w_sub (populate tc ts w_sub).2
              (sha "nowhere")) as (H1 & _).
  { vm_compute. reflexivity. }
  destruct (layer_lookup_found_or_not_found tc ts w_sub (populate tc ts w_sub).2
              (sha "n")) as (_ & _ & _ & H4 & _).
  { vm_compute. reflexivity. }
  split; [apply H1|apply H4]; vm_compute; reflexivity.
Defined.


(** C3 does not hold of the code: one override for a base of two layers,
    and [Manifest] succeeds. *)
Lemma populate_length_mismatch_counterexample :
  Image_Layers (base (img w_short)) = Ok [layerA; layerB] ∧
  length (overrides (img w_short)) ≠ length [layerA; layerB] ∧
  (Manifest_ tc ts w_short).1 = Ok (Some 1).
Proof. split_and!; [reflexivity|simpl; lia|reflexivity]. Qed.

Lemma populate_accepts_short_overrides_witness :
  ∃ w', populate tc ts w_short = (Ok (), w') ∧
        length (diffIDs (img w')) = length (overrides (img w_short)).
Proof.
  apply (populate_accepts_short_overrides tc ts w_short [layerA; layerB]
           0 config0 0 manifest0); try reflexivity; try done.
  - simpl. lia.
  - intros l [Hl|Hl]; simpl in Hl; elem_cases; by split.
Defined.

(** C6 does not hold of the code: override slot 0 with [layerB'], which has
    the diff-ID of the base's second layer; slot 0 of [Layers] is then that
    second layer, and so is what the diff-ID of [layerB'] resolves to. *)
Lemma layer_substitution_counterexample :
  overrides (img w_clash) = <[0 := Some layerB']> (replicate 2 None) ∧
  l_DiffID layerB' = Ok (sha "b") ∧
  (Layers tc ts w_clash).1 = Ok [layerB; layerB] ∧
  (LayerByDiffID tc ts (sha "b") w_clash).1 = Ok layerB ∧
  layerB ≠ layerB'.
Proof. split_and!; [reflexivity..|discriminate]. Qed.

Lemma layer_substitution_witness :
  Layers tc ts w_sub = (Ok [layerN; layerB], (populate tc ts w_sub).2) ∧
  (∃ p' c', ConfigFile_ tc ts w_sub = (Ok (Some p'), (populate tc ts w_sub).2) ∧
            configs (populate tc ts w_sub).2 !! p' = Some c' ∧
            c_RootFS_DiffIDs c' = [sha "n"; sha "b"]) ∧
  LayerByDiffID tc ts (sha "n") w_sub = (Ok layerN, (populate tc ts w_sub).2) ∧
  LayerByDigest tc ts (sha "n-gz") w_sub = (Ok layerN, (populate tc ts w_sub).2).
Proof.
  apply (layer_substitution tc ts w_sub (populate tc ts w_sub).2
           [layerA; layerB] 0 layerN (sha "n") (sha "n-gz") 0 config0);
    try reflexivity.
  - simpl. lia.
  - repeat constructor.
  - intros l1 l2 H1 H2 Hd. simpl in H1, H2. elem_cases; (done || discriminate).
  - intros l H1 Hd. simpl in H1. elem_cases; (done || discriminate).
Defined.

Lemma base_never_mutated_witness :
  base (img (after_calls tc tm ts
               [CallLayers; CallDigest; CallLayerByDigest (sha "x"); CallConfigFile]
               w_sub)) = base0 ∧
  configs (after_calls tc tm ts
             [CallLayers; CallDigest; CallLayerByDigest (sha "x"); CallConfigFile]
             w_sub) !! 0 = Some config0 ∧
  manifests (after_calls tc tm ts
               [CallLayers; CallDigest; CallLayerByDigest (sha "x"); CallConfigFile]
               w_sub) !! 0 = Some manifest0.
Proof.
  apply (base_never_mutated tc tm ts
           [CallLayers; CallDigest; CallLayerByDigest (sha "x"); CallConfigFile]
           w_sub 0 0 config0 manifest0); reflexivity.
Defined.

End MutateProofs.

(** ** The synchronizer *)

Module SifProofs.
Import Sif.

Lemma in_order_nil : in_order [].
Proof. intros i j a b _ Hi. by rewrite lookup_nil in Hi. Qed.

Lemma in_order_singleton e : in_order [e].
Proof.
  intros i j a b Hij Hi Hj. apply lookup_lt_Some in Hj. simpl in Hj. lia.
Qed.

Lemma in_order_app l1 l2 mid :
  in_order l1 → in_order l2 →
  Forall (λ e, phase e ≤ mid) l1 → Forall (λ e, mid ≤ phase e) l2 →
  in_order (l1 ++ l2).
Proof.
  intros H1 H2 F1 F2 i j a b Hij Hi Hj.
  apply lookup_app_Some in Hi as [Hi|[Hil Hi]];
    apply lookup_app_Some in Hj as [Hj|[Hjl Hj]].
  - by eapply H1.
  - rewrite Forall_lookup in F1, F2.
    specialize (F1 _ _ Hi). specialize (F2 _ _ Hj). simpl in *. lia.
  - apply lookup_lt_Some in Hj. lia.
  - eapply (H2 (i - length l1) (j - length l1)); [lia|done|done].
Qed.

Section Proofs.
Variable H : bytes → Hash.
Variable fault : list event → option error.


Lemma phased_pure {A} lo hi (f : world → result A) :
  phased lo hi (λ w, (f w, w)).
Proof.
  intros w r w' [= <- <-]. split_and!; [|done|by intros _ o].
  exists []. by rewrite app_nil_r; split_and!; [|apply in_order_nil|].
Qed.

Lemma phased_ret {A} lo hi (a : A) : phased lo hi (ret a).
Proof. apply (phased_pure lo hi (λ _, Ok a)). Qed.

Lemma phased_lift {A} lo hi (r : result A) : phased lo hi (lift r).
Proof. apply (phased_pure lo hi (λ _, r)). Qed.

Lemma phased_weaken {A} lo hi lo' hi' (c : M world A) :
  phased lo hi c → lo' ≤ lo → hi ≤ hi' → phased lo' hi' c.
Proof.
  intros Hc Hlo Hhi w r w' E. destruct (Hc w r w' E) as ((evs & Ht & Ho & F) & Hs & Hn).
  split_and!.
  - exists evs. split_and!; [done|done|].
    eapply Forall_impl; [done|]. simpl. intros. lia.
  - intros. apply Hs. lia.
  - intros. apply Hn. lia.
Qed.

Lemma phased_bind {A B} lo mid hi (c : M world A) (k : A → M world B) :
  phased lo mid c → (∀ a, phased mid hi (k a)) → lo ≤ mid → mid ≤ hi →
  phased lo hi (bind c k).
Proof.
  intros Hc Hk Hlo Hhi w r w' E. unfold bind in E.
  destruct (c w) as [r1 w1] eqn:E1.
  destruct (Hc w r1 w1 E1) as ((evs1 & Ht1 & Ho1 & F1) & Hs1 & Hn1).
  destruct r1 as [a| |].
  - destruct (Hk a w1 r w' E) as ((evs2 & Ht2 & Ho2 & F2) & Hs2 & Hn2).
    split_and!.
    + exists (evs1 ++ evs2). split_and!.
      * by rewrite Ht2, Ht1, app_assoc.
      * apply in_order_app with mid; [done|done| |].
        -- eapply Forall_impl; [done|]. simpl. intros; lia.
        -- eapply Forall_impl; [done|]. simpl. intros; lia.
      * apply Forall_app. split; (eapply Forall_impl; [done|]); simpl; intros; lia.
    + intros Hh. rewrite Hs2, Hs1 by lia. done.
    + intros Hh o Ho Hr. apply Hn1; [lia| |done]. apply Hn2; [lia|done|done].
  - simplify_eq. split_and!.
    + exists evs1. split_and!; [done|done|].
      eapply Forall_impl; [done|]. simpl. intros; lia.
    + intros. apply Hs1. lia.
    + intros. apply Hn1. lia.
  - simplify_eq. split_and!.
    + exists evs1. split_and!; [done|done|].
      eapply Forall_impl; [done|]. simpl. intros; lia.
    + intros. apply Hs1. lia.
    + intros. apply Hn1. lia.
Qed.


Lemma phased_seq {A B} lo hi (c : M world A) (k : A → M world B) :
  phased lo hi c → (∀ a, phased hi hi (k a)) → lo ≤ hi → phased lo hi (bind c k).
Proof. intros. by eapply phased_bind. Qed.

Lemma phased_same {A B} n (c : M world A) (k : A → M world B) :
  phased n n c → (∀ a, phased n n (k a)) → phased n n (bind c k).
Proof. intros. by eapply phased_bind. Qed.

Lemma phased_attempt ev : phased (phase ev) (phase ev) (attempt fault ev).
Proof.
  intros w r w' E. unfold attempt in E. simpl in E.
  assert (store w' = store w ∧ trace w' = trace w ++ [ev]) as [Hs Ht]
    by (destruct (fault _); by simplify_eq).
  split_and!.
  - exists [ev]. split_and!; [done|apply in_order_singleton|].
    constructor; [lia|constructor].
  - done.
  - intros _ o Ho _. by rewrite <-Hs.
Qed.

(** An attempted operation followed by its effect [f], which may refuse. *)
Lemma phased_effect {A} ev (f : world → result A * world) :
  (∀ w, trace (f w).2 = trace w) →
  (phase ev < 1 → ∀ w, store (f w).2 = store w) →
  (phase ev < 4 → ∀ w, no_new_root w (f w).2) →
  phased (phase ev) (phase ev) (bind (attempt fault ev) (λ _, f)).
Proof.
  intros Ht Hs Hn w r w' E. unfold bind in E.
  destruct (attempt fault ev w) as [r1 w1] eqn:E1.
  destruct (phased_attempt ev w r1 w1 E1) as ((evs & Ht1 & Ho1 & F1) & Hs1 & Hn1).
  assert (store w1 = store w) as Hst.
  { unfold attempt in E1. simpl in E1. destruct (fault _); by simplify_eq. }
  destruct r1 as [[]| |]; simplify_eq.
  - pose proof (Ht w1) as Ht2. rewrite E in Ht2. simpl in Ht2. split_and!.
    + exists evs. by rewrite Ht2.
    + intros Hp. pose proof (Hs Hp w1) as Hs2. rewrite E in Hs2. simpl in *.
      congruence.
    + intros Hp o Ho Hr. pose proof (Hn Hp w1) as Hn2. rewrite E in Hn2.
      rewrite <-Hst. by apply Hn2.
  - split_and!; [by exists evs|done|]. intros _ o Ho _. by rewrite <-Hst.
  - split_and!; [by exists evs|done|]. intros _ o Ho _. by rewrite <-Hst.
Qed.

Ltac wrong_phase := let Hp := fresh in intros Hp; simpl in Hp; lia.

Lemma phased_writeCacheBlob rc d : phased 0 0 (writeCacheBlob fault rc d).
Proof.
  apply (phased_effect (EvWriteCache d)).
  - intros w. by destruct (cache w).
  - intros _ w. by destruct (cache w).
  - intros _ w o Ho _. by destruct (cache w).
Qed.

Lemma phased_MkdirTemp dir : phased 0 0 (MkdirTemp fault dir).
Proof.
  apply (phased_effect (EvMkdirTemp dir)); [done|done|by intros _ w o].
Qed.

Lemma phased_readCacheBlob d : phased 3 3 (readCacheBlob fault d).
Proof.
  apply (phased_effect (EvReadCache d)).
  - intros w. by repeat case_match.
  - wrong_phase.
  - intros _ w o Ho _. by repeat case_match.
Qed.

Lemma phased_writeBlob_blob rc : phased 3 3 (writeBlobToFileImage H fault rc false).
Proof.
  apply (phased_effect (EvAddObject DataOCIBlob rc)); [done|wrong_phase|].
  intros _ w o Ho Hr. simpl in Ho.
  apply elem_of_app in Ho as [Ho|Ho]; [done|].
  apply list_elem_of_singleton in Ho. by subst.
Qed.

Lemma phased_writeBlob_root ri : phased 4 4 (writeBlobToFileImage H fault ri true).
Proof.
  apply (phased_effect (EvAddObject DataOCIRootIndex ri));
    [done|wrong_phase|wrong_phase].
Qed.

Lemma phased_DeleteObject ev id :
  1 ≤ phase ev → phased (phase ev) (phase ev) (DeleteObject fault ev id).
Proof.
  intros Hp w r w' E. unfold DeleteObject in E.
  destruct (filter _ (store w)) as [|x [|y l]] eqn:Ef.
  - by eapply (phased_pure _ _ (λ _, Err ErrObjectNotFound)).
  - revert E. apply (phased_effect ev); [done|intros; lia|].
    intros _ w0 o Ho _. simpl in Ho. by apply list_elem_of_filter in Ho as [_ ?].
  - by eapply (phased_pure _ _ (λ _, Err ErrMultipleObjectsFound)).
Qed.

Lemma phased_cacheLayers skip layers : ∀ cached skipped,
  phased 0 0 (cacheLayers fault layers skip cached skipped).
Proof.
  induction layers as [|l layers IH]; intros cached skipped; simpl.
  - apply phased_ret.
  - apply phased_same; [apply phased_lift|]. intros ld.
    case_bool_decide; [apply IH|].
    apply phased_same; [apply phased_lift|]. intros rc.
    apply phased_same; [apply phased_writeCacheBlob|]. intros _. apply IH.
Qed.

Lemma phased_cacheImageBlobs im skip : phased 0 0 (cacheImageBlobs fault im skip).
Proof.
  unfold cacheImageBlobs.
  apply phased_same; [apply phased_lift|]. intros layers.
  apply phased_same; [apply phased_cacheLayers|]. intros cs.
  apply phased_same; [apply phased_lift|]. intros mf.
  case_bool_decide; [apply phased_ret|].
  apply phased_same; [apply phased_lift|]. intros c.
  apply phased_same; [apply phased_writeCacheBlob|]. intros _. apply phased_ret.
Qed.

Lemma phased_cacheIndex_loop cacheChild cix cim bl skip descs :
  (∀ d child, cix d = Ok child → phased 0 0 (cacheChild child)) →
  ∀ cached skipped,
  phased 0 0 (cacheIndex_loop fault cacheChild cix cim bl skip descs cached skipped).
Proof.
  intros Hchild.
  induction descs as [|desc descs IH]; intros cached skipped; simpl.
  - apply phased_ret.
  - destruct (classify (d_MediaType desc)).
    + intros w r w' E. unfold bind at 1, lift at 1 in E.
      destruct (cix (d_Digest desc)) as [child| |] eqn:Ec;
        [|by eapply (phased_pure _ _ (λ _, Err _))
         |by eapply (phased_pure _ _ (λ _, Panic))].
      revert w r w' E.
      apply phased_same; [by eapply Hchild|]. intros cs.
      case_bool_decide; [apply IH|].
      apply phased_same; [apply phased_lift|]. intros rm.
      apply phased_same; [apply phased_writeCacheBlob|]. intros _. apply IH.
    + apply phased_same; [apply phased_lift|]. intros childImage.
      apply phased_same; [apply phased_cacheImageBlobs|]. intros cs.
      case_bool_decide; [apply IH|].
      apply phased_same; [apply phased_lift|]. intros rm.
      apply phased_same; [apply phased_writeCacheBlob|]. intros _. apply IH.
    + case_bool_decide; [apply IH|].
      apply phased_same; [apply phased_lift|]. intros rc.
      apply phased_same; [apply phased_writeCacheBlob|]. intros _. apply IH.
Qed.

(** Induction on an index: the children are the indices its [ImageIndex]
    method returns. *)
Lemma ImageIndex_children_ind (P : ImageIndex → Prop) :
  (∀ dg im raw cix cim bl,
     (∀ d child, cix d = Ok child → P child) →
     P (mkImageIndex dg im raw cix cim bl)) →
  ∀ ii, P ii.
Proof.
  intros IH. fix F 1. intros [dg im raw cix cim bl]. apply IH.
  intros d child. destruct (cix d) as [c| |]; intros [= <-]. apply F.
Qed.

Lemma phased_cacheIndexBlobs skip ii : phased 0 0 (cacheIndexBlobs fault ii skip).
Proof.
  induction ii as [dg im raw cix cim bl IH] using ImageIndex_children_ind. simpl.
  apply phased_same; [apply phased_lift|]. intros index.
  by apply phased_cacheIndex_loop.
Qed.

Lemma phased_deleteBlobs_loop keep descs : phased 1 1 (deleteBlobs_loop fault descs keep).
Proof.
  induction descs as [|d descs IH]; simpl.
  - apply phased_ret.
  - apply phased_same; [apply phased_lift|]. intros dd.
    case_bool_decide; [apply IH|].
    apply phased_same; [|done].
    apply (phased_DeleteObject (EvDeleteBlob (o_ID d))). simpl. lia.
Qed.

Lemma phased_deleteBlobsExcept keep : phased 1 1 (deleteBlobsExcept fault keep).
Proof. intros w r w' E. by eapply phased_deleteBlobs_loop. Qed.

Lemma phased_deleteRootIndex : phased 2 2 (deleteRootIndex fault).
Proof.
  unfold deleteRootIndex. apply phased_same; [apply phased_pure|]. intros desc.
  apply (phased_DeleteObject (EvDeleteRootIndex (o_ID desc))). simpl. lia.
Qed.

Lemma phased_writeCached cached : phased 3 3 (writeCached H fault cached).
Proof.
  induction cached as [|b cached IH]; simpl.
  - apply phased_ret.
  - apply phased_same; [apply phased_readCacheBlob|]. intros rc.
    apply phased_same; [apply phased_writeBlob_blob|]. intros _.
    apply phased_same; [apply (phased_attempt (EvCloseCache b))|]. intros _. done.
Qed.

Lemma phased_Update_stage ii sb : phased 0 0 (Update_stage fault ii sb).
Proof.
  unfold Update_stage.
  apply phased_same; [apply phased_cacheIndexBlobs|]. intros cs.
  apply phased_same; [apply phased_lift|]. intros ri. apply phased_ret.
Qed.

Lemma phased_Update_commit cached keep ri :
  phased 1 4 (Update_commit H fault cached keep ri).
Proof.
  unfold Update_commit.
  apply (phased_bind 1 1 4); [apply phased_deleteBlobsExcept| |lia|lia]. intros _.
  apply (phased_bind 1 2 4);
    [eapply phased_weaken; [apply phased_deleteRootIndex|lia|lia]| |lia|lia].
  intros _.
  apply (phased_bind 2 3 4);
    [eapply phased_weaken; [apply phased_writeCached|lia|lia]| |lia|lia].
  intros _. eapply phased_weaken; [apply phased_writeBlob_root|lia|lia].
Qed.

Lemma phased_defer {A} lo hi (c : M world A) :
  phased lo hi c → lo ≤ 5 → hi ≤ 5 → phased lo 5 (defer RemoveAll c).
Proof.
  intros Hc Hlo Hhi w r w' E. unfold defer in E.
  destruct (c w) as [r1 w1] eqn:E1. simplify_eq.
  destruct (Hc w r w1 E1) as ((evs & Ht & Ho & F) & Hs & Hn).
  split_and!; [|intros; lia|intros; lia].
  exists (evs ++ [EvRemoveAll]). simpl. split_and!.
  - by rewrite Ht, app_assoc.
  - apply in_order_app with 5; [done|apply in_order_singleton| |].
    + eapply Forall_impl; [done|]. simpl. intros; lia.
    + constructor; [done|constructor].
  - apply Forall_app. split.
    + eapply Forall_impl; [done|]. simpl. intros; lia.
    + constructor; [simpl; lia|constructor].
Qed.


Lemma phased_Update_prepare ii opts : phased 0 0 (Update_prepare H fault ii opts).
Proof.
  unfold Update_prepare.
  apply phased_same; [apply phased_lift|]. intros uo.
  apply phased_same; [apply phased_pure|]. intros sifRootIndex.
  apply phased_same; [apply phased_lift|]. intros sifRootDigest.
  apply phased_same; [apply phased_lift|]. intros newRootDigest.
  case_bool_decide; [apply phased_ret|].
  apply phased_same; [apply phased_pure|]. intros sb.
  apply phased_same; [apply phased_MkdirTemp|]. intros _.
  apply phased_same; [apply phased_Update_stage|]. intros p. apply phased_ret.
Qed.

Lemma phased_Update ii opts : phased 0 5 (Update H fault ii opts).
Proof.
  unfold Update.
  apply (phased_bind 0 0 5); [apply phased_lift| |lia|lia]. intros uo.
  apply (phased_bind 0 0 5); [apply phased_pure| |lia|lia]. intros sifRootIndex.
  apply (phased_bind 0 0 5); [apply phased_lift| |lia|lia]. intros sifRootDigest.
  apply (phased_bind 0 0 5); [apply phased_lift| |lia|lia]. intros newRootDigest.
  case_bool_decide; [apply phased_ret|].
  apply (phased_bind 0 0 5); [apply phased_pure| |lia|lia]. intros sb.
  apply (phased_bind 0 0 5); [apply phased_MkdirTemp| |lia|lia]. intros _.
  apply (phased_defer 0 4); [|lia|lia].
  apply (phased_bind 0 0 4); [apply phased_Update_stage| |lia|lia]. intros p.
  eapply phased_weaken; [apply phased_Update_commit|lia|lia].
Qed.


(** [Update] is [Update_prepare] followed, when there is something to do,
    by [Update_commit] and the removal of the staging directory. *)
Lemma Update_prepare_Some ii opts w p w1 :
  Update_prepare H fault ii opts w = (Ok (Some p), w1) →
  Update H fault ii opts w =
    defer RemoveAll (Update_commit H fault p.1.1 p.1.2 p.2) w1.
Proof.
  unfold Update, Update_prepare, bind, lift, ret, defer.
  repeat (destruct_head_match; simpl; try done);
    intros; simplify_eq; congruence.
Qed.

Lemma Update_prepare_None ii opts w w1 :
  Update_prepare H fault ii opts w = (Ok None, w1) →
  Update H fault ii opts w = (Ok (), w) ∧ w1 = w.
Proof.
  unfold Update, Update_prepare, bind, lift, ret, defer, ImageIndexFromFileImage.
  repeat (destruct_head_match; simpl; try done); intros; by simplify_eq.
Qed.

Lemma Update_prepare_Err ii opts w e w1 :
  Update_prepare H fault ii opts w = (Err e, w1) →
  ∃ w', Update H fault ii opts w = (Err e, w') ∧ store w' = store w1 ∧
        (trace w' = trace w1 ∨ trace w' = trace w1 ++ [EvRemoveAll]).
Proof.
  unfold Update, Update_prepare, bind, lift, ret, defer.
  repeat (destruct_head_match; simpl; try done); intros; simplify_eq;
    eexists; (split; [done|]); auto.
Qed.

Lemma Update_prepare_Panic ii opts w w1 :
  Update_prepare H fault ii opts w = (Panic, w1) →
  ∃ w', Update H fault ii opts w = (Panic, w') ∧ store w' = store w1 ∧
        (trace w' = trace w1 ∨ trace w' = trace w1 ++ [EvRemoveAll]).
Proof.
  unfold Update, Update_prepare, bind, lift, ret, defer.
  repeat (destruct_head_match; simpl; try done); intros; simplify_eq;
    eexists; (split; [done|]); auto.
Qed.


(** *** What a successful staging pass has done *)


Section Staged.

Variable skip : list Hash.
Variable G : Prop.


Lemma staged_cache rs w w' : staged H skip G rs w w' → is_Some (cache w').
Proof. intros (_ & files & files' & _ & -> & _). by eexists. Qed.

Lemma cached_as_cache rs c0 s0 cs w w' :
  cached_as H skip G rs c0 s0 cs w w' → is_Some (cache w').
Proof. intros (_ & _ & Hst). by eapply staged_cache. Qed.

Lemma staged_nil w : is_Some (cache w) → staged H skip G [] w w.
Proof.
  intros [files Hf]. split; [by rewrite app_nil_r|].
  exists files, files. split_and!; try done. intros d Hd. by apply elem_of_nil in Hd.
Qed.

Lemma staged_app rs1 rs2 w w1 w2 :
  staged H skip G rs1 w w1 → staged H skip G rs2 w1 w2 → staged H skip G (rs1 ++ rs2) w w2.
Proof.
  intros (Ht1 & f0 & f1 & Hf0 & Hf1 & Ho1 & Hi1 & Hk1)
         (Ht2 & f1' & f2 & Hf1' & Hf2 & Ho2 & Hi2 & Hk2).
  assert (f1' = f1) as -> by congruence.
  split.
  - by rewrite Ht2, Ht1, filter_app, fmap_app, app_assoc.
  - exists f0, f2. rewrite filter_app. split_and!; [done|done| | |by auto].
    + intros d Hd. rewrite elem_of_app in Hd.
      rewrite Ho2, Ho1; [done| |]; intros ?; apply Hd; auto.
    + intros d Hd.
      destruct (decide (d ∈ filter (.∉ skip) rs2)) as [?|Hn]; [by auto|].
      rewrite Ho2 by done. apply Hi1. apply elem_of_app in Hd as [?|?]; done.
Qed.

Lemma staged_skip d w : d ∈ skip → is_Some (cache w) → staged H skip G [d] w w.
Proof.
  intros Hd [files Hf]. unfold staged.
  rewrite filter_cons_False by (simpl; by intros ?).
  rewrite filter_nil. split; [by rewrite app_nil_r|].
  exists files, files. split_and!; try done. intros ? Hx. by apply elem_of_nil in Hx.
Qed.

Lemma staged_write rc d w w' :
  d ∉ skip → writeCacheBlob fault rc d w = (Ok (), w') → (G → H rc = d) →
  staged H skip G [d] w w'.
Proof.
  intros Hd E HG. unfold staged.
  rewrite filter_cons_True by done. rewrite filter_nil.
  unfold writeCacheBlob, bind, attempt in E. simpl in E.
  destruct (fault _); [done|]. simpl in E.
  destruct (cache w) as [files|] eqn:Ef; [|done]. simplify_eq. simpl.
  split; [done|]. exists files, (<[d := rc]> files). split_and!; [done|done| | |].
  - intros x Hx. rewrite lookup_insert_ne; [done|]. intros ->. apply Hx. left.
  - intros x Hx. apply list_elem_of_singleton in Hx as ->.
    rewrite lookup_insert_eq. by eexists.
  - intros HG' Hok x c. rewrite lookup_insert. case_decide.
    + intros [= <-]. subst. by apply HG.
    + apply Hok.
Qed.

Lemma cached_as_nil c0 s0 w : is_Some (cache w) → cached_as H skip G [] c0 s0 (c0, s0) w w.
Proof.
  intros Hc. split_and!; simpl; rewrite ?filter_nil, ?app_nil_r; [done|done|].
  by apply staged_nil.
Qed.

Lemma cached_as_app rs1 rs2 c0 s0 cs1 cs w w1 w2 :
  cached_as H skip G rs1 [] [] cs1 w w1 →
  cached_as H skip G rs2 (c0 ++ cs1.1) (s0 ++ cs1.2) cs w1 w2 →
  cached_as H skip G (rs1 ++ rs2) c0 s0 cs w w2.
Proof.
  intros (E1 & E2 & S1) (E3 & E4 & S2). simpl in *. split_and!.
  - by rewrite E3, E1, filter_app, app_assoc.
  - by rewrite E4, E2, filter_app, app_assoc.
  - by eapply staged_app.
Qed.

Lemma cached_as_skip d rs c0 s0 cs w w' :
  d ∈ skip → is_Some (cache w) →
  cached_as H skip G rs c0 (s0 ++ [d]) cs w w' → cached_as H skip G (d :: rs) c0 s0 cs w w'.
Proof.
  intros Hd Hc (E1 & E2 & S). split_and!.
  - rewrite E1. by rewrite filter_cons_False by (simpl; by intros ?).
  - rewrite E2, filter_cons_True by done. by rewrite <-app_assoc.
  - apply (staged_app [d] rs w w w'); [by apply staged_skip|done].
Qed.

Lemma cached_as_write rc d rs c0 s0 cs w w1 w' :
  d ∉ skip → writeCacheBlob fault rc d w = (Ok (), w1) → (G → H rc = d) →
  cached_as H skip G rs (c0 ++ [d]) s0 cs w1 w' → cached_as H skip G (d :: rs) c0 s0 cs w w'.
Proof.
  intros Hd Ew HG (E1 & E2 & S). split_and!.
  - rewrite E1, filter_cons_True by done. by rewrite <-app_assoc.
  - rewrite E2. by rewrite filter_cons_False by (simpl; by intros ?).
  - apply (staged_app [d] rs w w1 w'); [by eapply staged_write|done].
Qed.

End Staged.


Section StagingPass.

Variable skip : list Hash.
Variable G : Prop.

Lemma cacheLayers_Ok layers : ∀ c0 s0 w cs w',
  is_Some (cache w) →
  (G → Forall (λ l, match l_Digest l, l_Compressed l with
                    | Ok d, Ok c => H c = d
                    | _, _ => True
                    end) layers) →
  cacheLayers fault layers skip c0 s0 w = (Ok cs, w') →
  cached_as H skip G (layer_refs layers) c0 s0 cs w w'.
Proof.
  induction layers as [|l layers IH]; intros c0 s0 w cs w' Hc HG E; simpl in E.
  - apply ret_Ok_inv in E as [-> ->]. by apply cached_as_nil.
  - apply bind_Ok_inv in E as (ld & w0 & [El ->]%lift_Ok_inv & E).
    assert (layer_refs (l :: layers) = ld :: layer_refs layers) as ->.
    { unfold layer_refs. simpl. by rewrite El. }
    assert (G → Forall (λ l, match l_Digest l, l_Compressed l with
                             | Ok d, Ok c => H c = d
                             | _, _ => True
                             end) layers) as HG'.
    { intros HG'. specialize (HG HG'). by inversion HG. }
    case_bool_decide as Hd.
    + apply cached_as_skip; [done|done|]. by apply IH.
    + apply bind_Ok_inv in E as (rc & w1 & [Erc ->]%lift_Ok_inv & E).
      apply bind_Ok_inv in E as ([] & w2 & Ew & E).
      eapply cached_as_write; [done|done| |].
      * intros HG''. specialize (HG HG''). inversion HG as [|?? Hl]; subst.
        by rewrite El, Erc in Hl.
      * apply IH; [|done|done]. eapply staged_cache. by eapply staged_write.
Qed.

Lemma cacheImageBlobs_Ok im w cs w' :
  is_Some (cache w) → (G → image_addressed H im) →
  cacheImageBlobs fault im skip w = (Ok cs, w') →
  cached_as H skip G (image_refs im) [] [] cs w w'.
Proof.
  intros Hc HG E. unfold cacheImageBlobs in E.
  apply bind_Ok_inv in E as (layers & w0 & [El ->]%lift_Ok_inv & E).
  apply bind_Ok_inv in E as (cs1 & w1 & E1 & E).
  apply bind_Ok_inv in E as (mf & w2 & [Em ->]%lift_Ok_inv & E).
  unfold image_refs. rewrite El, Em.
  apply cacheLayers_Ok in E1; [|done|].
  2:{ intros HG'. destruct (HG HG') as [Hl _]. by rewrite El in Hl. }
  pose proof (cached_as_cache _ _ _ _ _ _ _ _ E1) as Hc1.
  eapply cached_as_app; [done|]. simpl.
  case_bool_decide as Hd.
  - apply ret_Ok_inv in E as [-> ->].
    apply cached_as_skip; [done|done|]. by apply cached_as_nil.
  - apply bind_Ok_inv in E as (c & w3 & [Ec ->]%lift_Ok_inv & E).
    apply bind_Ok_inv in E as ([] & w4 & Ew & E).
    apply ret_Ok_inv in E as [-> ->].
    eapply cached_as_write; [done|done| |].
    + intros HG'. destruct (HG HG') as [_ Hm]. by rewrite Em, Ec in Hm.
    + apply cached_as_nil. eapply staged_cache. by eapply staged_write.
Qed.

Lemma cacheIndex_loop_Ok cacheChild refsChild (addressedChild : ImageIndex → Prop)
    cix cim bl :
  (∀ d child, cix d = Ok child → ∀ w cs w',
     is_Some (cache w) → (G → addressedChild child) →
     cacheChild child w = (Ok cs, w') →
     cached_as H skip G (refsChild child) [] [] cs w w') →
  ∀ descs c0 s0 w cs w',
  is_Some (cache w) →
  (G → Forall (desc_addressed H addressedChild cix cim bl) descs) →
  cacheIndex_loop fault cacheChild cix cim bl skip descs c0 s0 w = (Ok cs, w') →
  cached_as H skip G (mjoin (desc_refs refsChild cix cim <$> descs)) c0 s0 cs w w'.
Proof.
  intros Hchild.
  induction descs as [|desc descs IH]; intros c0 s0 w cs w' Hc HG E; simpl in E.
  - apply ret_Ok_inv in E as [-> ->]. by apply cached_as_nil.
  - assert (G → Forall (desc_addressed H addressedChild cix cim bl) descs) as HGr.
    { intros HG'. specialize (HG HG'). by inversion HG. }
    assert (G → desc_addressed H addressedChild cix cim bl desc) as HGd.
    { intros HG'. specialize (HG HG'). by inversion HG. }
    simpl. unfold desc_refs at 1. unfold desc_addressed in HGd.
    destruct (classify (d_MediaType desc)).
    + apply bind_Ok_inv in E as (child & w0 & [Ech ->]%lift_Ok_inv & E).
      apply bind_Ok_inv in E as (cs1 & w1 & E1 & E).
      rewrite Ech in *.
      apply (Hchild _ _ Ech) in E1; [|done|by intros HG'; apply HGd].
      pose proof (cached_as_cache _ _ _ _ _ _ _ _ E1) as Hc1.
      rewrite <-app_assoc. eapply cached_as_app; [done|]. simpl.
      case_bool_decide as Hd.
      * apply cached_as_skip; [done|done|]. by apply IH.
      * apply bind_Ok_inv in E as (rm & w2 & [Erm ->]%lift_Ok_inv & E).
        apply bind_Ok_inv in E as ([] & w3 & Ew & E).
        eapply cached_as_write; [done|done| |].
        -- intros HG'. destruct (HGd HG') as [_ Hr]. by rewrite Erm in Hr.
        -- apply IH; [|done|done]. eapply staged_cache. by eapply staged_write.
    + apply bind_Ok_inv in E as (child & w0 & [Ech ->]%lift_Ok_inv & E).
      apply bind_Ok_inv in E as (cs1 & w1 & E1 & E).
      rewrite Ech in *.
      apply cacheImageBlobs_Ok in E1; [|done|by intros HG'; apply HGd].
      pose proof (cached_as_cache _ _ _ _ _ _ _ _ E1) as Hc1.
      rewrite <-app_assoc. eapply cached_as_app; [done|]. simpl.
      case_bool_decide as Hd.
      * apply cached_as_skip; [done|done|]. by apply IH.
      * apply bind_Ok_inv in E as (rm & w2 & [Erm ->]%lift_Ok_inv & E).
        apply bind_Ok_inv in E as ([] & w3 & Ew & E).
        eapply cached_as_write; [done|done| |].
        -- intros HG'. destruct (HGd HG') as [_ Hr]. by rewrite Erm in Hr.
        -- apply IH; [|done|done]. eapply staged_cache. by eapply staged_write.
    + simpl. case_bool_decide as Hd.
      * apply cached_as_skip; [done|done|]. by apply IH.
      * apply bind_Ok_inv in E as (rc & w2 & [Erc ->]%lift_Ok_inv & E).
        apply bind_Ok_inv in E as ([] & w3 & Ew & E).
        eapply cached_as_write; [done|done| |].
        -- intros HG'. specialize (HGd HG'). by rewrite Erc in HGd.
        -- apply IH; [|done|done]. eapply staged_cache. by eapply staged_write.
Qed.

Lemma cacheIndexBlobs_Ok ii : ∀ w cs w',
  is_Some (cache w) → (G → addressed H ii) →
  cacheIndexBlobs fault ii skip w = (Ok cs, w') →
  cached_as H skip G (refs ii) [] [] cs w w'.
Proof.
  induction ii as [dg im raw cix cim bl IH] using ImageIndex_children_ind.
  intros w cs w' Hc HG E. simpl in E.
  apply bind_Ok_inv in E as (index & w0 & [Ei ->]%lift_Ok_inv & E).
  simpl. rewrite Ei in *.
  eapply (cacheIndex_loop_Ok _ refs (addressed H)); [|done| |done].
  - intros d child Hch w1 cs1 w1' Hc1 HG1 E1. by eapply IH.
  - intros HG'. by specialize (HG HG').
Qed.

End StagingPass.


(** *** What the successful deletions and additions have done *)

Lemma attempt_Ok ev w w' :
  attempt fault ev w = (Ok (), w') →
  w' = mkworld (store w) (cache w) (trace w ++ [ev]).
Proof. unfold attempt. simpl. destruct (fault _); by intros [= <-]. Qed.

Lemma DeleteObject_Ok ev id w w' :
  DeleteObject fault ev id w = (Ok (), w') →
  (∃ x, filter (λ o, o_ID o = id) (store w) = [x]) ∧
  store w' = filter (λ o, o_ID o ≠ id) (store w) ∧
  cache w' = cache w ∧ trace w' = trace w ++ [ev].
Proof.
  unfold DeleteObject. destruct (filter _ (store w)) as [|x [|y l]] eqn:Ef;
    [done| |done].
  intros ([] & w1 & ->%attempt_Ok & [= <-])%bind_Ok_inv. by split; [eexists|].
Qed.


Lemma deleteBlobs_loop_Ok keep descs : ∀ w w',
  deleteBlobs_loop fault descs keep w = (Ok (), w') →
  (∀ d, d ∈ descs → d ∈ store w ∨ ∀ o, o ∈ store w → o_ID o ≠ o_ID d) →
  cache w' = cache w ∧
  (∃ ids, trace w' = trace w ++ (EvDeleteBlob <$> ids)) ∧
  (∀ o, o ∈ store w' → o ∈ store w) ∧
  (∀ d, d ∈ descs →
     ∃ dd, o_OCIBlobDigest d = Ok dd ∧ (dd ∉ keep → d ∉ store w')) ∧
  (∀ o, o ∈ store w →
     (o ∈ descs → ∃ dd, o_OCIBlobDigest o = Ok dd ∧ dd ∈ keep) →
     o ∈ store w').
Proof.
  induction descs as [|d descs IH]; intros w w' E HJ; simpl in E.
  - apply ret_Ok_inv in E as [_ ->]. split_and!; try done.
    + exists []. by rewrite app_nil_r.
    + intros d Hd. by apply elem_of_nil in Hd.
  - apply bind_Ok_inv in E as (dd & w0 & [Ed ->]%lift_Ok_inv & E).
    case_bool_decide as Hk.
    + destruct (IH w w' E) as (Hc & (ids & Ht) & Hsub & Hdel & Hkeep).
      { intros d' Hd'. apply HJ. by right. }
      split_and!; [done|by exists ids|done| |].
      * intros d' [->|Hd']%elem_of_cons; [|by apply Hdel].
        exists dd. split; [done|]. by intros ?.
      * intros o Ho Hcond. apply Hkeep; [done|]. intros Hin. apply Hcond. by right.
    + apply bind_Ok_inv in E as ([] & w1 & Edel & E).
      apply DeleteObject_Ok in Edel as ([x Hx] & Hs1 & Hc1 & Ht1).
      assert (d = x) as <-.
      { assert (x ∈ filter (λ o, o_ID o = o_ID d) (store w)) as Hxin
          by (rewrite Hx; left).
        apply list_elem_of_filter in Hxin as [Hxid Hxin].
        destruct (HJ d) as [Hd|Hnone]; [left| |by destruct (Hnone x Hxin)].
        by eapply filter_singleton_unique. }
      destruct (IH w1 w' E) as (Hc & (ids & Ht) & Hsub & Hdel & Hkeep).
      { intros d' Hd'. rewrite Hs1.
        destruct (decide (o_ID d' = o_ID d)) as [Heq|Hne].
        - right. intros o [Ho _]%list_elem_of_filter. congruence.
        - destruct (HJ d') as [Hin|Hnone]; [by right| |].
          + left. by apply list_elem_of_filter.
          + right. intros o [_ Ho]%list_elem_of_filter. by apply Hnone. }
      split_and!.
      * congruence.
      * exists (o_ID d :: ids). by rewrite Ht, Ht1, <-app_assoc.
      * intros o Ho. apply Hsub in Ho. rewrite Hs1 in Ho.
        by apply list_elem_of_filter in Ho as [_ ?].
      * intros d' [->|Hd']%elem_of_cons; [|by apply Hdel].
        exists dd. split; [done|]. intros _ Hin. apply Hsub in Hin.
        rewrite Hs1 in Hin. by apply list_elem_of_filter in Hin as [? _].
      * intros o Ho Hcond. apply Hkeep.
        -- rewrite Hs1. apply list_elem_of_filter. split; [|done].
           intros Hid. assert (o = d) as -> by by eapply filter_singleton_unique.
           destruct Hcond as (dd' & Hdd' & Hin); [left|]. congruence.
        -- intros Hin. apply Hcond. by right.
Qed.

Lemma deleteRootIndex_Ok w w' :
  deleteRootIndex fault w = (Ok (), w') →
  ∃ rd, GetDescriptors DataOCIRootIndex (store w) = [rd] ∧
    store w' = filter (λ o, o_ID o ≠ o_ID rd) (store w) ∧
    (∀ o, o ∈ store w → o_ID o = o_ID rd → o = rd) ∧
    cache w' = cache w ∧ trace w' = trace w ++ [EvDeleteRootIndex (o_ID rd)].
Proof.
  unfold deleteRootIndex. intros (rd & w0 & Eg & Edel)%bind_Ok_inv.
  injection Eg as Eg <-. unfold GetDescriptor in Eg.
  destruct (GetDescriptors _ (store w)) as [|x [|y l]] eqn:Ef; simplify_eq.
  apply DeleteObject_Ok in Edel as ([x Hx] & Hs & Hc & Ht).
  exists rd. split_and!; try done.
  assert (rd ∈ store w) as Hrd.
  { assert (rd ∈ GetDescriptors DataOCIRootIndex (store w)) as Hin
      by (rewrite Ef; left).
    by apply list_elem_of_filter in Hin as [_ ?]. }
  assert (rd = x) as <- by by eapply filter_singleton_unique.
  intros o Ho Hid. by eapply filter_singleton_unique.
Qed.


Lemma add_events_cons files b c cached :
  files !! b = Some c →
  add_events files (b :: cached) =
    [EvReadCache b; EvAddObject DataOCIBlob c; EvCloseCache b] ++
    add_events files cached.
Proof. intros Hb. unfold add_events. rewrite fmap_cons. cbn beta. by rewrite Hb. Qed.

Lemma add_events_no_root files cached ri :
  EvAddObject DataOCIRootIndex ri ∉ add_events files cached.
Proof.
  unfold add_events. intros (l & Hl & Hin)%list_elem_of_join.
  apply list_elem_of_fmap in Hin as (d & -> & _).
  repeat (apply elem_of_cons in Hl as [?|Hl]; [done|]).
  by apply elem_of_nil in Hl.
Qed.

Lemma writeCached_Ok files cached : ∀ w w',
  cache w = Some files →
  writeCached H fault cached w = (Ok (), w') →
  cache w' = cache w ∧
  trace w' = trace w ++ add_events files cached ∧
  ∃ news, store w' = store w ++ news ∧
    Forall (λ o, o_DataType o = DataOCIBlob) news ∧
    (∀ d, d ∈ cached → ∃ c, files !! d = Some c ∧
       ∃ o, o ∈ news ∧ o_OCIBlobDigest o = Ok (H c)) ∧
    (∀ o, o ∈ news → ∃ d c, d ∈ cached ∧ files !! d = Some c ∧
       o_OCIBlobDigest o = Ok (H c)).
Proof.
  induction cached as [|b cached IH]; intros w w' Hc E; simpl in E.
  - apply ret_Ok_inv in E as [_ ->]. split_and!; [done|by rewrite app_nil_r|].
    exists []. rewrite app_nil_r. split_and!; [done|done| |].
    + intros d Hd. by apply elem_of_nil in Hd.
    + intros o Ho. by apply elem_of_nil in Ho.
  - apply bind_Ok_inv in E as (rc & w1 & Er & E).
    apply bind_Ok_inv in E as ([] & w2 & Ew & E).
    apply bind_Ok_inv in E as ([] & w3 & ->%attempt_Ok & E).
    unfold readCacheBlob in Er.
    apply bind_Ok_inv in Er as ([] & w0 & ->%attempt_Ok & Er). simpl in Er.
    rewrite Hc in Er. destruct (files !! b) as [c|] eqn:Eb; [|done]. simplify_eq.
    unfold writeBlobToFileImage in Ew.
    apply bind_Ok_inv in Ew as ([] & w0 & ->%attempt_Ok & Ew). simplify_eq.
    simpl in *.
    apply IH in E as (Hc' & Ht & news & Hs & Hty & Hall & Hnews); [|done].
    simpl in *. split_and!; [congruence| |].
    + rewrite Ht, (add_events_cons _ _ _ _ Eb). simpl.
      by rewrite <-!app_assoc.
    + eexists (_ :: news). split_and!.
      * rewrite Hs. by rewrite <-app_assoc.
      * by constructor.
      * intros d [->|Hd]%elem_of_cons.
        -- exists rc. split; [done|]. eexists. split; [left|done].
        -- destruct (Hall d Hd) as (c & ? & o & ? & ?).
           exists c. split; [done|]. exists o. split; [by right|done].
      * intros o [->|Ho]%elem_of_cons.
        -- exists b, rc. split_and!; [left|done|done].
        -- destruct (Hnews o Ho) as (d & c & ? & ? & ?).
           exists d, c. split_and!; [by right|done|done].
Qed.




Lemma blobDigests_Ok descs : ∀ sb,
  blobDigests descs = Ok sb →
  sb = omap (λ o, match o_OCIBlobDigest o with Ok d => Some d | _ => None end) descs.
Proof.
  induction descs as [|d descs IH]; intros sb E; simpl in E; [by simplify_eq|].
  unfold result_bind in E.
  destruct (o_OCIBlobDigest d) as [dd| |] eqn:Ed; try done.
  destruct (blobDigests descs) as [rest| |]; try done. simplify_eq.
  simpl. rewrite Ed. simpl. f_equal. by apply IH.
Qed.

Lemma elem_of_blob_digests fi d :
  d ∈ blob_digests fi ↔
  ∃ o, o ∈ fi ∧ o_DataType o = DataOCIBlob ∧ o_OCIBlobDigest o = Ok d.
Proof.
  unfold blob_digests, GetDescriptors. rewrite list_elem_of_omap. split.
  - intros (o & [Ht Ho]%list_elem_of_filter & Hd).
    exists o. split_and!; [done|done|]. by repeat case_match; simplify_eq.
  - intros (o & Ho & Ht & Hd). exists o. split; [by apply list_elem_of_filter|].
    by rewrite Hd.
Qed.

Lemma Update_prepare_Some_inv G ii opts w p w1 :
  Update_prepare H fault ii opts w = (Ok (Some p), w1) → (G → addressed H ii) →
  ∃ uo,
    root_digest H (store w) ≠ ix_Digest ii ∧
    ix_RawManifest ii = Ok p.2 ∧
    cached_as H (blob_digests (store w)) G (refs ii) [] [] p.1
      (mkworld (store w) (Some ∅) (trace w ++ [EvMkdirTemp (tempDir uo)])) w1 ∧
    store w1 = store w.
Proof.
  intros E HG.
  pose proof (phased_Update_prepare ii opts w _ _ E) as (_ & Hs & _).
  unfold Update_prepare in E.
  apply bind_Ok_inv in E as (uo & w0 & [Euo ->]%lift_Ok_inv & E).
  apply bind_Ok_inv in E as (sri & w0 & Eri & E).
  injection Eri as Eri <-.
  apply bind_Ok_inv in E as (srd & w0 & [Esrd ->]%lift_Ok_inv & E).
  apply bind_Ok_inv in E as (nd & w0 & [End ->]%lift_Ok_inv & E).
  case_bool_decide as Hne; [by apply ret_Ok_inv in E as [? _]|].
  apply bind_Ok_inv in E as (sb & w0 & Esb & E).
  injection Esb as Esb <-. apply blobDigests_Ok in Esb.
  apply bind_Ok_inv in E as ([] & w0 & Emk & E).
  unfold MkdirTemp in Emk.
  apply bind_Ok_inv in Emk as ([] & w0' & ->%attempt_Ok & Emk).
  injection Emk as <-.
  apply bind_Ok_inv in E as (p' & w2 & Est & E).
  apply ret_Ok_inv in E as [[= <-] ->].
  unfold Update_stage in Est.
  apply bind_Ok_inv in Est as (cs & w3 & Ecs & Est).
  apply bind_Ok_inv in Est as (ri & w4 & [Eri' ->]%lift_Ok_inv & Est).
  apply ret_Ok_inv in Est as [-> ->].
  exists uo. split_and!.
  - unfold root_digest. unfold result_bind in *.
    destruct (GetDescriptor _ _); simplify_eq. rewrite End.
    unfold rootIndex_Digest in Esrd. congruence.
  - done.
  - subst sb. eapply cacheIndexBlobs_Ok; [by eexists|done|done].
  - apply Hs. lia.
Qed.

Lemma Update_prepare_None_inv ii opts w w1 :
  Update_prepare H fault ii opts w = (Ok None, w1) →
  ∃ d, root_digest H (store w) = Ok d ∧ ix_Digest ii = Ok d.
Proof.
  intros E. unfold Update_prepare in E.
  apply bind_Ok_inv in E as (uo & w0 & [Euo ->]%lift_Ok_inv & E).
  apply bind_Ok_inv in E as (sri & w0 & Eri & E).
  injection Eri as Eri <-.
  apply bind_Ok_inv in E as (srd & w0 & [Esrd ->]%lift_Ok_inv & E).
  apply bind_Ok_inv in E as (nd & w0 & [End ->]%lift_Ok_inv & E).
  case_bool_decide as Hne.
  - exists nd. split; [|done]. unfold root_digest, result_bind in *.
    destruct (GetDescriptor _ _); simplify_eq. unfold rootIndex_Digest in Esrd.
    congruence.
  - apply bind_Ok_inv in E as (sb & w0 & Esb & E).
    apply bind_Ok_inv in E as ([] & w2 & Emk & E).
    apply bind_Ok_inv in E as (p' & w3 & Est & E).
    by apply ret_Ok_inv in E as [? _].
Qed.

(** The run of [Update_commit] that succeeds. *)
Lemma Update_commit_Ok cached keep ri w1 w2 files :
  cache w1 = Some files →
  Update_commit H fault cached keep ri w1 = (Ok (), w2) →
  (∃ dels rid,
     trace w2 = trace w1 ++ (EvDeleteBlob <$> dels) ++ [EvDeleteRootIndex rid] ++
                add_events files cached ++ [EvAddObject DataOCIRootIndex ri]) ∧
  root_indexes (store w2) = [ri] ∧
  (∀ d, d ∈ blob_digests (store w2) ↔
        (d ∈ blob_digests (store w1) ∧ d ∈ keep) ∨
        (∃ b c, b ∈ cached ∧ files !! b = Some c ∧ d = H c)).
Proof.
  intros Hc E. unfold Update_commit in E.
  apply bind_Ok_inv in E as ([] & wa & Ea & E).
  apply bind_Ok_inv in E as ([] & wb & Eb & E).
  apply bind_Ok_inv in E as ([] & wc & Ec & E).
  unfold deleteBlobsExcept in Ea.
  apply deleteBlobs_loop_Ok in Ea
    as (Hca & (dels & Hta) & Hsuba & Hdela & Hkeepa).
  2:{ intros d [_ Hd]%list_elem_of_filter. by left. }
  apply deleteRootIndex_Ok in Eb as (rd & Hrd & Hsb & Huniq & Hcb & Htb).
  apply (writeCached_Ok files) in Ec
    as (Hcc & Htc & news & Hsc & Htyc & Hallc & Hnewsc); [|congruence].
  unfold writeBlobToFileImage in E.
  apply bind_Ok_inv in E as ([] & wd & ->%attempt_Ok & E). simplify_eq. simpl.
  assert (rd ∈ store wa ∧ o_DataType rd = DataOCIRootIndex) as [Hrdin Hrdty].
  { assert (rd ∈ GetDescriptors DataOCIRootIndex (store wa)) as Hin
      by (rewrite Hrd; left).
    by apply list_elem_of_filter in Hin as [? ?]. }
  split_and!.
  - exists dels, (o_ID rd). rewrite Htc, Htb, Hta. by rewrite <-!app_assoc.
  - unfold root_indexes, GetDescriptors. rewrite Hsc, Hsb.
    rewrite !filter_app, filter_cons_True, filter_nil by done.
    rewrite (filter_none _ news).
    2:{ eapply Forall_impl; [done|]. simpl. intros o ->. done. }
    rewrite (filter_none _ (filter _ (store wa))); [done|].
    apply Forall_forall. intros o [Hid Ho]%list_elem_of_filter Hty.
    apply Hid. assert (o ∈ GetDescriptors DataOCIRootIndex (store wa)) as Hin
      by by apply list_elem_of_filter.
    rewrite Hrd in Hin. by apply list_elem_of_singleton in Hin as ->.
  - intros d. rewrite !elem_of_blob_digests. split.
    + intros (o & Ho & Hty & Hd). rewrite Hsc, Hsb in Ho.
      apply elem_of_app in Ho as [Ho|Ho];
        [apply elem_of_app in Ho as [Ho|Ho]|].
      * apply list_elem_of_filter in Ho as [_ Ho]. left.
        pose proof (Hsuba o Ho) as Ho1. split; [by exists o|].
        destruct (Hdela o) as (dd & Hdd & Hgone);
          [by apply list_elem_of_filter|].
        assert (dd = d) as -> by congruence.
        destruct (decide (d ∈ keep)); [done|]. by destruct Hgone.
      * right. destruct (Hnewsc o Ho) as (b & c & Hb & Hf & Ho').
        exists b, c. split_and!; [done|done|congruence].
      * apply list_elem_of_singleton in Ho as ->. done.
    + intros [[(o & Ho & Hty & Hd) Hk]|(b & c & Hb & Hf & ->)].
      * exists o. split_and!; [|done|done]. rewrite Hsc, Hsb.
        apply elem_of_app. left. apply elem_of_app. left.
        assert (o ∈ store wa) as Hoa.
        { apply Hkeepa; [done|]. intros _. by exists d. }
        apply list_elem_of_filter. split; [|done].
        intros Hid. assert (o = rd) as -> by by apply Huniq.
        congruence.
      * destruct (Hallc b Hb) as (c' & Hf' & o & Ho & Ho').
        assert (c' = c) as -> by congruence.
        exists o. split_and!; [|by eapply (proj1 (Forall_forall _ _) Htyc)|done].
        rewrite Hsc. apply elem_of_app. left. apply elem_of_app. by right.
Qed.


Lemma no_new_root_refl w : no_new_root w w.
Proof. by intros o. Qed.

Lemma no_new_root_trans w1 w2 w3 :
  no_new_root w1 w2 → no_new_root w2 w3 → no_new_root w1 w3.
Proof. intros H12 H23 o Ho Ht. apply H12; [|done]. by apply H23. Qed.

Lemma no_root_attempt {A} lo hi (c : M world A) w r w' evs ri :
  phased lo hi c → hi < 4 → c w = (r, w') → trace w' = trace w ++ evs →
  EvAddObject DataOCIRootIndex ri ∉ evs.
Proof.
  intros Hc Hhi E Ht Hin.
  destruct (Hc w r w' E) as ((evs' & Ht' & _ & F) & _).
  rewrite Ht in Ht'. apply app_inv_head in Ht' as ->.
  rewrite Forall_forall in F. specialize (F _ Hin). simpl in F. lia.
Qed.

(** Any run of [Update_commit]: an unsuccessful one leaves no new root
    index, and one that gets to write the root index has by then gone
    through all the deletions and added every staged blob. *)
Lemma Update_commit_run cached keep ri w1 r w2 files :
  cache w1 = Some files →
  Update_commit H fault cached keep ri w1 = (r, w2) →
  ∃ evs, trace w2 = trace w1 ++ evs ∧
    (r ≠ Ok () → no_new_root w1 w2) ∧
    (∀ ri', EvAddObject DataOCIRootIndex ri' ∈ evs →
       ∃ dels rid,
         evs = (EvDeleteBlob <$> dels) ++ [EvDeleteRootIndex rid] ++
               add_events files cached ++ [EvAddObject DataOCIRootIndex ri]).
Proof.
  intros Hc E.
  destruct (phased_Update_commit cached keep ri w1 r w2 E)
    as ((evs & Ht & _ & _) & _ & _).
  exists evs. split; [done|].
  unfold Update_commit in E. unfold bind at 1 in E.
  destruct (deleteBlobsExcept fault keep w1) as [ra wa] eqn:Ea.
  pose proof (phased_deleteBlobsExcept keep w1 ra wa Ea) as (_ & _ & Hna).
  specialize (Hna ltac:(lia)).
  assert (∀ ri', ra ≠ Ok () → (ra, wa) = (r, w2) →
            EvAddObject DataOCIRootIndex ri' ∉ evs) as Ha.
  { intros ri' _ [= <- <-].
    eapply (no_root_attempt 1 1);
      [apply (phased_deleteBlobsExcept keep)|lia|done|done]. }
  destruct ra as [[]| |]; [|by split; [intros _; simplify_eq|intros ? Hin;
    destruct (Ha _ ltac:(done) E Hin)]..].
  clear Ha. unfold deleteBlobsExcept in Ea.
  apply deleteBlobs_loop_Ok in Ea as (Hca & (dels & Hta) & _).
  2:{ intros d [_ Hd]%list_elem_of_filter. by left. }
  unfold bind at 1 in E.
  destruct (deleteRootIndex fault wa) as [rb wb] eqn:Eb.
  pose proof (phased_deleteRootIndex wa rb wb Eb) as ((evb & Htb' & _ & Fb) & _ & Hnb).
  specialize (Hnb ltac:(lia)).
  assert (∀ ri', rb ≠ Ok () → (rb, wb) = (r, w2) →
            EvAddObject DataOCIRootIndex ri' ∉ evs) as Hb.
  { intros ri' _ [= <- <-] Hin. rewrite Htb', Hta, <-app_assoc in Ht.
    apply app_inv_head in Ht as <-. apply elem_of_app in Hin as [Hin|Hin].
    - apply list_elem_of_fmap in Hin as (? & ? & _). done.
    - rewrite Forall_forall in Fb. specialize (Fb _ Hin). simpl in Fb. lia. }
  destruct rb as [[]| |]; [|by split; [intros _; simplify_eq;
    exact (no_new_root_trans _ _ _ Hna Hnb)
    |intros ? Hin; destruct (Hb _ ltac:(done) E Hin)]..].
  clear Hb. apply deleteRootIndex_Ok in Eb as (rd & _ & _ & _ & Hcb & Htb).
  unfold bind at 1 in E.
  destruct (writeCached H fault cached wb) as [rc wc] eqn:Ec.
  pose proof (phased_writeCached cached wb rc wc Ec) as ((evc & Htc' & _ & Fc) & _ & Hnc).
  specialize (Hnc ltac:(lia)).
  assert (∀ ri', rc ≠ Ok () → (rc, wc) = (r, w2) →
            EvAddObject DataOCIRootIndex ri' ∉ evs) as Hcc.
  { intros ri' _ [= <- <-] Hin. rewrite Htc', Htb, Hta, <-!app_assoc in Ht.
    apply app_inv_head in Ht as <-.
    apply elem_of_app in Hin as [Hin|Hin];
      [by apply list_elem_of_fmap in Hin as (? & ? & _)|].
    apply elem_of_cons in Hin as [?|Hin]; [done|].
    rewrite Forall_forall in Fc. specialize (Fc _ Hin). simpl in Fc. lia. }
  destruct rc as [[]| |]; [|by split; [intros _; simplify_eq;
    exact (no_new_root_trans _ _ _ Hna (no_new_root_trans _ _ _ Hnb Hnc))
    |intros ? Hin; destruct (Hcc _ ltac:(done) E Hin)]..].
  clear Hcc. apply (writeCached_Ok files) in Ec as (Hcc & Htc & _); [|congruence].
  unfold writeBlobToFileImage, bind, attempt in E. simpl in E.
  assert (trace w2 = trace wc ++ [EvAddObject DataOCIRootIndex ri] ∧
          (r ≠ Ok () → store w2 = store wc)) as [Htd Hsd].
  { revert E. destruct (fault _); simpl; intros [= <- <-]; simpl;
      (split; [done|]); [done|by intros []]. }
  split.
  - intros Hr o Ho Hty. rewrite (Hsd Hr) in Ho.
    apply Hna; [|done]. apply Hnb; [|done]. by apply Hnc.
  - intros _ _. exists dels, (o_ID rd).
    rewrite Htd, Htc, Htb, Hta, <-!app_assoc in Ht.
    by apply app_inv_head in Ht as <-.
Qed.


(** The three ways a call of [Update] can go: it stops before it deletes
    anything; it finds the root index up to date; it stages and commits. *)
Lemma Update_cases G ii opts w r w' :
  (G → addressed H ii) →
  Update H fault ii opts w = (r, w') →
  (r ≠ Ok () ∧ store w' = store w ∧
   ∃ evs, trace w' = trace w ++ evs ∧
          Forall (λ e, phase e = 0 ∨ e = EvRemoveAll) evs) ∨
  (r = Ok () ∧ w' = w ∧
   ∃ d, root_digest H (store w) = Ok d ∧ ix_Digest ii = Ok d) ∨
  (∃ uo p w1 w2,
     root_digest H (store w) ≠ ix_Digest ii ∧
     ix_RawManifest ii = Ok p.2 ∧
     cached_as H (blob_digests (store w)) G (refs ii) [] [] p.1
       (mkworld (store w) (Some ∅) (trace w ++ [EvMkdirTemp (tempDir uo)])) w1 ∧
     store w1 = store w ∧
     Update_commit H fault p.1.1 p.1.2 p.2 w1 = (r, w2) ∧
     w' = RemoveAll w2).
Proof.
  intros HG E.
  destruct (Update_prepare H fault ii opts w) as [rp w1] eqn:Ep.
  pose proof (phased_Update_prepare ii opts w rp w1 Ep)
    as ((evs & Ht & _ & F) & Hs & _).
  specialize (Hs ltac:(lia)).
  assert (∀ w0, store w0 = store w1 →
            trace w0 = trace w1 ∨ trace w0 = trace w1 ++ [EvRemoveAll] →
            store w0 = store w ∧
            ∃ evs, trace w0 = trace w ++ evs ∧
                   Forall (λ e, phase e = 0 ∨ e = EvRemoveAll) evs) as Hfail.
  { intros w0 Hs0 Ht0. split; [congruence|].
    assert (Forall (λ e, phase e = 0 ∨ e = EvRemoveAll) evs) as F'.
    { eapply Forall_impl; [done|]. simpl. intros. left. lia. }
    destruct Ht0 as [Ht0|Ht0].
    - exists evs. split; [congruence|done].
    - exists (evs ++ [EvRemoveAll]). split; [by rewrite Ht0, Ht, app_assoc|].
      apply Forall_app. split; [done|]. constructor; [by right|constructor]. }
  destruct rp as [[p|]|e|].
  - right. right.
    destruct (Update_prepare_Some_inv G _ _ _ _ _ Ep HG) as (uo & ? & ? & ? & ?).
    rewrite (Update_prepare_Some _ _ _ _ _ Ep) in E. unfold defer in E.
    destruct (Update_commit _ _ _ _ _ _) as [rc w2] eqn:Ec. simplify_eq.
    by exists uo, p, w1, w2.
  - right. left.
    destruct (Update_prepare_None _ _ _ _ Ep) as [E' ->].
    destruct (Update_prepare_None_inv _ _ _ _ Ep) as (d & ? & ?).
    rewrite E' in E. simplify_eq. split_and!; [done|done|by exists d].
  - left. destruct (Update_prepare_Err _ _ _ _ _ Ep) as (w0 & E' & Hs0 & Ht0).
    rewrite E' in E. simplify_eq. split; [done|]. by apply Hfail.
  - left. destruct (Update_prepare_Panic _ _ _ _ Ep) as (w0 & E' & Hs0 & Ht0).
    rewrite E' in E. simplify_eq. split; [done|]. by apply Hfail.
Qed.

Lemma root_digest_of_root_indexes fi ri :
  root_indexes fi = [ri] → root_digest H fi = Ok (H ri).
Proof.
  unfold root_indexes, root_digest, GetDescriptor.
  destruct (GetDescriptors _ fi) as [|o [|o' l]]; try done.
  by intros [= <-].
Qed.

Lemma cache_ok_empty : cache_ok H ∅.
Proof. intros d c Hd. by rewrite lookup_empty in Hd. Qed.

(** *** The claims about [Update] *)

(** C10.  If [Update] returns an error from anything it does before it
    deletes (applying the options, comparing the root digests, listing the
    blobs, creating the staging directory, the caching pass, serializing
    the new root index), the objects of the SIF are exactly what they were
    before the call. *)
Theorem update_failure_before_deletion ii opts w e w1 :
  Update_prepare H fault ii opts w = (Err e, w1) →
  ∃ w', Update H fault ii opts w = (Err e, w') ∧ store w' = store w.
Proof.
  intros Ep. destruct (Update_prepare_Err _ _ _ _ _ Ep) as (w' & E & Hs & _).
  exists w'. split; [done|].
  destruct (phased_Update_prepare ii opts w _ _ Ep) as (_ & Hs1 & _).
  rewrite Hs. apply Hs1. lia.
Qed.

(** C7, as the code has it.  The caching pass compares a digest with the
    list [skip] of the blobs the SIF held when the call began, and with
    nothing else.  When it succeeds, the cached list is the digests met in
    the index tree, in order and with their repetitions, that are not in
    [skip]; the skipped list is those that are; and every entry of the
    cached list was staged by a write of its own. *)
Theorem staging_checks_store_only ii skip w cs w' :
  is_Some (cache w) →
  cacheIndexBlobs fault ii skip w = (Ok cs, w') →
  cs.1 = filter (.∉ skip) (refs ii) ∧
  cs.2 = filter (.∈ skip) (refs ii) ∧
  trace w' = trace w ++ (EvWriteCache <$> cs.1) ∧
  store w' = store w.
Proof.
  intros Hc E.
  destruct (cacheIndexBlobs_Ok skip False ii w cs w' Hc ltac:(done) E)
    as (E1 & E2 & Ht & _).
  destruct (phased_cacheIndexBlobs skip ii w _ _ E) as (_ & Hs & _).
  simpl in *. split_and!; [done|done|by rewrite E1|apply Hs; lia].
Qed.

(** C1, as the code has it.  Let the target index be content-addressed and
    its digest differ from that of the SIF's root index.  After a
    successful [Update] the digests of the content blobs of the SIF are
    exactly the digests reachable from the target index, and the SIF has
    one root-index object, holding the serialized target index. *)
Theorem update_synchronizes ii opts w w' :
  root_digest H (store w) ≠ ix_Digest ii →
  addressed H ii →
  Update H fault ii opts w = (Ok (), w') →
  (∀ d, d ∈ blob_digests (store w') ↔ d ∈ refs ii) ∧
  ∃ ri, ix_RawManifest ii = Ok ri ∧ root_indexes (store w') = [ri].
Proof.
  intros Hne Ha E.
  destruct (Update_cases True ii opts w _ _ ltac:(done) E)
    as [(Hr & _)|[(_ & _ & d & Hd1 & Hd2)|
        (uo & p & w1 & w2 & _ & Hri & (Ec & Ek & Hst) & Hs1 & Ecommit & ->)]];
    [done|congruence|].
  destruct Hst as (_ & f0 & files & Hf0 & Hf & _ & Hin & Hok).
  simpl in Hf0. injection Hf0 as <-. specialize (Hok I cache_ok_empty).
  destruct (Update_commit_Ok _ _ _ _ _ _ Hf Ecommit) as (_ & Hroot & Hblobs).
  simpl in *. split; [|by exists p.2].
  intros d. rewrite Hblobs, Hs1. split.
  - intros [[_ Hk]|(b & c & Hb & Hc & ->)].
    + rewrite Ek in Hk. by apply list_elem_of_filter in Hk as [_ ?].
    + rewrite Ec in Hb. apply list_elem_of_filter in Hb as [_ Hb].
      by rewrite (Hok b c Hc).
  - intros Hd. destruct (decide (d ∈ blob_digests (store w))) as [Hsb|Hsb].
    + left. split; [done|]. rewrite Ek. by apply list_elem_of_filter.
    + right. assert (d ∈ filter (.∉ blob_digests (store w)) (refs ii)) as Hdin
        by by apply list_elem_of_filter.
      destruct (Hin d Hdin) as [c Hc]. exists d, c.
      split_and!; [by rewrite Ec|done|]. symmetry. by apply Hok.
Qed.

(** C2.  When the options apply: if the digest of the SIF's root index is
    the digest of the target index, [Update] succeeds and leaves the world
    as it is (no object added or deleted, no operation attempted); and
    after any successful [Update] with an index whose digest is the digest
    of its serialized form, a second [Update] with that index does so. *)
Theorem update_idempotent ii opts w uo :
  apply_opts opts (mkupdateOpts "") = Ok uo →
  (∀ d, root_digest H (store w) = Ok d → ix_Digest ii = Ok d →
     Update H fault ii opts w = (Ok (), w)) ∧
  (∀ w1, (∀ rm, ix_RawManifest ii = Ok rm → ix_Digest ii = Ok (H rm)) →
     Update H fault ii opts w = (Ok (), w1) →
     Update H fault ii opts w1 = (Ok (), w1)).
Proof.
  intros Hopts.
  assert (∀ w0 d, root_digest H (store w0) = Ok d → ix_Digest ii = Ok d →
            Update H fault ii opts w0 = (Ok (), w0)) as Hshort.
  { intros w0 d Hd1 Hd2. unfold Update, bind, lift, ImageIndexFromFileImage.
    rewrite Hopts. unfold root_digest, result_bind in Hd1.
    destruct (GetDescriptor _ _) as [rd| |]; simplify_eq. simpl.
    rewrite Hd2. by rewrite bool_decide_eq_true_2. }
  split; [apply Hshort|].
  intros w1 Hcons E.
  destruct (Update_cases False ii opts w _ _ ltac:(done) E)
    as [(Hr & _)|[(_ & -> & d & Hd1 & Hd2)|
        (uo' & p & w1' & w2 & _ & Hri & (_ & _ & Hst) & Hs1 & Ecommit & ->)]];
    [done|by eapply Hshort|].
  destruct Hst as (_ & f0 & files & _ & Hf & _).
  destruct (Update_commit_Ok _ _ _ _ _ _ Hf Ecommit) as (_ & Hroot & _).
  apply (Hshort _ (H p.2)); [|by apply Hcons].
  by apply root_digest_of_root_indexes.
Qed.

(** C8.  The operations any call of [Update] attempts are in the order of
    the phases: staging, deletion of blobs, deletion of the old root index,
    addition of the staged blobs, writing of the new root index, removal of
    the staging directory.  If the writing of the new root index is
    attempted at all, everything before it has been done in full: every
    staged blob has been read back, added and closed.  And a call that does
    not succeed leaves no root-index object that was not there before. *)
Theorem update_order ii opts w r w' :
  Update H fault ii opts w = (r, w') →
  ∃ evs, trace w' = trace w ++ evs ∧ in_order evs ∧
    (∀ ri, EvAddObject DataOCIRootIndex ri ∈ evs →
       ∃ dir cached content dels rid,
         evs = commit_sequence dir cached content dels rid ri) ∧
    (r ≠ Ok () → no_new_root w w').
Proof.
  intros E.
  destruct (phased_Update ii opts w r w' E) as ((evs & Ht & Ho & _) & _).
  exists evs. split_and!; [done|done| |].
  - intros ri Hin.
    destruct (Update_cases False ii opts w _ _ ltac:(done) E)
      as [(_ & _ & evs' & Ht' & F)|[(_ & -> & _)|
          (uo & p & w1 & w2 & _ & Hri & (Ec & _ & Hst) & Hs1 & Ecommit & ->)]].
    + rewrite Ht in Ht'. apply app_inv_head in Ht' as <-.
      rewrite Forall_forall in F. by destruct (F _ Hin) as [?|?].
    + rewrite <-(app_nil_r (trace w)) in Ht at 1.
      apply app_inv_head in Ht as <-. by apply elem_of_nil in Hin.
    + destruct Hst as (Ht1 & f0 & files & _ & Hf & _). simpl in *.
      destruct (Update_commit_run _ _ _ _ _ _ _ Hf Ecommit)
        as (evc & Htc & _ & Hshape).
      rewrite Htc, Ht1, <-!app_assoc in Ht. apply app_inv_head in Ht.
      simpl in Ht. subst evs.
      assert (EvAddObject DataOCIRootIndex ri ∈ evc) as Hinc.
      { apply elem_of_cons in Hin as [?|Hin]; [done|].
        apply elem_of_app in Hin as [Hin|Hin];
          [by apply list_elem_of_fmap in Hin as (? & ? & _)|].
        apply elem_of_app in Hin as [Hin|Hin]; [done|].
        by apply list_elem_of_singleton in Hin. }
      destruct (Hshape ri Hinc) as (dels & rid & ->).
      assert (ri = p.2) as ->.
      { apply elem_of_app in Hinc as [Hinc|Hinc];
          [by apply list_elem_of_fmap in Hinc as (? & ? & _)|].
        apply elem_of_cons in Hinc as [?|Hinc]; [done|].
        apply elem_of_app in Hinc as [Hinc|Hinc].
        - by apply add_events_no_root in Hinc.
        - apply list_elem_of_singleton in Hinc. congruence. }
      exists (tempDir uo), p.1.1, (λ d, default ([] : bytes) (files !! d)), dels, rid.
      unfold commit_sequence, add_events. rewrite Ec. simpl.
      by rewrite <-!app_assoc; simpl; rewrite <-!app_assoc.
  - intros Hr.
    destruct (Update_cases False ii opts w _ _ ltac:(done) E)
      as [(_ & Hs & _)|[(? & _)|
          (uo & p & w1 & w2 & _ & Hri & (Ec & _ & Hst) & Hs1 & Ecommit & ->)]];
      [|done|].
    + intros o Hin _. by rewrite <-Hs.
    + destruct Hst as (_ & f0 & files & _ & Hf & _).
      destruct (Update_commit_run _ _ _ _ _ _ _ Hf Ecommit) as (_ & _ & Hn & _).
      intros o Hin Hty. simpl in Hin. rewrite <-Hs1. by apply (Hn Hr).
Qed.

End Proofs.


Lemma update_failure_before_deletion_witness :
  ∃ w', Update toy_H (fault_at 3) indexR2 [] world0 =
          (Err (errExternal "i/o error"), w') ∧
        store w' = store world0.
Proof.
  apply (update_failure_before_deletion toy_H (fault_at 3) indexR2 [] world0
           (errExternal "i/o error")
           (Update_prepare toy_H (fault_at 3) indexR2 [] world0).2).
  vm_compute. reflexivity.
Defined.

(** C7 does not hold of the code: the layer [L] that two images of the
    target share is staged twice, cached twice and added to the SIF
    twice. *)
Lemma staging_deduplication_counterexample :
  (cacheIndexBlobs no_fault indexR3 [] world_staging).1 =
    Ok ([digest_of "L"; digest_of "C1"; digest_of "I1";
         digest_of "L"; digest_of "C2"; digest_of "I2"], []) ∧
  trace (cacheIndexBlobs no_fault indexR3 [] world_staging).2 =
    [EvWriteCache (digest_of "L"); EvWriteCache (digest_of "C1");
     EvWriteCache (digest_of "I1"); EvWriteCache (digest_of "L");
     EvWriteCache (digest_of "C2"); EvWriteCache (digest_of "I2")] ∧
  blob_digests (store (Update toy_H no_fault indexR3 [] world0).2) =
    [digest_of "L"; digest_of "C1"; digest_of "I1";
     digest_of "L"; digest_of "C2"; digest_of "I2"].
Proof. split_and!; vm_compute; reflexivity. Qed.

Lemma staging_checks_store_only_witness :
  ∃ cs w',
    cacheIndexBlobs no_fault indexR3 [digest_of "C1"] world_staging = (Ok cs, w') ∧
    cs.1 = filter (.∉ [digest_of "C1"]) (refs indexR3) ∧
    cs.2 = filter (.∈ [digest_of "C1"]) (refs indexR3) ∧
    trace w' = trace world_staging ++ (EvWriteCache <$> cs.1) ∧
    store w' = store world_staging.
Proof.
  eexists _, _. split; [vm_compute; reflexivity|].
  apply (staging_checks_store_only toy_H no_fault indexR3 [digest_of "C1"]
           world_staging).
  - by eexists.
  - vm_compute. reflexivity.
Defined.

(** C1 does not hold of the code: the SIF's root index is the target
    already, so [Update] returns at once, and the one blob of the SIF,
    which the target does not refer to, stays, while the three the target
    refers to stay missing. *)
Lemma update_synchronizes_counterexample :
  Update toy_H no_fault indexR2 [] world_stale = (Ok (), world_stale) ∧
  blob_digests (store world_stale) = [digest_of "A"] ∧
  refs indexR2 = [digest_of "B"; digest_of "D"; digest_of "E"].
Proof. split_and!; vm_compute; reflexivity. Qed.

Lemma indexR2_addressed : addressed toy_H indexR2.
Proof. repeat (constructor || split). Qed.

Lemma update_synchronizes_witness :
  (∀ d, d ∈ blob_digests (store world_synced) ↔ d ∈ refs indexR2) ∧
  ∃ ri, ix_RawManifest indexR2 = Ok ri ∧ root_indexes (store world_synced) = [ri].
Proof.
  apply (update_synchronizes toy_H no_fault indexR2 [] world0 world_synced).
  - vm_compute. discriminate.
  - apply indexR2_addressed.
  - vm_compute. reflexivity.
Defined.

Lemma update_idempotent_witness :
  Update toy_H no_fault indexR2 [OptTarTempDir "/var/tmp"] world_synced =
    (Ok (), world_synced).
Proof.
  destruct (update_idempotent toy_H no_fault indexR2 [OptTarTempDir "/var/tmp"]
              world_synced (mkupdateOpts "/var/tmp") eq_refl) as [H1 _].
  apply (H1 (digest_of "R2")); vm_compute; reflexivity.
Defined.

Lemma update_order_witness :
  ∃ evs,
    trace (Update toy_H (fault_at 5) indexR2 [] world0).2 = trace world0 ++ evs ∧
    in_order evs ∧
    (∀ ri, EvAddObject DataOCIRootIndex ri ∈ evs →
       ∃ dir cached content dels rid,
         evs = commit_sequence dir cached content dels rid ri) ∧
    (Err (errExternal "i/o error") ≠ Ok () →
     no_new_root world0 (Update toy_H (fault_at 5) indexR2 [] world0).2).
Proof.
  apply (update_order toy_H (fault_at 5) indexR2 [] world0).
  vm_compute. reflexivity.
Defined.

End SifProofs.


(** ** Further properties of the lazy image *)

Module MutateMore.
Import Mutate MutateProofs.

(** The loop of [populate] slot by slot: what it appends for slot [k]. *)
Lemma populate_loop_slots ls os : ∀ i a a',
  populate_loop ls i os a = Ok a' →
  length (a_layers a') = length (a_layers a) + length os ∧
  length (a_diffIDs a') = length (a_diffIDs a) + length os ∧
  (∀ k d, a_layers a !! k = Some d → a_layers a' !! k = Some d) ∧
  (∀ k h, a_diffIDs a !! k = Some h → a_diffIDs a' !! k = Some h) ∧
  ∀ k o, os !! k = Some o →
    ∃ l d h,
      match o with Some l' => l' = l | None => ls !! (i + k) = Some l end ∧
      partial_Descriptor l = Ok d ∧ l_DiffID l = Ok h ∧
      a_layers a' !! (length (a_layers a) + k) = Some d ∧
      a_diffIDs a' !! (length (a_diffIDs a) + k) = Some h.
Proof.
  induction os as [|o os IH]; intros i a a' E; simpl in E.
  - simplify_eq. split_and!; try done; lia.
  - unfold result_bind in E.
    destruct (populate_step ls i o a) as [a1| |] eqn:E1; try discriminate.
    apply populate_step_inv in E1 as (l & d & h & Ho & Hd & Hh & ->).
    apply IH in E as (Hl1 & Hl2 & Hp1 & Hp2 & Hs). simpl in *.
    rewrite length_app in Hl1, Hl2. simpl in *. split_and!; try lia.
    + intros k d' Hk. apply Hp1. by apply lookup_app_l_Some.
    + intros k h' Hk. apply Hp2. by apply lookup_app_l_Some.
    + intros [|k] o' Hk; simpl in Hk.
      * simplify_eq. exists l, d, h. rewrite !Nat.add_0_r. split_and!; try done.
        -- apply Hp1. apply snoc_lookup.
        -- apply Hp2. apply snoc_lookup.
      * destruct (Hs k o' Hk) as (l' & d' & h' & Ho' & Hd' & Hh' & H1 & H2).
        exists l', d', h'. split_and!; try done.
        -- destruct o'; [done|]. by replace (i + S k) with (S i + k) by lia.
        -- rewrite length_app in H1. simpl in H1. rewrite <-H1. f_equal. lia.
        -- rewrite length_app in H2. simpl in H2. rewrite <-H2. f_equal. lia.
Qed.

Lemma Forall_exists_Forall2 {A B} (P : A → B → Prop) (xs : list A) :
  Forall (λ x, ∃ y, P x y) xs → ∃ ys, Forall2 P xs ys.
Proof.
  induction 1 as [|x xs [y Hy] _ [ys IH]]; [by exists []|].
  exists (y :: ys). by constructor.
Qed.

Lemma new_manifest_Layers a config ds m :
  m_Layers (new_manifest a config ds m) = a_layers a.
Proof. unfold new_manifest. simpl. by destruct (d_Data (m_Config m)). Qed.

(** The loop of [populate] leaves alone the entries of the two maps whose
    key no layer of the remaining slots has. *)
Lemma populate_loop_untouched ls os : ∀ i a a',
  populate_loop ls i os a = Ok a' →
  (∀ h, (∀ j o l, os !! j = Some o →
           match o with Some l' => l' = l | None => ls !! (i + j) = Some l end →
           l_DiffID l ≠ Ok h) →
        a_byDiffID a' !! h = a_byDiffID a !! h) ∧
  (∀ g, (∀ j o l, os !! j = Some o →
           match o with Some l' => l' = l | None => ls !! (i + j) = Some l end →
           l_Digest l ≠ Ok g) →
        a_byDigest a' !! g = a_byDigest a !! g).
Proof.
  induction os as [|o os IH]; intros i a a' E; simpl in E.
  - by simplify_eq.
  - unfold result_bind in E.
    destruct (populate_step ls i o a) as [a1| |] eqn:E1; try discriminate.
    apply populate_step_inv in E1 as (l & d & h & Ho & Hd & Hh & ->).
    pose proof (partial_Descriptor_Digest _ _ Hd) as Hg.
    apply IH in E as [IH1 IH2]. simpl in *. split.
    + intros h' Hnone. rewrite IH1.
      * apply lookup_insert_ne. intros <-.
        apply (Hnone 0 o l); [done| |done]. by rewrite Nat.add_0_r.
      * intros j o' l' Hj Ho'. apply (Hnone (S j) o' l'); [done|].
        destruct o'; [done|]. by replace (i + S j) with (S i + j) by lia.
    + intros g' Hnone. rewrite IH2.
      * apply lookup_insert_ne. intros <-.
        apply (Hnone 0 o l); [done| |done]. by rewrite Nat.add_0_r.
      * intros j o' l' Hj Ho'. apply (Hnone (S j) o' l'); [done|].
        destruct o'; [done|]. by replace (i + S j) with (S i + j) by lia.
Qed.

(** The layer of slot [k] is what the maps hold under its hashes, unless a
    later slot has a layer with the same hash. *)
Lemma populate_loop_last ls os : ∀ i a a',
  populate_loop ls i os a = Ok a' →
  ∀ k o l, os !! k = Some o →
    match o with Some l' => l' = l | None => ls !! (i + k) = Some l end →
    (∀ h, l_DiffID l = Ok h →
       (∀ j o' l', k < j → os !! j = Some o' →
          match o' with Some l'' => l'' = l' | None => ls !! (i + j) = Some l' end →
          l_DiffID l' ≠ Ok h) →
       a_byDiffID a' !! h = Some l) ∧
    (∀ g, l_Digest l = Ok g →
       (∀ j o' l', k < j → os !! j = Some o' →
          match o' with Some l'' => l'' = l' | None => ls !! (i + j) = Some l' end →
          l_Digest l' ≠ Ok g) →
       a_byDigest a' !! g = Some l).
Proof.
  induction os as [|o os IH]; intros i a a' E k o0 l0 Hk Hl0; [done|].
  simpl in E. unfold result_bind in E.
  destruct (populate_step ls i o a) as [a1| |] eqn:E1; try discriminate.
  apply populate_step_inv in E1 as (l & d & h & Ho & Hd & Hh & ->).
  pose proof (partial_Descriptor_Digest _ _ Hd) as Hg.
  destruct k as [|k]; simpl in Hk.
  - simplify_eq. rewrite Nat.add_0_r in Hl0.
    assert (l0 = l) as -> by (destruct o0; congruence).
    apply populate_loop_untouched in E as [U1 U2]. simpl in *. split.
    + intros h' Hh' Hlater. rewrite U1.
      * assert (h' = h) as -> by congruence. apply lookup_insert_eq.
      * intros j o' l' Hj Ho'. apply (Hlater (S j) o' l'); [lia|done|].
        destruct o'; [done|]. by replace (i + S j) with (S i + j) by lia.
    + intros g' Hg' Hlater. rewrite U2.
      * assert (g' = d_Digest d) as -> by congruence. apply lookup_insert_eq.
      * intros j o' l' Hj Ho'. apply (Hlater (S j) o' l'); [lia|done|].
        destruct o'; [done|]. by replace (i + S j) with (S i + j) by lia.
  - destruct (IH (S i) _ a' E k o0 l0 Hk) as [L1 L2].
    { destruct o0; [done|]. by replace (S i + k) with (i + S k) by lia. }
    split.
    + intros h' Hh' Hlater. apply L1; [done|].
      intros j o' l' Hj Hoj Ho'. apply (Hlater (S j) o' l'); [lia|done|].
      destruct o'; [done|]. by replace (i + S j) with (S i + j) by lia.
    + intros g' Hg' Hlater. apply L2; [done|].
      intros j o' l' Hj Hoj Ho'. apply (Hlater (S j) o' l'); [lia|done|].
      destruct o'; [done|]. by replace (i + S j) with (S i + j) by lia.
Qed.

Section More.
Variable jc : ConfigFile → result bytes.
Variable jm : Manifest → result bytes.
Variable sha : bytes → result (Hash * Z).

(** What a first successful pass leaves, in one statement. *)
Lemma populate_fresh_Ok w w' :
  computed (img w) = false → populate jc sha w = (Ok (), w') →
  ∃ p c q m ls a config ds,
    Image_ConfigFile (base (img w)) = Ok (Some p) ∧ configs w !! p = Some c ∧
    Image_Manifest (base (img w)) = Ok (Some q) ∧ manifests w !! q = Some m ∧
    Image_Layers (base (img w)) = Ok ls ∧
    populate_loop ls 0 (overrides (img w)) acc_empty = Ok a ∧
    jc (new_config (img w) a c) = Ok config ∧ sha config = Ok ds ∧
    computed (img w') = true ∧
    diffIDs (img w') = a_diffIDs a ∧
    byDiffID (img w') = a_byDiffID a ∧ byDigest (img w') = a_byDigest a ∧
    manifest (img w') = Some (length (manifests w)) ∧
    configFile (img w') = Some (length (configs w)) ∧
    manifests w' !! length (manifests w) = Some (new_manifest a config ds m) ∧
    configs w' !! length (configs w) = Some (new_config (img w) a c).
Proof.
  intros Hc E. rewrite populate_uncomputed in E by done.
  apply populate_pass_Ok_inv in E
    as (p & c & q & m & ls & a & config & ds & ? & ? & ? & ? & ? & ? & ? & ? & ->).
  exists p, c, q, m, ls, a, config, ds. simpl.
  split_and!; try done; apply snoc_lookup.
Qed.


(** *** Memoization *)

(** An action that leaves a computed image and its heaps as they are. *)
Local Abbreviation stable c :=
  (∀ w : world, computed (img w) = true → (c w).2 = w).

Lemma stable_bind {A B} (c : M world A) (k : A → M world B) :
  stable c → (∀ a, stable (k a)) → stable (bind c k).
Proof.
  intros Hc Hk w Hw. unfold bind. specialize (Hc w Hw).
  destruct (c w) as [[a| |] w1]; simpl in *; subst; [by apply Hk|done|done].
Qed.

Lemma stable_pure {A} (f : world → result A) : stable (λ w, (f w, w)).
Proof. done. Qed.

Lemma stable_populate : stable (populate jc sha).
Proof. intros w Hw. by rewrite populate_computed. Qed.

Lemma stable_load_manifest p : stable (load_manifest p).
Proof. intros w _. unfold load_manifest. by repeat case_match. Qed.

Lemma stable_load_config p : stable (load_config p).
Proof. intros w _. unfold load_config. by repeat case_match. Qed.

Lemma stable_RawManifest : stable (RawManifest jc jm sha).
Proof.
  unfold RawManifest. apply stable_bind; [apply stable_populate|]. intros _.
  apply stable_bind; [apply stable_pure|]. intros p.
  apply stable_bind; [apply stable_load_manifest|]. intros m.
  apply (stable_pure (λ _, _)).
Qed.

Lemma stable_RawConfigFile : stable (RawConfigFile jc sha).
Proof.
  unfold RawConfigFile. apply stable_bind; [apply stable_populate|]. intros _.
  apply stable_bind; [apply stable_pure|]. intros p.
  apply stable_bind; [apply stable_load_config|]. intros m.
  apply (stable_pure (λ _, _)).
Qed.

Lemma stable_LayerByDiffID h : stable (LayerByDiffID jc sha h).
Proof.
  unfold LayerByDiffID. apply stable_bind; [apply stable_populate|].
  intros _ w _. by case_match.
Qed.

Lemma stable_LayerByDigest h : stable (LayerByDigest jc sha h).
Proof.
  unfold LayerByDigest. apply stable_bind; [apply stable_populate|].
  intros _ w _. by case_match.
Qed.

Lemma stable_Layers_loop hs : ∀ ls, stable (Layers_loop jc sha hs ls).
Proof.
  induction hs as [|h hs IH]; intros ls; simpl; [done|].
  apply stable_bind; [apply stable_LayerByDiffID|]. intros l. apply IH.
Qed.

Lemma stable_after_call c w :
  computed (img w) = true → after_call jc jm sha c w = w.
Proof.
  revert w. destruct c; simpl.
  - done.
  - apply stable_bind; [apply stable_populate|]. intros _.
    apply stable_bind; [apply stable_RawManifest|]. intros b.
    apply (stable_pure (λ _, _)).
  - apply stable_bind; [apply stable_populate|]. intros _.
    apply stable_bind; [apply stable_RawManifest|]. intros b.
    apply stable_bind; [apply (stable_pure (λ _, _))|]. intros ds.
    apply (stable_pure (λ _, _)).
  - apply stable_bind; [apply stable_populate|]. intros _. apply stable_pure.
  - apply stable_RawManifest.
  - apply stable_bind; [apply stable_populate|]. intros _.
    apply stable_bind; [apply stable_RawConfigFile|]. intros b.
    apply stable_bind; [apply (stable_pure (λ _, _))|]. intros ds.
    apply (stable_pure (λ _, _)).
  - apply stable_bind; [apply stable_populate|]. intros _. apply stable_pure.
  - apply stable_RawConfigFile.
  - apply stable_bind; [apply stable_populate|]. intros _.
    apply stable_bind; [apply stable_pure|]. intros hs. apply stable_Layers_loop.
  - apply stable_LayerByDigest.
  - apply stable_LayerByDiffID.
Qed.

(** X1.  Once the compute-once pass has succeeded, no method call changes
    anything any more: after any sequence of calls the image struct and the
    two heaps are exactly what the pass left, so every later call reads the
    same memoized state and returns what it returned before. *)
Theorem calls_after_success_change_nothing cs w w1 :
  populate jc sha w = (Ok (), w1) →
  after_calls jc jm sha cs w1 = w1.
Proof.
  intros E%populate_Ok_computed.
  induction cs as [|c cs IH]; simpl; [done|].
  by rewrite stable_after_call.
Qed.

(** *** The manifest and the config a first pass builds *)

(** X2.  After a first successful pass the config descriptor of the new
    manifest describes the new config file: its digest and size are the
    SHA-256 and the length [v1.SHA256] gives for the serialized config, its
    inline data, if the base's descriptor carried any, is that
    serialization (and stays absent otherwise), its media type is the
    base's; and [ConfigName] returns that same digest. *)
Theorem manifest_config_describes_config w w' :
  computed (img w) = false → populate jc sha w = (Ok (), w') →
  ∃ p q m0 m c config ds,
    Image_Manifest (base (img w)) = Ok (Some p) ∧ manifests w !! p = Some m0 ∧
    manifest (img w') = Some q ∧ manifests w' !! q = Some m ∧
    load_config (configFile (img w')) w' = (Ok c, w') ∧
    jc c = Ok config ∧ sha config = Ok ds ∧
    d_Digest (m_Config m) = ds.1 ∧ d_Size (m_Config m) = ds.2 ∧
    d_MediaType (m_Config m) = d_MediaType (m_Config m0) ∧
    d_Data (m_Config m) = (λ _, config) <$> d_Data (m_Config m0) ∧
    ConfigName jc sha w' = (Ok ds.1, w').
Proof.
  intros Hc E.
  destruct (populate_fresh_Ok w w' Hc E)
    as (p & c & q & m & ls & a & config & ds & Hp & Hpc & Hq & Hqm & Hls & Ha
        & Hjc & Hsha & Hc' & _ & _ & _ & Hm & Hcf & Hm' & Hc'').
  assert (load_config (configFile (img w')) w' = (Ok (new_config (img w) a c), w'))
    as Hload by (unfold load_config; by rewrite Hcf, Hc'').
  exists q, (length (manifests w)), m, (new_manifest a config ds m),
    (new_config (img w) a c), config, ds.
  split_and!; try done.
  - unfold new_manifest. simpl. by destruct (d_Data (m_Config m)).
  - unfold new_manifest. simpl. by destruct (d_Data (m_Config m)).
  - unfold new_manifest. simpl. by destruct (d_Data (m_Config m)).
  - unfold new_manifest. simpl.
    destruct (d_Data (m_Config m)) eqn:Ed; simpl; by rewrite ?Ed.
  - pose proof (populate_computed jc sha w' Hc') as Hpop.
    assert (RawConfigFile jc sha w' = (Ok config, w')) as Hraw.
    { unfold RawConfigFile. rewrite (after_populate jc sha _ w' w' Hpop).
      unfold bind at 1. unfold bind at 1. rewrite Hload. unfold lift.
      by rewrite Hjc. }
    unfold ConfigName. rewrite (after_populate jc sha _ w' w' Hpop).
    unfold bind at 1. rewrite Hraw. unfold bind, lift, ret. by rewrite Hsha.
Qed.


(** X3.  After a first successful pass the layer list of the new manifest
    and the diff-ID list of the new config have one entry per override
    slot, and entry [k] of each comes from the same layer: the override in
    slot [k], or the base's layer [k] where the slot is empty. *)
Theorem manifest_and_config_follow_slots w w' ls :
  computed (img w) = false → Image_Layers (base (img w)) = Ok ls →
  populate jc sha w = (Ok (), w') →
  ∃ q m c,
    manifest (img w') = Some q ∧ manifests w' !! q = Some m ∧
    load_config (configFile (img w')) w' = (Ok c, w') ∧
    length (m_Layers m) = length (overrides (img w)) ∧
    length (c_RootFS_DiffIDs c) = length (overrides (img w)) ∧
    diffIDs (img w') = c_RootFS_DiffIDs c ∧
    ∀ k o, overrides (img w) !! k = Some o →
      ∃ l d h,
        match o with Some l' => l' = l | None => ls !! k = Some l end ∧
        partial_Descriptor l = Ok d ∧ m_Layers m !! k = Some d ∧
        l_DiffID l = Ok h ∧ c_RootFS_DiffIDs c !! k = Some h.
Proof.
  intros Hc Hls E.
  destruct (populate_fresh_Ok w w' Hc E)
    as (p & c & q & m & ls' & a & config & ds & Hp & Hpc & Hq & Hqm & Hls' & Ha
        & Hjc & Hsha & Hc' & Hd & _ & _ & Hm & Hcf & Hm' & Hc'').
  assert (ls' = ls) as -> by congruence.
  destruct (populate_loop_slots _ _ _ _ _ Ha) as (Hl1 & Hl2 & _ & _ & Hs).
  simpl in *.
  exists (length (manifests w)), (new_manifest a config ds m),
    (new_config (img w) a c).
  rewrite new_manifest_Layers, new_config_DiffIDs.
  split_and!; try done.
  - unfold load_config. by rewrite Hcf, Hc''.
  - intros k o Hk. destruct (Hs k o Hk) as (l & d & h & ? & ? & ? & ? & ?).
    by exists l, d, h.
Qed.

(** X4.  With every slot empty, no replacement history, and a base whose
    manifest and config list the descriptors and diff-IDs of its layers, a
    first successful pass rebuilds what the base has: the new config file
    equals the base's, and the new manifest has the base's schema version,
    media type and layer list. *)
Theorem no_override_round_trip w w' ls p c0 q m0 :
  computed (img w) = false → history (img w) = None →
  Image_Layers (base (img w)) = Ok ls →
  overrides (img w) = replicate (length ls) None →
  Image_ConfigFile (base (img w)) = Ok (Some p) → configs w !! p = Some c0 →
  Image_Manifest (base (img w)) = Ok (Some q) → manifests w !! q = Some m0 →
  Forall2 (λ l h, l_DiffID l = Ok h) ls (c_RootFS_DiffIDs c0) →
  Forall2 (λ l d, partial_Descriptor l = Ok d) ls (m_Layers m0) →
  populate jc sha w = (Ok (), w') →
  load_config (configFile (img w')) w' = (Ok c0, w') ∧
  ∃ m, load_manifest (manifest (img w')) w' = (Ok m, w') ∧
       m_Layers m = m_Layers m0 ∧
       m_SchemaVersion m = m_SchemaVersion m0 ∧ m_MediaType m = m_MediaType m0.
Proof.
  intros Hc Hh Hls Hos Hp Hpc Hq Hqm Fh Fd E.
  destruct (populate_fresh_Ok w w' Hc E)
    as (p' & c & q' & m & ls' & a & config & ds & Hp' & Hpc' & Hq' & Hqm' & Hls'
        & Ha & Hjc & Hsha & Hc' & Hd & _ & _ & Hm & Hcf & Hm' & Hc'').
  assert (ls' = ls) as -> by congruence.
  assert (p' = p) as -> by congruence. assert (c = c0) as -> by congruence.
  assert (q' = q) as -> by congruence. assert (m = m0) as -> by congruence.
  destruct (populate_loop_slots _ _ _ _ _ Ha) as (Hl1 & Hl2 & _ & _ & Hs).
  simpl in *. rewrite Hos, length_replicate in Hl1, Hl2.
  assert (a_diffIDs a = c_RootFS_DiffIDs c0) as Hdi.
  { apply list_eq_same_length with (length ls);
      [by rewrite <-(Forall2_length _ _ _ Fh)|done|].
    intros k h1 h2 Hk H1 H2.
    destruct (Hs k None) as (l & d & h & Hl & _ & Hlh & _ & Hak).
    { rewrite Hos. by apply lookup_replicate_2. }
    simpl in *. destruct (Forall2_lookup_l _ _ _ _ _ Fh Hl) as (h' & Hh' & Hlh').
    congruence. }
  assert (a_layers a = m_Layers m0) as Hla.
  { apply list_eq_same_length with (length ls);
      [by rewrite <-(Forall2_length _ _ _ Fd)|done|].
    intros k d1 d2 Hk H1 H2.
    destruct (Hs k None) as (l & d & h & Hl & Hld & _ & Hak & _).
    { rewrite Hos. by apply lookup_replicate_2. }
    simpl in *. destruct (Forall2_lookup_l _ _ _ _ _ Fd Hl) as (d' & Hd' & Hld').
    congruence. }
  split.
  - unfold load_config. rewrite Hcf, Hc''. do 2 f_equal.
    unfold new_config. rewrite Hh, Hdi. by destruct c0.
  - exists (new_manifest a config ds m0). split_and!.
    + unfold load_manifest. by rewrite Hm, Hm'.
    + by rewrite new_manifest_Layers.
    + unfold new_manifest. simpl. by destruct (d_Data (m_Config m0)).
    + unfold new_manifest. simpl. by destruct (d_Data (m_Config m0)).
Qed.

(** X5.  A first successful pass replaces the history of the config by the
    single record given, or leaves the base's history when none is given;
    the rest of the config, diff-IDs apart, is the base's. *)
Theorem history_replaced_or_kept w w' p c0 :
  computed (img w) = false →
  Image_ConfigFile (base (img w)) = Ok (Some p) → configs w !! p = Some c0 →
  populate jc sha w = (Ok (), w') →
  ∃ c, load_config (configFile (img w')) w' = (Ok c, w') ∧
       c_History c = match history (img w) with
                     | Some h => [h]
                     | None => c_History c0
                     end ∧
       c_Other c = c_Other c0.
Proof.
  intros Hc Hp Hpc E.
  destruct (populate_fresh_Ok w w' Hc E)
    as (p' & c & q' & m & ls' & a & config & ds & Hp' & Hpc' & _ & _ & _
        & _ & _ & _ & _ & _ & _ & _ & _ & Hcf & _ & Hc'').
  assert (p' = p) as -> by congruence. assert (c = c0) as -> by congruence.
  exists (new_config (img w) a c0). split_and!.
  - unfold load_config. by rewrite Hcf, Hc''.
  - unfold new_config. by destruct (history (img w)).
  - unfold new_config. by destruct (history (img w)).
Qed.

(** X6.  After a first successful pass, a layer found by diff-ID has that
    diff-ID and a layer found by digest has that digest, and either is one
    of the override layers or one of the base's layers. *)
Theorem lookups_return_matching_layers w w' ls h l :
  computed (img w) = false → Image_Layers (base (img w)) = Ok ls →
  populate jc sha w = (Ok (), w') →
  (LayerByDiffID jc sha h w' = (Ok l, w') →
     l_DiffID l = Ok h ∧ (Some l ∈ overrides (img w) ∨ l ∈ ls)) ∧
  (LayerByDigest jc sha h w' = (Ok l, w') →
     l_Digest l = Ok h ∧ (Some l ∈ overrides (img w) ∨ l ∈ ls)).
Proof.
  intros Hc Hls E.
  destruct (populate_fresh_Ok w w' Hc E)
    as (p & c & q & m & ls' & a & config & ds & _ & _ & _ & _ & Hls' & Ha
        & _ & _ & Hc' & _ & Hb1 & Hb2 & _).
  assert (ls' = ls) as -> by congruence.
  pose proof (populate_computed jc sha w' Hc') as Hpop.
  apply populate_loop_inv in Ha
    as (es & Hlen & Hes & _ & _ & _ & _ & _ & Hv1 & Hv2).
  assert (∀ l0, l0 ∈ es → Some l0 ∈ overrides (img w) ∨ l0 ∈ ls) as Hfrom.
  { intros l0 (k & Hk)%list_elem_of_lookup.
    destruct (Hes k l0 Hk) as [Ho|[_ Hl]].
    - left. by eapply list_elem_of_lookup_2.
    - right. by eapply list_elem_of_lookup_2. }
  unfold LayerByDiffID, LayerByDigest.
  rewrite !(after_populate jc sha _ w' w' Hpop), Hb1, Hb2. split.
  - destruct (a_byDiffID a !! h) as [l'|] eqn:El; intros [= <-].
    destruct (Hv1 h l' El) as [?|[? ?]]; [done|]. auto.
  - destruct (a_byDigest a !! h) as [l'|] eqn:El; intros [= <-].
    destruct (Hv2 h l' El) as [?|[? ?]]; [done|]. auto.
Qed.

(** X7.  After a first successful pass [Layers] succeeds: no diff-ID of the
    memoized list is missing from the lookup map.  It returns one layer per
    override slot, and the layer at each position has the diff-ID the
    config lists at that position. *)
Theorem Layers_total_after_success w w' :
  computed (img w) = false → populate jc sha w = (Ok (), w') →
  ∃ ls', Layers jc sha w' = (Ok ls', w') ∧
         length ls' = length (overrides (img w)) ∧
         Forall2 (λ l h, l_DiffID l = Ok h) ls' (diffIDs (img w')).
Proof.
  intros Hc E.
  destruct (populate_fresh_Ok w w' Hc E)
    as (p & c & q & m & ls & a & config & ds & _ & _ & _ & _ & Hls & Ha
        & _ & _ & Hc' & Hd & Hb1 & _).
  pose proof (populate_computed jc sha w' Hc') as Hpop.
  destruct (populate_loop_slots _ _ _ _ _ Ha) as (_ & Hl2 & _).
  apply populate_loop_inv in Ha
    as (es & Hlen & Hes & (dids & Hdids & Fd) & _ & _ & Hk1 & _ & Hv1 & _).
  simpl in *. subst dids.
  assert (∃ ls', Forall2 (λ h l, a_byDiffID a !! h = Some l ∧ l_DiffID l = Ok h)
                   (a_diffIDs a) ls') as [ls' F].
  { apply Forall_exists_Forall2, Forall_forall. intros h Hh.
    apply list_elem_of_lookup in Hh as [k Hk].
    destruct (Forall2_lookup_r _ _ _ _ _ Fd Hk) as (l0 & Hl0 & Hlh).
    destruct (Hk1 l0 h) as [l Hl]; [by eapply list_elem_of_lookup_2|done|].
    exists l. split; [done|].
    by destruct (Hv1 h l Hl) as [?|[_ ?]]. }
  exists ls'. split_and!.
  - unfold Layers. rewrite (after_populate jc sha _ w' w' Hpop).
    unfold bind at 1. rewrite Hd.
    rewrite (Layers_loop_computed jc sha w' Hc' (a_diffIDs a) ls' []); [done|].
    rewrite Hb1. eapply Forall2_impl; [done|]. by intros ?? [? _].
  - rewrite <-(Forall2_length _ _ _ F). lia.
  - rewrite Hd. apply Forall2_flip. eapply Forall2_impl; [done|].
    by intros ?? [_ ?].
Qed.


(** X8.  An empty slot at or beyond the number of base layers is not
    reported as an error: when the loop reaches it, indexing the base's
    layers panics, and so does the method that triggered the pass. *)
Theorem slot_beyond_base_layers_panics w ls p c q m k :
  computed (img w) = false →
  Image_ConfigFile (base (img w)) = Ok (Some p) → configs w !! p = Some c →
  Image_Manifest (base (img w)) = Ok (Some q) → manifests w !! q = Some m →
  Image_Layers (base (img w)) = Ok ls →
  overrides (img w) !! k = Some None → length ls ≤ k →
  (∀ j, j < k → overrides (img w) !! j = Some None → j < length ls) →
  (∀ l, l ∈ ls ∨ Some l ∈ overrides (img w) →
     is_Ok (partial_Descriptor l) ∧ is_Ok (l_DiffID l)) →
  (Manifest_ jc sha w).1 = Panic ∧ (Layers jc sha w).1 = Panic ∧
  img (populate jc sha w).2 = img w.
Proof.
  intros Hc Hp Hpc Hq Hqm Hls Hk Hge Hbefore Hok.
  pose proof (populate_panics_on_long_overrides jc sha w ls p c q m k
                Hc Hp Hpc Hq Hqm Hls Hk Hge Hbefore Hok) as Ep.
  unfold Manifest_, Layers, bind.
  destruct (populate jc sha w) as [r w1] eqn:E. simpl in Ep. subst r.
  split_and!; [done|done|]. simpl.
  rewrite populate_uncomputed in E by done.
  destruct (populate_pass_frame jc sha w) as (_ & _ & _ & Himg).
  rewrite E in Himg. by apply Himg.
Qed.

Lemma bind_Err_l {A B} (c : M world A) (k : A → M world B) w e w' :
  c w = (Err e, w') → bind c k w = (Err e, w').
Proof. unfold bind. by intros ->. Qed.

(** X9.  If the base's [ConfigFile] fails, every method that triggers the
    pass returns that error and leaves the image and the heaps untouched,
    while [MediaType], which does not trigger the pass, still answers from
    the base. *)
Theorem base_error_surfaces w e h :
  computed (img w) = false → Image_ConfigFile (base (img w)) = Err e →
  Manifest_ jc sha w = (Err e, w) ∧ RawManifest jc jm sha w = (Err e, w) ∧
  ConfigFile_ jc sha w = (Err e, w) ∧ RawConfigFile jc sha w = (Err e, w) ∧
  Size jc jm sha w = (Err e, w) ∧ Digest jc jm sha w = (Err e, w) ∧
  ConfigName jc sha w = (Err e, w) ∧ Layers jc sha w = (Err e, w) ∧
  LayerByDigest jc sha h w = (Err e, w) ∧
  LayerByDiffID jc sha h w = (Err e, w) ∧
  MediaType_ w = (Image_MediaType (base (img w)), w).
Proof.
  intros Hc He.
  assert (populate jc sha w = (Err e, w)) as Ep.
  { rewrite populate_uncomputed by done.
    unfold populate_pass, bind, lift. simpl. by rewrite He. }
  split_and!; try (by apply bind_Err_l). done.
Qed.

(** X10.  After a first successful pass, [LayerByDiffID] called with the
    diff-ID of the layer of a slot returns that layer, provided no later
    slot has a layer with the same diff-ID: where several slots share a
    diff-ID, the last of them is the one found. *)
Theorem lookup_by_diffID_finds_last_slot w w' ls k o l h :
  computed (img w) = false → Image_Layers (base (img w)) = Ok ls →
  populate jc sha w = (Ok (), w') →
  overrides (img w) !! k = Some o →
  match o with Some l' => l' = l | None => ls !! k = Some l end →
  l_DiffID l = Ok h →
  (∀ j o' l', k < j → overrides (img w) !! j = Some o' →
     match o' with Some l'' => l'' = l' | None => ls !! j = Some l' end →
     l_DiffID l' ≠ Ok h) →
  LayerByDiffID jc sha h w' = (Ok l, w').
Proof.
  intros Hc Hls E Hk Hl Hh Hlater.
  destruct (populate_fresh_Ok w w' Hc E)
    as (p & c & q & m & ls' & a & config & ds & _ & _ & _ & _ & Hls' & Ha
        & _ & _ & Hc' & _ & Hb1 & _).
  assert (ls' = ls) as -> by congruence.
  pose proof (populate_computed jc sha w' Hc') as Hpop.
  destruct (populate_loop_last _ _ _ _ _ Ha k o l Hk Hl) as [L1 _].
  unfold LayerByDiffID. rewrite (after_populate jc sha _ w' w' Hpop), Hb1.
  by rewrite (L1 h Hh Hlater).
Qed.

(** X11.  The same for [LayerByDigest]: called with the digest of the
    layer of a slot it returns that layer, provided no later slot has a
    layer with the same digest. *)
Theorem lookup_by_digest_finds_last_slot w w' ls k o l g :
  computed (img w) = false → Image_Layers (base (img w)) = Ok ls →
  populate jc sha w = (Ok (), w') →
  overrides (img w) !! k = Some o →
  match o with Some l' => l' = l | None => ls !! k = Some l end →
  l_Digest l = Ok g →
  (∀ j o' l', k < j → overrides (img w) !! j = Some o' →
     match o' with Some l'' => l'' = l' | None => ls !! j = Some l' end →
     l_Digest l' ≠ Ok g) →
  LayerByDigest jc sha g w' = (Ok l, w').
Proof.
  intros Hc Hls E Hk Hl Hg Hlater.
  destruct (populate_fresh_Ok w w' Hc E)
    as (p & c & q & m & ls' & a & config & ds & _ & _ & _ & _ & Hls' & Ha
        & _ & _ & Hc' & _ & _ & Hb2 & _).
  assert (ls' = ls) as -> by congruence.
  pose proof (populate_computed jc sha w' Hc') as Hpop.
  destruct (populate_loop_last _ _ _ _ _ Ha k o l Hk Hl) as [_ L2].
  unfold LayerByDigest. rewrite (after_populate jc sha _ w' w' Hpop), Hb2.
  by rewrite (L2 g Hg Hlater).
Qed.

End More.

Local Abbreviation tc := toy_marshal_config.
Local Abbreviation tm := toy_marshal_manifest.
Local Abbreviation ts := toy_SHA256.

Lemma calls_after_success_change_nothing_witness :
  after_calls tc tm ts [CallLayers; CallDigest; CallLayerByDiffID (sha "zz")]
    (populate tc ts w_sub).2 = (populate tc ts w_sub).2.
Proof.
  apply (calls_after_success_change_nothing tc tm ts _ w_sub). reflexivity.
Defined.

Lemma manifest_config_describes_config_witness :
  ∃ p q m0 m c config ds,
    Image_Manifest (base (img w_sub)) = Ok (Some p) ∧
    manifests w_sub !! p = Some m0 ∧
    manifest (img (populate tc ts w_sub).2) = Some q ∧
    manifests (populate tc ts w_sub).2 !! q = Some m ∧
    load_config (configFile (img (populate tc ts w_sub).2)) (populate tc ts w_sub).2
      = (Ok c, (populate tc ts w_sub).2) ∧
    tc c = Ok config ∧ ts config = Ok ds ∧
    d_Digest (m_Config m) = ds.1 ∧ d_Size (m_Config m) = ds.2 ∧
    d_MediaType (m_Config m) = d_MediaType (m_Config m0) ∧
    d_Data (m_Config m) = (λ _, config) <$> d_Data (m_Config m0) ∧
    ConfigName tc ts (populate tc ts w_sub).2 = (Ok ds.1, (populate tc ts w_sub).2).
Proof.
  apply (manifest_config_describes_config tc ts w_sub); reflexivity.
Defined.

Lemma manifest_and_config_follow_slots_witness :
  ∃ q m c,
    manifest (img (populate tc ts w_sub).2) = Some q ∧
    manifests (populate tc ts w_sub).2 !! q = Some m ∧
    load_config (configFile (img (populate tc ts w_sub).2)) (populate tc ts w_sub).2
      = (Ok c, (populate tc ts w_sub).2) ∧
    length (m_Layers m) = length (overrides (img w_sub)) ∧
    length (c_RootFS_DiffIDs c) = length (overrides (img w_sub)) ∧
    diffIDs (img (populate tc ts w_sub).2) = c_RootFS_DiffIDs c ∧
    ∀ k o, overrides (img w_sub) !! k = Some o →
      ∃ l d h,
        match o with Some l' => l' = l | None => [layerA; layerB] !! k = Some l end ∧
        partial_Descriptor l = Ok d ∧ m_Layers m !! k = Some d ∧
        l_DiffID l = Ok h ∧ c_RootFS_DiffIDs c !! k = Some h.
Proof.
  apply (manifest_and_config_follow_slots tc ts w_sub); reflexivity.
Defined.

Lemma no_override_round_trip_witness :
  load_config
    (configFile (img (populate tc ts (world_of (lazy_image base0 [None; None]))).2))
    (populate tc ts (world_of (lazy_image base0 [None; None]))).2
  = (Ok config0, (populate tc ts (world_of (lazy_image base0 [None; None]))).2) ∧
  ∃ m, load_manifest
         (manifest (img (populate tc ts (world_of (lazy_image base0 [None; None]))).2))
         (populate tc ts (world_of (lazy_image base0 [None; None]))).2
       = (Ok m, (populate tc ts (world_of (lazy_image base0 [None; None]))).2) ∧
       m_Layers m = m_Layers manifest0 ∧
       m_SchemaVersion m = m_SchemaVersion manifest0 ∧
       m_MediaType m = m_MediaType manifest0.
Proof.
  apply (no_override_round_trip tc ts (world_of (lazy_image base0 [None; None]))
           _ [layerA; layerB] 0 config0 0 manifest0);
    try reflexivity; repeat constructor.
Defined.

Lemma history_replaced_or_kept_witness :
  ∃ c, load_config (configFile (img (populate tc ts w_sub).2)) (populate tc ts w_sub).2
         = (Ok c, (populate tc ts w_sub).2) ∧
       c_History c = c_History config0 ∧ c_Other c = c_Other config0.
Proof.
  apply (history_replaced_or_kept tc ts w_sub _ 0 config0); reflexivity.
Defined.

Lemma lookups_return_matching_layers_witness :
  l_DiffID layerN = Ok (sha "n") ∧
  (Some layerN ∈ overrides (img w_sub) ∨ layerN ∈ [layerA; layerB]).
Proof.
  apply (lookups_return_matching_layers tc ts w_sub (populate tc ts w_sub).2
           [layerA; layerB] (sha "n") layerN); reflexivity.
Defined.

Lemma Layers_total_after_success_witness :
  ∃ ls', Layers tc ts (populate tc ts w_sub).2 = (Ok ls', (populate tc ts w_sub).2) ∧
         length ls' = length (overrides (img w_sub)) ∧
         Forall2 (λ l h, l_DiffID l = Ok h) ls' (diffIDs (img (populate tc ts w_sub).2)).
Proof.
  apply (Layers_total_after_success tc ts w_sub); reflexivity.
Defined.

Lemma slot_beyond_base_layers_panics_witness :
  (Manifest_ tc ts (world_of (lazy_image base0 [None; None; None]))).1 = Panic ∧
  (Layers tc ts (world_of (lazy_image base0 [None; None; None]))).1 = Panic ∧
  img (populate tc ts (world_of (lazy_image base0 [None; None; None]))).2 =
    img (world_of (lazy_image base0 [None; None; None])).
Proof.
  apply (slot_beyond_base_layers_panics tc ts
           (world_of (lazy_image base0 [None; None; None]))
           [layerA; layerB] 0 config0 0 manifest0 2); try reflexivity.
  - intros j Hj _. simpl. lia.
  - intros l [Hl|Hl]; simpl in Hl; elem_cases; by split.
Defined.

Lemma base_error_surfaces_witness :
  Layers tc ts
    (world_of (lazy_image (mkImage (Ok OCIManifestSchema1)
                             (Err (errExternal "no config")) (Ok (Some 0))
                             (Ok [layerA; layerB])) [None; None]))
  = (Err (errExternal "no config"),
     world_of (lazy_image (mkImage (Ok OCIManifestSchema1)
                             (Err (errExternal "no config")) (Ok (Some 0))
                             (Ok [layerA; layerB])) [None; None])).
Proof.
  destruct (base_error_surfaces tc tm ts
              (world_of (lazy_image (mkImage (Ok OCIManifestSchema1)
                                       (Err (errExternal "no config")) (Ok (Some 0))
                                       (Ok [layerA; layerB])) [None; None]))
              (errExternal "no config") (sha "a") eq_refl eq_refl)
    as (_ & _ & _ & _ & _ & _ & _ & HL & _).
  exact HL.
Defined.

Lemma lookup_by_diffID_finds_last_slot_witness :
  LayerByDiffID tc ts (sha "b") (populate tc ts w_clash).2 =
    (Ok layerB, (populate tc ts w_clash).2).
Proof.
  apply (lookup_by_diffID_finds_last_slot tc ts w_clash _ [layerA; layerB] 1 None);
    try reflexivity.
  intros [|[|j]] o' l' Hj Ho'; simpl in *; try lia. discriminate.
Defined.

Lemma lookup_by_digest_finds_last_slot_witness :
  LayerByDigest tc ts (sha "n-gz") (populate tc ts w_sub).2 =
    (Ok layerN, (populate tc ts w_sub).2).
Proof.
  apply (lookup_by_digest_finds_last_slot tc ts w_sub _ [layerA; layerB] 0
           (Some layerN)); try reflexivity.
  intros [|[|[|j]]] o' l' Hj Ho' Hl'; simpl in *; try lia; try discriminate.
  injection Ho' as <-. simpl in Hl'. injection Hl' as <-. discriminate.
Defined.

End MutateMore.


(** ** Further properties of the synchronisation of a SIF *)

Module SifMore.
Import Sif SifProofs.

(** Any run of a sequencing: the first action succeeded and the second
    gave the outcome, or the first gave it. *)
Lemma bind_inv {S A B} (c : M S A) (k : A → M S B) s r s' :
  bind c k s = (r, s') →
  (∃ a s1, c s = (Ok a, s1) ∧ k a s1 = (r, s')) ∨
  (∃ e, c s = (Err e, s') ∧ r = Err e) ∨
  (c s = (Panic, s') ∧ r = Panic).
Proof.
  unfold bind. destruct (c s) as [[a|e|] s1]; intros E.
  - left. by exists a, s1.
  - right. left. exists e. by simplify_eq.
  - right. right. by simplify_eq.
Qed.

Lemma filter_ext_in {A} (P Q : A → Prop) `{∀ x, Decision (P x)}
    `{∀ x, Decision (Q x)} (l : list A) :
  (∀ x, x ∈ l → P x ↔ Q x) → filter P l = filter Q l.
Proof.
  induction l as [|x l IH]; intros HPQ; [done|].
  assert (filter P l = filter Q l) as IH'.
  { apply IH. intros y Hy. apply HPQ. by right. }
  destruct (decide (P x)) as [HP|HP].
  - rewrite !filter_cons_True; [by rewrite IH'|by apply HPQ; [left|]|done].
  - rewrite !filter_cons_False; [done| |done].
    intros HQ. apply HP. apply HPQ; [left|done].
Qed.

Lemma apply_opts_app pre post uo :
  apply_opts (pre ++ post) uo = result_bind (apply_opts pre uo) (apply_opts post).
Proof.
  revert uo. induction pre as [|opt pre IH]; intros uo; simpl; [done|].
  unfold result_bind at 1 3. destruct (opt uo); [apply IH|done|done].
Qed.

Section More.
Variable H : bytes → Hash.
Variable fault : list event → option error.

(** *** The staging directory *)

(** X12.  A file written to the staging directory under a digest is read
    back unchanged under that digest; it replaces what was staged there
    before, and the files under the other digests are as they were. *)
Theorem cache_write_read_round_trip rc d d' w w1 :
  writeCacheBlob fault rc d w = (Ok (), w1) →
  fault (trace w1 ++ [EvReadCache d']) = None →
  (readCacheBlob fault d' w1).1 =
    (if decide (d' = d) then Ok rc
     else match cache w ≫= (.!! d') with
          | Some c => Ok c
          | None => Err ErrNotExist
          end) ∧
  store (readCacheBlob fault d' w1).2 = store w ∧
  cache (readCacheBlob fault d' w1).2 = cache w1.
Proof.
  intros E Hf. unfold writeCacheBlob in E.
  apply bind_Ok_inv in E as ([] & w0 & ->%attempt_Ok & E). simpl in E.
  destruct (cache w) as [files|] eqn:Ec; [|done]. simplify_eq. simpl in *.
  unfold readCacheBlob, bind, attempt. simpl. rewrite Hf. simpl.
  rewrite lookup_insert. case_decide as Hd; case_decide as Hd'; try congruence.
  - done.
  - by destruct (files !! d').
Qed.

(** X13.  After a successful caching pass that started with an empty
    staging directory, the directory holds one file for each digest of the
    cached list and no other; each can be read back, and when the target
    is content-addressed what is read has the digest it is stored under. *)
Theorem staging_directory_holds_cached ii skip w cs w' :
  cache w = Some ∅ →
  cacheIndexBlobs fault ii skip w = (Ok cs, w') →
  ∃ files, cache w' = Some files ∧
    (∀ d, is_Some (files !! d) ↔ d ∈ cs.1) ∧
    (∀ d, d ∈ cs.1 → fault (trace w' ++ [EvReadCache d]) = None →
       ∃ c, (readCacheBlob fault d w').1 = Ok c ∧ (addressed H ii → H c = d)).
Proof.
  intros Hc E.
  destruct (cacheIndexBlobs_Ok H fault skip (addressed H ii) ii w cs w')
    as (E1 & _ & _ & f0 & files & Hf0 & Hf & Hout & Hin & Hok);
    [by eexists|done|done|].
  assert (f0 = ∅) as -> by congruence. simpl in E1.
  exists files. split_and!; [done| |].
  - intros d. rewrite E1. split; [|apply Hin].
    intros Hs. destruct (decide (d ∈ filter (.∉ skip) (refs ii))) as [|Hn];
      [done|]. rewrite (Hout d Hn), lookup_empty in Hs. by destruct Hs.
  - intros d Hd Hfault. rewrite E1 in Hd. destruct (Hin d Hd) as [c Hcd].
    exists c. split.
    + unfold readCacheBlob, bind, attempt. simpl. rewrite Hfault. simpl.
      by rewrite Hf, Hcd.
    + intros Ha. by apply (Hok Ha (cache_ok_empty H)).
Qed.

(** *** The blobs of the SIF *)




(** X15.  After a successful [deleteBlobsExcept] the SIF holds exactly the
    objects it held that are not content blobs or whose digest is in the
    list to keep: every content blob left has a digest from that list, and
    the staging directory is untouched. *)
Theorem deleteBlobsExcept_keeps_exactly keep w w' :
  deleteBlobsExcept fault keep w = (Ok (), w') →
  (∀ o, o ∈ store w' ↔
        o ∈ store w ∧
        (o_DataType o = DataOCIBlob →
         ∃ dd, o_OCIBlobDigest o = Ok dd ∧ dd ∈ keep)) ∧
  (∀ d, d ∈ blob_digests (store w') → d ∈ keep) ∧
  cache w' = cache w.
Proof.
  intros E. unfold deleteBlobsExcept in E.
  apply deleteBlobs_loop_Ok in E as (Hc & _ & Hsub & Hdel & Hkeep).
  2:{ intros d [_ Hd]%list_elem_of_filter. by left. }
  assert (∀ o, o ∈ store w' → o_DataType o = DataOCIBlob →
            ∃ dd, o_OCIBlobDigest o = Ok dd ∧ dd ∈ keep) as Hleft.
  { intros o Ho Ht. destruct (Hdel o) as (dd & Hdd & Hgone).
    { apply list_elem_of_filter. split; [done|by apply Hsub]. }
    exists dd. split; [done|].
    destruct (decide (dd ∈ keep)) as [|Hn]; [done|]. by destruct (Hgone Hn). }
  split_and!; [|
    |done].
  - intros o. split.
    + intros Ho. split; [by apply Hsub|by apply Hleft].
    + intros [Ho Hb]. apply Hkeep; [done|].
      intros [Ht _]%list_elem_of_filter. by apply Hb.
  - intros d (o & Ho & Ht & Hd)%elem_of_blob_digests.
    destruct (Hleft o Ho Ht) as (dd & Hdd & Hk). congruence.
Qed.



(** Any run of [DeleteObject]. *)
Lemma DeleteObject_run ev id w r w' :
  DeleteObject fault ev id w = (r, w') →
  cache w' = cache w ∧
  ((r = Ok () ∧ (∃ x, filter (λ o, o_ID o = id) (store w) = [x]) ∧
    store w' = filter (λ o, o_ID o ≠ id) (store w)) ∨
   (r ≠ Ok () ∧ store w' = store w)).
Proof.
  unfold DeleteObject.
  destruct (filter _ (store w)) as [|x [|y l]] eqn:Ef.
  - intros [= <- <-]. split; [done|]. by right.
  - unfold bind, attempt. simpl. destruct (fault _); intros [= <- <-]; simpl.
    + split; [done|]. by right.
    + split; [done|]. left. split_and!; [done|by eexists|done].
  - intros [= <- <-]. split; [done|]. by right.
Qed.

Lemma deleteRootIndex_run w r w' :
  deleteRootIndex fault w = (r, w') →
  cache w' = cache w ∧
  store w' = match r with
             | Ok _ => filter (λ o, o_DataType o ≠ DataOCIRootIndex) (store w)
             | _ => store w
             end.
Proof.
  intros E. unfold deleteRootIndex in E.
  apply bind_inv in E as [(rd & w0 & Eg & Edel)|[(e & Eg & ->)|[Eg ->]]].
  - injection Eg as Eg <-.
    apply DeleteObject_run in Edel as [Hc [(-> & [x Hx] & Hs)|[Hr Hs]]].
    + split; [done|]. rewrite Hs.
      unfold GetDescriptor in Eg.
      destruct (GetDescriptors _ (store w)) as [|y [|z l]] eqn:Ef; simplify_eq.
      assert (rd ∈ store w ∧ o_DataType rd = DataOCIRootIndex) as [Hrd Hty].
      { assert (rd ∈ GetDescriptors DataOCIRootIndex (store w)) as Hin
          by (rewrite Ef; left).
        by apply list_elem_of_filter in Hin as [? ?]. }
      assert (rd = x) as <- by by eapply filter_singleton_unique.
      apply filter_ext_in. intros o Ho. split.
      * intros Hid Ht. apply Hid.
        by rewrite (filter_singleton_unique _ _ _ o Ef Ho Ht).
      * intros Ht Hid. apply Ht.
        by rewrite (filter_singleton_unique _ _ _ o Hx Ho Hid).
    + split; [done|]. by destruct r as [[]| |].
  - by injection Eg as _ <-.
  - by injection Eg as _ <-.
Qed.




(** *** What any run leaves behind *)

(** A relation between the worlds before and after that holds of every
    run of an action, whatever its outcome. *)
Local Abbreviation runs P c := (∀ w r w', c w = (r, w') → P w w').

Lemma runs_pure {A} (P : world → world → Prop) (f : world → result A) :
  (∀ w, P w w) → runs P (λ w, (f w, w)).
Proof. intros HP w r w' [= _ <-]. apply HP. Qed.

Lemma runs_bind {A B} (P : world → world → Prop) (c : M world A)
    (k : A → M world B) :
  (∀ w1 w2 w3, P w1 w2 → P w2 w3 → P w1 w3) →
  runs P c → (∀ a, runs P (k a)) → runs P (bind c k).
Proof.
  intros Htrans Hc Hk w r w' E.
  apply bind_inv in E as [(a & w1 & E1 & E2)|[(e & E1 & _)|[E1 _]]].
  - eapply Htrans; [by eapply Hc|by eapply Hk].
  - by eapply Hc.
  - by eapply Hc.
Qed.

(** Only files for digests outside [skip] have been written to the staging
    directory, and nothing else has been attempted. *)
Local Abbreviation only_writes skip w w' :=
  (store w' = store w ∧
   ∃ ds, trace w' = trace w ++ (EvWriteCache <$> ds) ∧ Forall (.∉ skip) ds).

Lemma only_writes_refl (skip : list Hash) w : only_writes skip w w.
Proof. split; [done|]. exists []. by rewrite app_nil_r. Qed.

Lemma only_writes_trans (skip : list Hash) w1 w2 w3 :
  only_writes skip w1 w2 → only_writes skip w2 w3 → only_writes skip w1 w3.
Proof.
  intros (Hs1 & ds1 & Ht1 & F1) (Hs2 & ds2 & Ht2 & F2). split; [congruence|].
  exists (ds1 ++ ds2). split; [|by apply Forall_app].
  by rewrite Ht2, Ht1, fmap_app, app_assoc.
Qed.

Ltac only_writes_bind :=
  apply runs_bind; [apply only_writes_trans| |intros ?].
Ltac only_writes_pure := apply runs_pure, only_writes_refl.

Lemma only_writes_writeCacheBlob (skip : list Hash) rc d :
  d ∉ skip → runs (λ w w', only_writes skip w w') (writeCacheBlob fault rc d).
Proof.
  intros Hd w r w' E. unfold writeCacheBlob, bind, attempt in E. simpl in E.
  assert (store w' = store w ∧ trace w' = trace w ++ [EvWriteCache d]) as [Hs Ht].
  { destruct (fault _); [by simplify_eq|]. simpl in E.
    destruct (cache w); by simplify_eq. }
  split; [done|]. exists [d]. split; [done|]. by constructor.
Qed.

Lemma only_writes_cacheLayers skip layers : ∀ cached skipped,
  runs (λ w w', only_writes skip w w') (cacheLayers fault layers skip cached skipped).
Proof.
  induction layers as [|l layers IH]; intros cached skipped; simpl.
  - only_writes_pure.
  - only_writes_bind; [only_writes_pure|].
    case_bool_decide; [apply IH|].
    only_writes_bind; [only_writes_pure|].
    only_writes_bind; [by apply only_writes_writeCacheBlob|]. apply IH.
Qed.

Lemma only_writes_cacheImageBlobs im skip :
  runs (λ w w', only_writes skip w w') (cacheImageBlobs fault im skip).
Proof.
  unfold cacheImageBlobs.
  only_writes_bind; [only_writes_pure|].
  only_writes_bind; [apply only_writes_cacheLayers|].
  only_writes_bind; [only_writes_pure|].
  case_bool_decide; [only_writes_pure|].
  only_writes_bind; [only_writes_pure|].
  only_writes_bind; [by apply only_writes_writeCacheBlob|]. only_writes_pure.
Qed.

Lemma only_writes_cacheIndex_loop cacheChild cix cim bl skip descs :
  (∀ d child, cix d = Ok child → runs (λ w w', only_writes skip w w') (cacheChild child)) →
  ∀ cached skipped,
  runs (λ w w', only_writes skip w w')
    (cacheIndex_loop fault cacheChild cix cim bl skip descs cached skipped).
Proof.
  intros Hchild.
  induction descs as [|desc descs IH]; intros cached skipped; simpl.
  - only_writes_pure.
  - destruct (classify (d_MediaType desc)).
    + intros w r w' E. unfold bind at 1, lift at 1 in E.
      destruct (cix (d_Digest desc)) as [child| |] eqn:Ec;
        [|injection E as _ <-; apply only_writes_refl..].
      revert w r w' E.
      only_writes_bind; [by eapply Hchild|].
      case_bool_decide; [apply IH|].
      only_writes_bind; [only_writes_pure|].
      only_writes_bind; [by apply only_writes_writeCacheBlob|]. apply IH.
    + only_writes_bind; [only_writes_pure|].
      only_writes_bind; [apply only_writes_cacheImageBlobs|].
      case_bool_decide; [apply IH|].
      only_writes_bind; [only_writes_pure|].
      only_writes_bind; [by apply only_writes_writeCacheBlob|]. apply IH.
    + case_bool_decide; [apply IH|].
      only_writes_bind; [only_writes_pure|].
      only_writes_bind; [by apply only_writes_writeCacheBlob|]. apply IH.
Qed.

Lemma only_writes_cacheIndexBlobs skip ii :
  runs (λ w w', only_writes skip w w') (cacheIndexBlobs fault ii skip).
Proof.
  induction ii as [dg im raw cix cim bl IH] using ImageIndex_children_ind. simpl.
  only_writes_bind; [only_writes_pure|].
  by apply only_writes_cacheIndex_loop.
Qed.

Lemma only_writes_Update_stage skip ii :
  runs (λ w w', only_writes skip w w') (Update_stage fault ii skip).
Proof.
  unfold Update_stage.
  only_writes_bind; [apply only_writes_cacheIndexBlobs|].
  only_writes_bind; only_writes_pure.
Qed.

(** X19.  Whatever its outcome, the caching pass leaves the SIF alone and
    attempts nothing but writes to the staging directory, none of them
    for a digest of the list to skip. *)
Theorem caching_never_stages_present ii skip w r w' :
  cacheIndexBlobs fault ii skip w = (r, w') →
  store w' = store w ∧
  ∃ ds, trace w' = trace w ++ (EvWriteCache <$> ds) ∧ Forall (.∉ skip) ds.
Proof. apply only_writes_cacheIndexBlobs. Qed.

Lemma cacheLayers_all_present skip layers : ∀ cached skipped w,
  Forall (λ l, ∃ d, l_Digest l = Ok d ∧ d ∈ skip) layers →
  cacheLayers fault layers skip cached skipped w =
    (Ok (cached, skipped ++ layer_refs layers), w).
Proof.
  induction layers as [|l layers IH]; intros cached skipped w F; simpl.
  - by rewrite app_nil_r.
  - apply Forall_cons in F as [(d & Hd & Hin) F'].
    unfold bind at 1, lift at 1. rewrite Hd.
    rewrite bool_decide_eq_true_2 by done. rewrite IH by done.
    by rewrite <-app_assoc.
Qed.

(** X20.  When the digests of all the layers of an image and of its config
    are in the list to skip, [cacheImageBlobs] stages nothing and attempts
    nothing: it returns no cached digest and these digests, layers first,
    as skipped, without asking a layer for its content or the image for
    its config file. *)
Theorem cacheImageBlobs_all_present im skip layers mf w :
  im_Layers im = Ok layers → im_Manifest im = Ok mf →
  Forall (λ l, ∃ d, l_Digest l = Ok d ∧ d ∈ skip) layers →
  d_Digest (m_Config mf) ∈ skip →
  cacheImageBlobs fault im skip w = (Ok ([], image_refs im), w).
Proof.
  intros Hl Hm F Hc. unfold cacheImageBlobs, image_refs.
  unfold bind at 1, lift at 1. rewrite Hl.
  unfold bind at 1. rewrite cacheLayers_all_present by done.
  unfold bind at 1, lift at 1. rewrite Hm.
  by rewrite bool_decide_eq_true_2.
Qed.

(** *** The objects [Update] removes *)

Lemma deleteBlobs_loop_run keep descs : ∀ w r w',
  deleteBlobs_loop fault descs keep w = (r, w') →
  (∀ d, d ∈ descs → d ∈ store w ∨ ∀ o, o ∈ store w → o_ID o ≠ o_ID d) →
  ∀ o, o ∈ store w →
    o ∈ store w' ∨
    (o ∈ descs ∧ ∃ dd, o_OCIBlobDigest o = Ok dd ∧ dd ∉ keep).
Proof.
  induction descs as [|d descs IH]; intros w r w' E HJ o Ho; simpl in E.
  - injection E as _ <-. by left.
  - apply bind_inv in E as [(dd & w0 & [Ed ->]%lift_Ok_inv & E)|
                            [(e & [= _ <-] & _)|[[= _ <-] _]]];
      [|by left..].
    case_bool_decide as Hk.
    + destruct (IH w r w' E) with (o := o) as [?|(Hin & Hdd)];
        [intros d' Hd'; apply HJ; by right|done|by left|].
      right. split; [by right|done].
    + apply bind_inv in E as [([] & w1 & Edel & E)|[(e & Edel & _)|[Edel _]]].
      * apply DeleteObject_run in Edel as [_ [(_ & [x Hx] & Hs)|[? _]]]; [|done].
        destruct (decide (o_ID o = o_ID d)) as [Hid|Hid].
        -- right. assert (o = x) as -> by by eapply filter_singleton_unique.
           assert (d = x) as <-.
           { destruct (HJ d) as [Hd|Hnone]; [left| |by destruct (Hnone x Ho)].
             by eapply filter_singleton_unique. }
           split; [left|]. by exists dd.
        -- destruct (IH w1 r w' E) with (o := o) as [?|(Hin & Hdd)].
           ++ intros d' Hd'. rewrite Hs.
              destruct (decide (o_ID d' = o_ID d)) as [Heq|Hne].
              ** right. intros o' [Ho' _]%list_elem_of_filter. congruence.
              ** destruct (HJ d') as [Hin|Hnone]; [by right| |].
                 --- left. by apply list_elem_of_filter.
                 --- right. intros o' [_ Ho']%list_elem_of_filter. by apply Hnone.
           ++ rewrite Hs. by apply list_elem_of_filter.
           ++ by left.
           ++ right. split; [by right|done].
      * apply DeleteObject_run in Edel as [_ [(? & _)|[_ Hs]]]; [done|].
        left. by rewrite Hs.
      * apply DeleteObject_run in Edel as [_ [(? & _)|[_ Hs]]]; [done|].
        left. by rewrite Hs.
Qed.

(** Nothing the SIF held has been removed. *)
Local Abbreviation grows w w' := (∀ o : object, o ∈ store w → o ∈ store w').

Lemma grows_trans w1 w2 w3 : grows w1 w2 → grows w2 w3 → grows w1 w3.
Proof. intros H12 H23 o Ho. by apply H23, H12. Qed.

Ltac grows_bind :=
  apply (runs_bind (λ w w', grows w w')); [apply grows_trans| |intros ?].

Lemma grows_attempt ev : runs (λ w w', grows w w') (attempt fault ev).
Proof.
  intros w r w' E o Ho. unfold attempt in E. simpl in E.
  destruct (fault _); by simplify_eq.
Qed.

Lemma grows_readCacheBlob d : runs (λ w w', grows w w') (readCacheBlob fault d).
Proof.
  unfold readCacheBlob. grows_bind; [apply grows_attempt|].
  intros w r w' E o Ho. by repeat case_match; simplify_eq.
Qed.

Lemma grows_writeBlobToFileImage rc root :
  runs (λ w w', grows w w') (writeBlobToFileImage H fault rc root).
Proof.
  unfold writeBlobToFileImage. grows_bind; [apply grows_attempt|].
  intros w r w' [= _ <-] o Ho. simpl. apply elem_of_app. by left.
Qed.

Lemma grows_writeCached cached :
  runs (λ w w', grows w w') (writeCached H fault cached).
Proof.
  induction cached as [|b cached IH]; simpl.
  - by intros w r w' [= _ <-] o Ho.
  - grows_bind; [apply grows_readCacheBlob|].
    grows_bind; [apply grows_writeBlobToFileImage|].
    grows_bind; [apply grows_attempt|]. apply IH.
Qed.

Lemma Update_commit_removes cached keep ri w r w' o :
  Update_commit H fault cached keep ri w = (r, w') → o ∈ store w →
  o ∈ store w' ∨ o_DataType o = DataOCIRootIndex ∨
  (o_DataType o = DataOCIBlob ∧ ∃ dd, o_OCIBlobDigest o = Ok dd ∧ dd ∉ keep).
Proof.
  intros E Ho. unfold Update_commit in E.
  assert (∀ ra wa, deleteBlobsExcept fault keep w = (ra, wa) →
            o ∈ store wa ∨
            (o_DataType o = DataOCIBlob ∧
             ∃ dd, o_OCIBlobDigest o = Ok dd ∧ dd ∉ keep)) as Ha.
  { intros ra wa Ea. unfold deleteBlobsExcept in Ea.
    destruct (deleteBlobs_loop_run keep _ w ra wa Ea) with (o := o)
      as [?|([Ht _]%list_elem_of_filter & Hdd)]; [|done|by left|by right].
    intros d [_ Hd]%list_elem_of_filter. by left. }
  assert (∀ wa rb wb, deleteRootIndex fault wa = (rb, wb) → o ∈ store wa →
            o ∈ store wb ∨ o_DataType o = DataOCIRootIndex) as Hb.
  { intros wa rb wb Eb Hoa. apply deleteRootIndex_run in Eb as [_ Hs].
    destruct (decide (o_DataType o = DataOCIRootIndex)) as [|Hn]; [by right|].
    left. rewrite Hs. destruct rb; [by apply list_elem_of_filter|done|done]. }
  apply bind_inv in E as [([] & wa & Ea & E)|[(e & Ea & _)|[Ea _]]];
    [|destruct (Ha _ _ Ea); auto..].
  destruct (Ha _ _ Ea) as [Hoa|?]; [|auto].
  apply bind_inv in E as [([] & wb & Eb & E)|[(e & Eb & _)|[Eb _]]];
    [|destruct (Hb _ _ _ Eb Hoa); auto..].
  destruct (Hb _ _ _ Eb Hoa) as [Hob|?]; [|auto].
  left. clear Ho Ha Hb Hoa. revert o Hob.
  eapply (runs_bind (λ w w', grows w w'));
    [apply grows_trans|apply grows_writeCached
    |intros ?; apply grows_writeBlobToFileImage|exact E].
Qed.

(** X21.  Whatever the outcome of [Update], an object the SIF held and
    holds no more is the old root index or a content blob whose digest the
    target index does not refer to.  An object of any other type, and a
    content blob the target refers to, is never removed, not even by a
    call that fails half way. *)
Theorem update_removes_only_unreferenced ii opts w r w' o :
  Update H fault ii opts w = (r, w') → o ∈ store w →
  o ∈ store w' ∨ o_DataType o = DataOCIRootIndex ∨
  (o_DataType o = DataOCIBlob ∧
   ∃ dd, o_OCIBlobDigest o = Ok dd ∧ dd ∉ refs ii).
Proof.
  intros E Ho.
  destruct (Update_cases H fault False ii opts w _ _ ltac:(done) E)
    as [(_ & Hs & _)|[(_ & -> & _)|
        (uo & p & w1 & w2 & _ & _ & (_ & Ek & _) & Hs1 & Ecommit & ->)]].
  - left. by rewrite Hs.
  - by left.
  - rewrite <-Hs1 in Ho.
    destruct (Update_commit_removes _ _ _ _ _ _ o Ecommit Ho)
      as [?|[?|(Ht & dd & Hdd & Hk)]]; [by left|by auto|].
    right. right. split; [done|]. exists dd. split; [done|].
    intros Hin. apply Hk. rewrite Ek. simpl. apply list_elem_of_filter.
    split; [|done]. apply elem_of_blob_digests. exists o.
    by rewrite <-Hs1.
Qed.

(** *** The options and the staging directory of [Update] *)

(** X22.  An option that fails makes [Update] return its error at once:
    the options after it are not applied, nothing is attempted, and the
    SIF and the file system are as they were. *)
Theorem failing_option_aborts ii pre opt post uo e w :
  apply_opts pre (mkupdateOpts EmptyString) = Ok uo → opt uo = Err e →
  Update H fault ii (pre ++ opt :: post) w = (Err e, w).
Proof.
  intros Hpre Hopt. unfold Update. unfold bind at 1, lift at 1.
  rewrite apply_opts_app, Hpre. simpl. by rewrite Hopt.
Qed.

(** The operations of any call of [Update]: none; or the creation of the
    staging directory, which failed; or that creation, writes to the
    directory, operations on the SIF, and the removal of the directory. *)
Lemma Update_trace ii opts w r w' :
  Update H fault ii opts w = (r, w') →
  w' = w ∨
  ∃ uo, apply_opts opts (mkupdateOpts EmptyString) = Ok uo ∧
    ((w' = mkworld (store w) (cache w) (trace w ++ [EvMkdirTemp (tempDir uo)]) ∧
      is_Some (fault (trace w'))) ∨
     (∃ ds evs, cache w' = None ∧
        trace w' = trace w ++ EvMkdirTemp (tempDir uo) ::
                     (EvWriteCache <$> ds) ++ evs ++ [EvRemoveAll] ∧
        Forall (.∉ blob_digests (store w)) ds ∧
        Forall (λ e, 1 ≤ phase e ≤ 4) evs)).
Proof.
  intros E. unfold Update in E.
  apply bind_inv in E as [(uo & w0 & [Euo ->]%lift_Ok_inv & E)|
                          [(e & [= _ <-] & _)|[[= _ <-] _]]]; [|by left..].
  apply bind_inv in E as [(sri & w0 & [= _ <-] & E)|
                          [(e & [= _ <-] & _)|[[= _ <-] _]]]; [|by left..].
  apply bind_inv in E as [(srd & w0 & [_ ->]%lift_Ok_inv & E)|
                          [(e & [= _ <-] & _)|[[= _ <-] _]]]; [|by left..].
  apply bind_inv in E as [(nd & w0 & [_ ->]%lift_Ok_inv & E)|
                          [(e & [= _ <-] & _)|[[= _ <-] _]]]; [|by left..].
  case_bool_decide; [injection E as _ <-; by left|].
  apply bind_inv in E as [(sb & w0 & [= Esb <-] & E)|
                          [(e & [= _ <-] & _)|[[= _ <-] _]]]; [|by left..].
  apply blobDigests_Ok in Esb. fold (blob_digests (store w)) in Esb. subst sb.
  right. exists uo. split; [done|].
  apply bind_inv in E as [([] & w1 & Emk & E)|[(e & Emk & _)|[Emk _]]].
  - right. unfold MkdirTemp in Emk.
    apply bind_Ok_inv in Emk as ([] & w0 & ->%attempt_Ok & [= <-]).
    unfold defer in E.
    destruct (bind _ _ _) as [r1 w2] eqn:E1 in E. injection E as -> <-.
    apply bind_inv in E1 as [(p & w3 & Est & Ec)|[(e & Est & _)|[Est _]]].
    + apply only_writes_Update_stage in Est as (_ & ds & Ht & F).
      destruct (phased_Update_commit H fault _ _ _ _ _ _ Ec)
        as ((evs & Ht2 & _ & F2) & _).
      exists ds, evs. split_and!; [done| |done|done].
      simpl in *. rewrite Ht2, Ht. by rewrite <-!app_assoc.
    + apply only_writes_Update_stage in Est as (_ & ds & Ht & F).
      exists ds, []. split_and!; [done| |done|done].
      simpl in *. rewrite Ht. by rewrite <-!app_assoc.
    + apply only_writes_Update_stage in Est as (_ & ds & Ht & F).
      exists ds, []. split_and!; [done| |done|done].
      simpl in *. rewrite Ht. by rewrite <-!app_assoc.
  - left. unfold MkdirTemp, bind, attempt in Emk. simpl in Emk.
    destruct (fault _) eqn:Ef; simplify_eq. simpl. split; [done|].
    rewrite Ef. by eexists.
  - unfold MkdirTemp, bind, attempt in Emk. simpl in Emk.
    destruct (fault _) eqn:Ef; simplify_eq.
Qed.


(** X24.  The directory given by the last [OptTarTempDir] is the one the
    staging directory is created in: a call that attempts anything begins
    by creating it there, and creates no other. *)
Theorem staging_directory_in_last_tempdir ii pre d uo w r w' :
  apply_opts pre (mkupdateOpts EmptyString) = Ok uo →
  Update H fault ii (pre ++ [OptTarTempDir d]) w = (r, w') →
  trace w' = trace w ∨
  ∃ rest, trace w' = trace w ++ EvMkdirTemp d :: rest ∧
          ∀ dir, EvMkdirTemp dir ∉ rest.
Proof.
  intros Hpre E.
  destruct (Update_trace _ _ _ _ _ E)
    as [->|(uo' & Huo & [[-> Hf]|(ds & evs & Hc' & Ht & _ & F)])];
    [by left|right..].
  all: rewrite apply_opts_app, Hpre in Huo; simpl in Huo;
    injection Huo as <-; simpl in *.
  - exists []. split; [done|]. intros dir Hin. by apply elem_of_nil in Hin.
  - eexists. split; [done|]. intros dir Hin.
    apply elem_of_app in Hin as [Hin|Hin];
      [by apply list_elem_of_fmap in Hin as (? & ? & _)|].
    apply elem_of_app in Hin as [Hin|Hin].
    + rewrite Forall_forall in F. specialize (F _ Hin). simpl in F. lia.
    + by apply list_elem_of_singleton in Hin.
Qed.

End More.

Lemma cache_write_read_round_trip_witness :
  (readCacheBlob no_fault (digest_of "D")
     (writeCacheBlob no_fault (data "D") (digest_of "D") world_staging).2).1 =
    (if decide (digest_of "D" = digest_of "D") then Ok (data "D")
     else match cache world_staging ≫= (.!! digest_of "D") with
          | Some c => Ok c
          | None => Err ErrNotExist
          end) ∧
  store (readCacheBlob no_fault (digest_of "D")
           (writeCacheBlob no_fault (data "D") (digest_of "D") world_staging).2).2 =
    store world_staging ∧
  cache (readCacheBlob no_fault (digest_of "D")
           (writeCacheBlob no_fault (data "D") (digest_of "D") world_staging).2).2 =
    cache (writeCacheBlob no_fault (data "D") (digest_of "D") world_staging).2.
Proof.
  apply (cache_write_read_round_trip no_fault (data "D") (digest_of "D")
           (digest_of "D") world_staging); reflexivity.
Defined.

Lemma staging_directory_holds_cached_witness :
  ∃ files,
    cache (cacheIndexBlobs no_fault indexR2 [digest_of "B"] world_staging).2 =
      Some files ∧
    (∀ d, is_Some (files !! d) ↔ d ∈ [digest_of "D"; digest_of "E"]) ∧
    (∀ d, d ∈ [digest_of "D"; digest_of "E"] →
       no_fault
         (trace (cacheIndexBlobs no_fault indexR2 [digest_of "B"] world_staging).2
          ++ [EvReadCache d]) = None →
       ∃ c, (readCacheBlob no_fault d
               (cacheIndexBlobs no_fault indexR2 [digest_of "B"] world_staging).2).1
            = Ok c ∧
            (addressed toy_H indexR2 → toy_H c = d)).
Proof.
  apply (staging_directory_holds_cached toy_H no_fault indexR2 [digest_of "B"]
           world_staging ([digest_of "D"; digest_of "E"], [digest_of "B"]));
    vm_compute; reflexivity.
Defined.

Lemma deleteBlobsExcept_keeps_exactly_witness :
  (∀ o, o ∈ store (deleteBlobsExcept no_fault [digest_of "B"] world0).2 ↔
        o ∈ store world0 ∧
        (o_DataType o = DataOCIBlob →
         ∃ dd, o_OCIBlobDigest o = Ok dd ∧ dd ∈ [digest_of "B"])) ∧
  (∀ d, d ∈ blob_digests (store (deleteBlobsExcept no_fault [digest_of "B"] world0).2) →
        d ∈ [digest_of "B"]) ∧
  cache (deleteBlobsExcept no_fault [digest_of "B"] world0).2 = cache world0.
Proof.
  apply (deleteBlobsExcept_keeps_exactly no_fault [digest_of "B"] world0).
  vm_compute. reflexivity.
Defined.




Lemma caching_never_stages_present_witness :
  store (cacheIndexBlobs (fault_at 2) indexR2 [digest_of "B"] world_staging).2 =
    store world_staging ∧
  ∃ ds,
    trace (cacheIndexBlobs (fault_at 2) indexR2 [digest_of "B"] world_staging).2 =
      trace world_staging ++ (EvWriteCache <$> ds) ∧
    Forall (.∉ [digest_of "B"]) ds.
Proof.
  apply (caching_never_stages_present (fault_at 2) indexR2 [digest_of "B"]
           world_staging (Err (errExternal "i/o error"))).
  vm_compute. reflexivity.
Defined.

Lemma cacheImageBlobs_all_present_witness :
  cacheImageBlobs (fault_at 1) (image_with "C1" "I1")
    [digest_of "C1"; digest_of "L"] world_staging
  = (Ok ([], image_refs (image_with "C1" "I1")), world_staging).
Proof.
  eapply (cacheImageBlobs_all_present (fault_at 1) (image_with "C1" "I1")
            [digest_of "C1"; digest_of "L"] [layerL]); [reflexivity|reflexivity| |].
  - constructor; [|constructor]. exists (digest_of "L"). split; [done|]. set_solver.
  - simpl. set_solver.
Defined.

Lemma update_removes_only_unreferenced_witness :
  blob 3 "B" ∈ store (Update toy_H (fault_at 5) indexR2 [] world0).2 ∨
  o_DataType (blob 3 "B") = DataOCIRootIndex ∨
  (o_DataType (blob 3 "B") = DataOCIBlob ∧
   ∃ dd, o_OCIBlobDigest (blob 3 "B") = Ok dd ∧ dd ∉ refs indexR2).
Proof.
  apply (update_removes_only_unreferenced toy_H (fault_at 5) indexR2 [] world0
           (Err (errExternal "i/o error"))).
  - vm_compute. reflexivity.
  - unfold world0, store0. simpl. set_solver.
Defined.

Lemma failing_option_aborts_witness :
  Update toy_H no_fault indexR2
    ([OptTarTempDir "/tmp"] ++
     (λ _, Err (errExternal "bad option")) :: [OptTarTempDir "/var/tmp"]) world0
  = (Err (errExternal "bad option"), world0).
Proof.
  apply (failing_option_aborts toy_H no_fault indexR2 [OptTarTempDir "/tmp"]
           (λ _, Err (errExternal "bad option")) [OptTarTempDir "/var/tmp"]
           (mkupdateOpts "/tmp")); reflexivity.
Defined.


Lemma staging_directory_in_last_tempdir_witness :
  trace (Update toy_H no_fault indexR2
           ([OptTarTempDir "/tmp"] ++ [OptTarTempDir "/var/tmp"]) world0).2 =
    trace world0 ∨
  ∃ rest,
    trace (Update toy_H no_fault indexR2
             ([OptTarTempDir "/tmp"] ++ [OptTarTempDir "/var/tmp"]) world0).2 =
      trace world0 ++ EvMkdirTemp "/var/tmp" :: rest ∧
    ∀ dir, EvMkdirTemp dir ∉ rest.
Proof.
  apply (staging_directory_in_last_tempdir toy_H no_fault indexR2
           [OptTarTempDir "/tmp"] "/var/tmp" (mkupdateOpts "/tmp") world0 (Ok ())).
  - reflexivity.
  - vm_compute. reflexivity.
Defined.

End SifMore.
